(** * process_words.py: batch classification pipeline

    A shallow embedding of [src/process_words.py]: the reply parser
    ([parse_response]), the retrying model call ([process_batch]), the
    resumable batch loop ([main]) and the aggregator
    ([aggregate_results]).

    Python [str] values are sequences of Unicode code points and are
    modelled as [list N]; dictionaries with string keys are [gmap string];
    Python exceptions are an explicit error type threaded through a small
    error monad. *)

From Stdlib Require Import ZArith NArith Lia.
From stdpp Require Import base numbers list strings gmap sets pretty.

Local Open Scope Z_scope.

(** ** Python strings *)

Module Str.

(** A Python [str]: a list of code points. *)
Abbreviation str := (list N).

(** Decoding of the UTF-8 bytes of a literal of the source file; [cont]
    counts the continuation bytes still expected, [acc] holds the bits read
    so far. *)
Fixpoint utf8_go (cont : nat) (acc : N) (bs : list N) : str :=
  match bs with
  | [] => []
  | b :: bs' =>
      if (b <? 128)%N then b :: utf8_go 0 0%N bs'
      else if (b <? 192)%N then
        let acc' := (acc * 64 + (b - 128))%N in
        match cont with
        | 1%nat => acc' :: utf8_go 0 0%N bs'
        | S k => utf8_go k acc' bs'
        | 0%nat => utf8_go 0 0%N bs'
        end
      else if (b <? 224)%N then utf8_go 1 (b - 192)%N bs'
      else if (b <? 240)%N then utf8_go 2 (b - 224)%N bs'
      else utf8_go 3 (b - 240)%N bs'
  end.

Definition bytes_of (s : string) : list N :=
  Ascii.N_of_ascii <$> String.list_ascii_of_string s.

(** [lit "..."] is the [str] a source literal denotes. *)
Definition lit (s : string) : str := utf8_go 0 0%N (bytes_of s).

(** The line feed, the only character [.] refuses and the separator of
    [split('\n')]. *)
Definition LF : N := 10%N.

(** [str.isspace] for one character (the characters [str.strip] removes). *)
Definition isspace (c : N) : bool :=
  ((9 <=? c) && (c <=? 13) || (28 <=? c) && (c <=? 32)
   || (c =? 133) || (c =? 160) || (c =? 5760)
   || (8192 <=? c) && (c <=? 8202)
   || (c =? 8232) || (c =? 8233) || (c =? 8239) || (c =? 8287)
   || (c =? 12288))%N.

(** First code point of each run of ten decimal digits (category Nd,
    Unicode 14); the mathematical digits U+1D7CE..U+1D7FF are five runs. *)
Definition decimal_zeros : list N :=
  [48; 1632; 1776; 1984; 2406; 2534; 2662; 2790; 2918; 3046; 3174; 3302;
   3430; 3558; 3664; 3792; 3872; 4160; 4240; 6112; 6160; 6470; 6608; 6784;
   6800; 6992; 7088; 7232; 7248; 42528; 43216; 43264; 43472; 43504; 43600;
   44016; 65296; 66720; 68912; 69734; 69872; 69942; 70096; 70384; 70736;
   70864; 71248; 71360; 71472; 71904; 72016; 72784; 73040; 73120; 92768;
   92864; 93008; 120782; 120792; 120802; 120812; 120822; 123200; 123632;
   125264; 130032]%N.

(** The class [\d] of a [str] pattern: any Unicode decimal digit. *)
Definition isdecimal (c : N) : bool :=
  existsb (fun z => (z <=? c) && (c <? z + 10))%N decimal_zeros.

(** [s.lstrip()] *)
Fixpoint lstrip (s : str) : str :=
  match s with
  | c :: s' => if isspace c then lstrip s' else s
  | [] => []
  end.

(** [s.rstrip()] *)
Definition rstrip (s : str) : str := reverse (lstrip (reverse s)).

(** [s.strip()] *)
Definition strip (s : str) : str := rstrip (lstrip s).

(** [s.startswith(p)] *)
Fixpoint startswith (p s : str) : bool :=
  match p, s with
  | [], _ => true
  | a :: p', b :: s' => (a =? b)%N && startswith p' s'
  | _ :: _, [] => false
  end.

(** [s.endswith(p)] *)
Definition endswith (p s : str) : bool := startswith (reverse p) (reverse s).

(** [s.split(sep)] for a non-empty [sep]: the text is scanned from the left;
    at each occurrence of [sep] the piece read so far ([cur], reversed) is
    closed and the scan resumes after the separator ([skip] counts the
    characters of the separator still to pass). *)
Fixpoint split_go (sep : str) (skip : nat) (cur : str) (s : str) : list str :=
  match s with
  | [] => [reverse cur]
  | c :: s' =>
      match skip with
      | S k => split_go sep k cur s'
      | O =>
          if startswith sep s
          then reverse cur :: split_go sep (length sep - 1) [] s'
          else split_go sep 0 (c :: cur) s'
      end
  end.

Definition split (sep : str) (s : str) : list str := split_go sep 0 [] s.

(** [s[:n]] for [n >= 0] *)
Definition prefix_slice (n : nat) (s : str) : str := take n s.

(** [str(n)] of a non-negative [int], as in an f-string. *)
Definition of_nat (n : nat) : str := bytes_of (pretty n).

(** [str(z)] of an [int]. *)
Definition of_Z (z : Z) : str := bytes_of (pretty z).

End Str.

Import Str.

(** ** Regular expressions ([re]) *)

Module Re.

(** The fragment of Python's pattern syntax the source uses. *)
Inductive re : Type :=
| Void                      (* matches no text *)
| Eps                       (* the empty pattern *)
| Dot                       (* [.]: any character but the line feed *)
| Chr (c : N)               (* a literal character *)
| Range (lo hi : N)         (* [[lo-hi]] *)
| Digit                     (* [\d] *)
| Cat (r1 r2 : re)
| Alt (r1 r2 : re)
| Star (r : re).

(** [r+] *)
Definition Plus (r : re) : re := Cat r (Star r).

Fixpoint nullable (r : re) : bool :=
  match r with
  | Eps | Star _ => true
  | Cat r1 r2 => nullable r1 && nullable r2
  | Alt r1 r2 => nullable r1 || nullable r2
  | _ => false
  end.

(** Does the one-character pattern [r] accept [c]? *)
Definition accepts (r : re) (c : N) : bool :=
  match r with
  | Dot => negb (c =? LF)%N
  | Chr a => (a =? c)%N
  | Range lo hi => ((lo <=? c) && (c <=? hi))%N
  | Digit => isdecimal c
  | _ => false
  end.

(** What [r] may still match once [c] has been read. *)
Fixpoint deriv (c : N) (r : re) : re :=
  match r with
  | Void | Eps => Void
  | Dot | Chr _ | Range _ _ | Digit => if accepts r c then Eps else Void
  | Cat r1 r2 =>
      if nullable r1 then Alt (Cat (deriv c r1) r2) (deriv c r2)
      else Cat (deriv c r1) r2
  | Alt r1 r2 => Alt (deriv c r1) (deriv c r2)
  | Star r1 => Cat (deriv c r1) (Star r1)
  end.

(** [pattern.match(s)] finds a match: some prefix of [s] is matched by the
    pattern (the match is anchored at the start of [s] only). *)
Fixpoint match_ (r : re) (s : str) : bool :=
  nullable r ||
  match s with
  | [] => false
  | c :: s' => match_ (deriv c r) s'
  end.

(** The concatenation of a list of patterns. *)
Definition cat_list (rs : list re) : re := foldr Cat Eps rs.

End Re.

Import Re.

(** ** Exceptions *)

Inductive exn : Type :=
| ValueError (msg : str)
| IndexError
| KeyError (key : string)
| AttributeError (msg : str)
| UnicodeEncodeError (msg : str)
| EmptyDataError (msg : str)
| Exception (msg : str)
| RetryError (last_attempt : str).

(** [str(e)] *)
Definition str_exn (e : exn) : str :=
  match e with
  | ValueError msg | AttributeError msg | UnicodeEncodeError msg
  | EmptyDataError msg | Exception msg => msg
  | IndexError => lit "list index out of range"
  | KeyError key => lit "'" ++ bytes_of key ++ lit "'"
  | RetryError last_attempt => lit "RetryError[" ++ last_attempt ++ lit "]"
  end.

(** A computation that returns or raises. *)
Inductive outcome (A : Type) : Type :=
| Return (a : A)
| Raise (e : exn).
Arguments Return {A} a.
Arguments Raise {A} e.

#[global] Instance outcome_ret : MRet outcome := fun A a => Return a.
#[global] Instance outcome_bind : MBind outcome := fun A B f m =>
  match m with
  | Return a => f a
  | Raise e => Raise e
  end.
#[global] Instance outcome_fmap : FMap outcome := fun A B f m =>
  match m with
  | Return a => Return (f a)
  | Raise e => Raise e
  end.

(** [try: m except Exception as e: h e] *)
Definition try_except {A} (m : outcome A) (h : exn -> outcome A) : outcome A :=
  match m with
  | Return a => Return a
  | Raise e => h e
  end.

(** [l[i]] for [0 <= i] *)
Definition index {A} (l : list A) (i : nat) : outcome A :=
  match l !! i with
  | Some x => Return x
  | None => Raise IndexError
  end.

(** [d[key]] *)
Definition item {V} (d : gmap string V) (key : string) : outcome V :=
  match d !! key with
  | Some v => Return v
  | None => Raise (KeyError key)
  end.

(** ** The reply parser *)

(** A record of the parser: a dictionary from field names to texts. *)
Abbreviation entry := (gmap string str).

(** [re.compile(r".+\n.+\n.+\n[A-C]\n\d+\n(是|否)")] *)
Definition valid_pattern : re :=
  cat_list
    [Plus Dot; Chr LF; Plus Dot; Chr LF; Plus Dot; Chr LF;
     Range 65 67; Chr LF; Plus Digit; Chr LF;
     Alt (Chr 26159) (Chr 21542)].

(** [batch[idx] if idx < len(batch) else f"UNKNOWN_{idx}"] *)
Definition word_at (batch : list str) (idx : nat) : outcome str :=
  if (idx <? length batch)%nat then index batch idx
  else Return (lit "UNKNOWN_" ++ of_nat idx).

(** The body of the [try] of the loop over the blocks; [block] is already
    stripped. *)
Definition try_block (batch : list str) (idx : nat) (block : str)
  : outcome entry :=
  if negb (match_ valid_pattern block)
  then Raise (ValueError (lit "响应格式不符合预期"))
  else
    let lines := split [LF] block in
    if (length lines <? 6)%nat
    then Raise (ValueError (lit "响应行数不足"))
    else
      word ← word_at batch idx;
      reason ← index lines 1;
      near_words ← index lines 2;
      category ← index lines 3;
      confidence ← index lines 4;
      is_boundary ← index lines 5;
      mret (list_to_map
              [("word", word); ("reason", reason);
               ("near_words", near_words); ("category", category);
               ("confidence", confidence); ("is_boundary", is_boundary);
               ("raw_response", block)] : entry).

(** The [except Exception as e] handler of that loop. *)
Definition except_block (batch : list str) (idx : nat) (block : str) (e : exn)
  : outcome entry :=
  word ← word_at batch idx;
  mret (list_to_map
          [("word", word);
           ("error", lit "解析错误: " ++ str_exn e);
           ("raw_response", block)] : entry).

(** One turn of [for idx, block in enumerate(raw_blocks)]: the record
    appended to [entries]. *)
Definition parse_block (batch : list str) (idx : nat) (raw : str)
  : outcome entry :=
  let block := strip raw in
  try_except (try_block batch idx block) (except_block batch idx block).

(** The loop over the blocks, from position [idx] on. *)
Fixpoint parse_blocks (batch : list str) (idx : nat) (raw_blocks : list str)
    (entries : list entry) : outcome (list entry) :=
  match raw_blocks with
  | [] => mret entries
  | raw :: rest =>
      e ← parse_block batch idx raw;
      parse_blocks batch (S idx) rest (entries ++ [e])
  end.

(** [{entry["word"] for entry in entries}] *)
Fixpoint processed_words_of (entries : list entry) : outcome (gset str) :=
  match entries with
  | [] => mret ∅
  | e :: rest =>
      w ← item e "word";
      ws ← processed_words_of rest;
      mret ({[ w ]} ∪ ws)
  end.

(** The record of a word the reply does not cover. *)
Definition missing_entry (response_text : str) (word : str) : entry :=
  list_to_map
    [("word", word);
     ("error", lit "未在响应中找到对应结果");
     ("raw_response", prefix_slice 200 response_text ++ lit "...")].

(** [for word in batch: if word not in processed_words: entries.append(...)] *)
Fixpoint append_missing (response_text : str) (processed_words : gset str)
    (batch : list str) (entries : list entry) : list entry :=
  match batch with
  | [] => entries
  | word :: rest =>
      append_missing response_text processed_words rest
        (if decide (word ∈ processed_words) then entries
         else entries ++ [missing_entry response_text word])
  end.

Definition parse_response (response_text : str) (batch : list str)
  : outcome (list entry) :=
  let raw_blocks := split [LF; LF] (strip response_text) in
  entries ← parse_blocks batch 0 raw_blocks [];
  processed_words ← processed_words_of entries;
  mret (append_missing response_text processed_words batch entries).

(** ** The prompt *)

(** The instruction block of [build_prompt]. *)
Definition prompt_template : str := Eval vm_compute in lit
"你是一位中文语言演化与心理语言学专家，负责评估给定词语是否为2008年后出现的新词。特别注意避免认知偏差，通过该词在2008年前的含义客观对比变化，优先基于语义和语用功能的实质性证据（如语料库或演化研究），而非高频印象。在判断时，积极考虑反例（如历史用例或未被接受的新义），挑战初步假设，确保结论基于客观证据而非预设偏好。严格按顺序完成以下步骤，禁止跳步：

步骤1：语义变化判断
   - 反事实思考：对比2008年前后的核心含义，是否有新的核心含义或语用功能（必须是含义的本质变化，而非仅场景/载体变化的领域延伸，如“刷”从“刷牙”到“刷手机”是场景变化，但核心“快速操作”不变；而“躺平”新增“消极抵抗”含义属本质变化）。
   - 如是，进入“A 旧词新义”候选；如否，进入下一步。

步骤2：形式判断
   - 判断该词形式是否为新造（包括构词创新、中英文缩略、谐音、拼音、舶来等），即组合方式不符合传统构词法，或者含义无法从字面推导。
   - 如是，进入“B 新词新义”候选；如否，进入下一步。

步骤3：排除法
   - 若满足以下任一条件，考虑判为“C 非新词”：
     1) 形式与含义均沿用传统（如“书”无论纸质或电子，核心“阅读载体”不变）。
     2) 核心含义未变，仅场景迁移/载体变化/搭配拓展（如“窗口”从物体到电子的聊天窗口，核心含义不变）。
     3) 新出现的专有名词，且未衍生出普通词汇用法（品牌、人名、地名、作品名等，如“微信”虽新但属品牌名）。
     4) 由政府/广告推出但未被民间广泛使用，未发生语义/形式创新（如官方术语“寡头”语义不变）。
     5) 无可靠证据支持语义或形式新变（基于步骤1-2分析）。

步骤4：边界判断
   - 如果分析后仍不确定（如证据冲突、使用范围有限），或该词位于新旧交界（如旧词新义但变化轻微），标记为边界词。

输出格式（严格保持顺序和行数，不添加多余解释）：
原始词语

分类简要理由（先陈述反事实思考的语义对比和形式分析，再说明排除或归类原因）

两个语义邻近词（用逗号分隔）

分类结果（A / B / C）

对“是否为A或B类新词”的判断置信度（1-10，基于证据强度：10=高证据，如多个语料来源；1=低证据，如依赖推测）

是否为边界词（是 / 否）

输出示例
摸鱼
原表示“捕鱼”，当前新增“工作中偷懒”的含义，属语义本质变化，形式为旧。
偷懒,划水
A
9
否

- 每组词之间用换行分隔。
- 不要添加任何说明文字或编号。保持输出结构统一。
".

(** [for i, word in enumerate(word_batch, 1): prompt += f"\n词语 {i}：{word}"] *)
Fixpoint number_words (i : nat) (word_batch : list str) (prompt : str) : str :=
  match word_batch with
  | [] => prompt
  | word :: rest =>
      number_words (S i) rest
        (prompt ++ [LF] ++ lit "词语 " ++ of_nat i ++ lit "：" ++ word)
  end.

Definition build_prompt (word_batch : list str) : str :=
  number_words 1 word_batch prompt_template.

(** ** Stores *)

(** [progress.json] *)
Record progress : Type := Progress {
  last_index : Z;
  processed : Z;
  batches : list Z
}.

(** A cell of a table read back by pandas: missing ([NaN]) or a value. *)
Inductive cell : Type :=
| NaN
| Val (v : str).

(** A row of [df.to_dict("records")]. *)
Abbreviation record := (gmap string cell).

(** [pd.isna] *)
Definition isna (c : cell) : bool :=
  match c with
  | NaN => true
  | Val _ => false
  end.

(** The texts [pd.read_csv] reads as a missing value. *)
Definition na_values : list str :=
  lit <$> [""; "#N/A"; "#N/A N/A"; "#NA"; "-1.#IND"; "-1.#QNAN"; "-NaN";
           "-nan"; "1.#IND"; "1.#QNAN"; "<NA>"; "N/A"; "NA"; "NULL"; "NaN";
           "None"; "n/a"; "nan"; "null"].

(** [pd.DataFrame(rows)]: the columns are the keys of all the rows; a row
    without a key has [NaN] there. *)
Definition DataFrame (rows : list record) : list record :=
  let columns : gset string := ⋃ (dom <$> rows) in
  (fun r : record => r ∪ gset_to_gmap NaN columns) <$> rows.

(** What [pd.read_csv] makes of a cell [df.to_csv] wrote: a text that is one
    of [na_values] is read as missing. Values are kept as texts (the column
    types pandas infers are not modelled). *)
Definition csv_cell (c : cell) : cell :=
  match c with
  | Val v => if bool_decide (v ∈ na_values) then NaN else Val v
  | NaN => NaN
  end.

(** The rows of a table read back cell by cell. *)
Definition read_rows (df : list record) : list record :=
  (fun r : record => csv_cell <$> r) <$> df.

(** A CSV file of [results/], held as what [pd.read_csv] does with it: the
    table it returns, or the exception it raises. *)
Abbreviation csv_file := (outcome (list record)).

(** The columns the program writes. *)
Definition known_fields : gset string :=
  list_to_set ["word"; "reason"; "near_words"; "category"; "confidence";
               "is_boundary"; "raw_response"; "error"].

(** A text without the characters that [df.to_csv] writes unquoted and
    [pd.read_csv] does not read back as part of a cell: the carriage return,
    which ends a line for the reader, and the null character. *)
Definition plain_text (s : str) : bool :=
  forallb (fun c : N => negb ((c =? 0) || (c =? 13))%N) s.

Definition plain_cell (c : cell) : bool :=
  match c with
  | NaN => true
  | Val v => plain_text v
  end.

(** The row of a table that comes back from the file row for row: its
    columns are among those the program writes, at least two of them (a
    lone missing cell would make a line of quotes only), and its texts are
    plain. What pandas makes of the other tables is not modelled: it is left
    to [read_odd] below. *)
Definition plain_row (r : record) : Prop :=
  dom r ⊆ known_fields /\ (2 <= size (dom r))%nat
  /\ map_Forall (fun _ c => plain_cell c = true) r.

#[global] Instance plain_row_dec (r : record) : Decision (plain_row r).
Proof. unfold plain_row. apply _. Defined.

Definition plain (df : list record) : Prop := Forall plain_row df.

#[global] Instance plain_dec (df : list record) : Decision (plain df).
Proof. unfold plain. apply _. Defined.

(** A text the [utf-8-sig] codec can encode: it holds no lone surrogate. *)
Definition is_surrogate (c : N) : bool := ((55296 <=? c) && (c <=? 57343))%N.

Definition encodable (s : str) : bool :=
  forallb (fun c : N => negb (is_surrogate c)) s.

Definition encodable_entries (entries : list entry) : Prop :=
  Forall (map_Forall (fun (_ : string) (v : str) => encodable v = true)) entries.

#[global] Instance encodable_entries_dec (entries : list entry)
  : Decision (encodable_entries entries).
Proof. unfold encodable_entries. apply _. Defined.

(** What the model leaves to pandas and to the codec. *)
Record pandas : Type := Pandas {
  (* what [pd.read_csv] does with the file a [to_csv] that completed wrote
     for a table that has rows and is not [plain] *)
  read_odd : list record -> csv_file;
  (* what it does with the file left by a [to_csv] that failed to encode *)
  read_partial : list record -> csv_file;
  (* [str] of the [UnicodeEncodeError] of that [to_csv] *)
  encode_error : list record -> str
}.

(** The file [df.to_csv(filename, index=False, encoding="utf-8-sig")] writes
    when it completes. A table without rows has no columns either: the file
    holds an empty header line, and [pd.read_csv] raises [EmptyDataError]. *)
Definition to_csv (env : pandas) (df : list record) : csv_file :=
  match df with
  | [] => Raise (EmptyDataError (lit "No columns to parse from file"))
  | _ :: _ =>
      if bool_decide (plain df) then Return (read_rows df) else read_odd env df
  end.

(** The files the program reads and writes, and what it did to the outside:
    [results_dir] and [errors_dir] map the name of a file in [results/] and
    [errors/] to its content. *)
Record world : Type := World {
  progress_file : option progress;   (* [None]: absent or not JSON *)
  results_dir : gmap str csv_file;
  errors_dir : gmap str (list entry);
  final_results : option (list record);
  api_calls : list (Z * str);        (* batch number and prompt of each call *)
  pacing_sleeps : nat                (* [time.sleep(1)] *)
}.

Definition fresh_progress : progress := Progress 0 0 [].

Definition load_progress (w : world) : progress :=
  match progress_file w with
  | Some p => p
  | None => fresh_progress
  end.

Definition save_progress (p : progress) (w : world) : world :=
  World (Some p) (results_dir w) (errors_dir w) (final_results w)
        (api_calls w) (pacing_sleeps w).

(** [f"batch_{batch_num}.csv"], the name inside [results/] *)
Definition results_name (batch_num : Z) : str :=
  lit "batch_" ++ of_Z batch_num ++ lit ".csv".

(** [f"batch_{batch_num}_errors.json"], the name inside [errors/] *)
Definition errors_name (batch_num : Z) : str :=
  lit "batch_" ++ of_Z batch_num ++ lit "_errors.json".

(** [w] with the file [name] of [results/] created or replaced. *)
Definition with_result_file (name : str) (file : csv_file) (w : world)
  : world :=
  World (progress_file w) (<[name := file]> (results_dir w)) (errors_dir w)
        (final_results w) (api_calls w) (pacing_sleeps w).

(** [save_results]: the file is opened for writing, which creates or empties
    it, and the table is written row by row through the [utf-8-sig] codec,
    which raises [UnicodeEncodeError] at a lone surrogate and leaves what was
    written before it. *)
Definition save_results (env : pandas) (entries : list entry) (batch_num : Z)
    (w : world) : outcome str * world :=
  let filename := lit "results/" ++ results_name batch_num in
  let df := DataFrame ((fun e : entry => Val <$> e) <$> entries) in
  if bool_decide (encodable_entries entries)
  then (Return filename,
        with_result_file (results_name batch_num) (to_csv env df) w)
  else (Raise (UnicodeEncodeError (encode_error env df)),
        with_result_file (results_name batch_num) (read_partial env df) w).

(** [save_errors]: the texts [json.dump] writes here are records
    [save_results] has just encoded, or words of the word list, which pandas
    decoded from a file, with the text of an exception; the write is taken
    to complete. *)
Definition save_errors (entries : list entry) (batch_num : Z) (w : world)
  : world :=
  World (progress_file w) (results_dir w)
        (<[errors_name batch_num := entries]> (errors_dir w))
        (final_results w) (api_calls w) (pacing_sleeps w).

Definition log_call (batch_num : Z) (prompt : str) (w : world) : world :=
  World (progress_file w) (results_dir w) (errors_dir w) (final_results w)
        (api_calls w ++ [(batch_num, prompt)]) (pacing_sleeps w).

Definition sleep_1 (w : world) : world :=
  World (progress_file w) (results_dir w) (errors_dir w) (final_results w)
        (api_calls w) (S (pacing_sleeps w)).

(** ** The aggregator *)

Record agg_result : Type := AggResult {
  filename : str;
  total_words : Z;
  success_words : Z;
  error_words : Z
}.

(** ["error" not in e or pd.isna(e.get("error"))] *)
Definition counts_as_success (e : record) : bool :=
  match e !! "error" with
  | None => true
  | Some c => isna c
  end.

(** The [.csv] files of [results/], in the order of [os.listdir]. *)
Definition csv_files (w : world) : list csv_file :=
  snd <$> filter (fun f => endswith (lit ".csv") f.1 = true)
                 (map_to_list (results_dir w)).

(** [pd.read_csv] file after file: the tables, or the exception of the first
    file that cannot be read. *)
Fixpoint read_all (files : list csv_file) : outcome (list (list record)) :=
  match files with
  | [] => Return []
  | file :: rest =>
      table ← file; tables ← read_all rest; mret (table :: tables)
  end.

Definition csv_tables (w : world) : outcome (list (list record)) :=
  read_all (csv_files w).

(** The counts of [aggregate_results] over the rows read. *)
Definition count_entries (all_entries : list record) : agg_result :=
  let total := Z.of_nat (length all_entries) in
  let success :=
    Z.of_nat (length (filter (fun e => counts_as_success e = true) all_entries)) in
  AggResult (lit "final_results.csv") total success (total - success).

(** [final_results] holds the table written to [final_results.csv], which
    the program never reads. An exception of [pd.read_csv] leaves the loop
    before anything is written. *)
Definition aggregate_results (w : world) : outcome agg_result * world :=
  match csv_tables w with
  | Raise e => (Raise e, w)
  | Return tables =>
      let all_entries := mjoin tables in
      let w' :=
        World (progress_file w) (results_dir w) (errors_dir w)
              (Some (DataFrame all_entries))
              (api_calls w) (pacing_sleeps w) in
      (Return (count_entries all_entries), w')
  end.

(** ** The batch runner *)

(** [l[lo:hi]] *)
Definition slice_bound (len i : Z) : Z :=
  if i <? 0 then Z.max 0 (i + len) else Z.min i len.

Definition slice {A} (l : list A) (lo hi : Z) : list A :=
  let len := Z.of_nat (length l) in
  let a := slice_bound len lo in
  let b := slice_bound len hi in
  take (Z.to_nat (b - a)) (drop (Z.to_nat a) l).

(** [range(start, stop, step)], as the list of its values. *)
Definition range (start stop step : Z) : outcome (list Z) :=
  if step =? 0 then Raise (ValueError (lit "range() arg 3 must not be zero"))
  else
    let n := if 0 <? step then (stop - start + step - 1) / step
             else (start - stop - step - 1) / (- step) in
    mret ((fun k : nat => start + Z.of_nat k * step) <$> seq 0 (Z.to_nat n)).

(** ["error" in e] *)
Definition has_error (e : entry) : bool := bool_decide (is_Some (e !! "error")).

Section Runner.

(** The configuration read from the environment. *)
Variable BATCH_SIZE : Z.
Variable MAX_RETRIES : Z.

(** What is left to pandas and to the codec. *)
Variable env : pandas.

(** The model provider: what the [n]-th call of
    [client.chat.completions.create] (counted from 0 over the whole run)
    answers to a prompt: the [content] of the first choice, which is a
    reply text or [None], or an exception. *)
Variable api : nat -> str -> outcome (option str).

(** [str] of the [Future] of the last attempt that tenacity's [RetryError]
    holds, by the number of calls made so far. *)
Variable future_repr : nat -> str.

(** One attempt of [process_batch]: the body under the [@retry] decorator. *)
Definition attempt (batch : list str) (batch_num : Z) (w : world)
  : outcome (option str) * world :=
  let prompt := build_prompt batch in
  let w' := log_call batch_num prompt w in
  match api (length (api_calls w)) prompt with
  | Return content => (Return content, w')
  | Raise e =>
      (Raise (Exception (lit "DeepSeek API调用失败: " ++ str_exn e)), w')
  end.

(** The [@retry] policy: after a failed attempt, try again while [more]
    attempts are left, else raise [RetryError]. *)
Fixpoint retry (more : nat) (batch : list str) (batch_num : Z) (w : world)
  : outcome (option str) * world :=
  match attempt batch batch_num w with
  | (Return content, w') => (Return content, w')
  | (Raise e, w') =>
      match more with
      | O => (Raise (RetryError (future_repr (length (api_calls w')))), w')
      | S k => retry k batch batch_num w'
      end
  end.

(** [stop_after_attempt(MAX_RETRIES)] stops once the attempt number reaches
    [MAX_RETRIES]; the first attempt is always made. *)
Definition process_batch (batch : list str) (batch_num : Z) (w : world)
  : outcome (option str) * world :=
  retry (Z.to_nat (MAX_RETRIES - 1)) batch batch_num w.

(** [parse_response(response_text, batch)] on what [process_batch]
    returned: [None.strip()] raises. *)
Definition parse_reply (content : option str) (batch : list str)
  : outcome (list entry) :=
  match content with
  | Some response_text => parse_response response_text batch
  | None =>
      Raise (AttributeError (lit "'NoneType' object has no attribute 'strip'"))
  end.

(** The rest of the [try] branch of a batch once the entries are parsed: it
    ends with the new progress, or with the exception of [save_results],
    raised before the progress is touched. *)
Definition batch_succeeded (i batch_num : Z) (batch : list str)
    (entries : list entry) (p : progress) (w : world)
  : outcome progress * world :=
  let success_count :=
    length (filter (fun e => has_error e = false) entries) in
  let error_count := (length entries - success_count)%nat in
  match save_results env entries batch_num w with
  | (Raise e, w1) => (Raise e, w1)
  | (Return result_file, w1) =>
      let w2 :=
        if (0 <? error_count)%nat
        then save_errors (filter (fun e => has_error e = true) entries)
                         batch_num w1
        else w1 in
      let p' :=
        Progress (i + BATCH_SIZE)
                 (processed p + Z.of_nat (length batch))
                 (batches p ++ [batch_num]) in
      (Return p', save_progress p' w2)
  end.

(** The [except Exception as e] branch of a batch. *)
Definition batch_failed (i batch_num : Z) (batch : list str) (e : exn)
    (p : progress) (w : world) : progress * world :=
  let error_entries :=
    (fun w0 : str =>
       (list_to_map [("word", w0); ("error", str_exn e)] : entry)) <$> batch in
  let w1 := save_errors error_entries batch_num w in
  let p' := Progress (i + BATCH_SIZE) (processed p) (batches p ++ [batch_num]) in
  (p', save_progress p' w1).

(** One turn of the loop of [main] at offset [i]. *)
Definition batch_turn (words : list str) (processed_batches : gset Z)
    (st : progress * world) (i : Z) : progress * world :=
  let '(p, w) := st in
  let batch_num := i / BATCH_SIZE + 1 in
  if decide (batch_num ∈ processed_batches) then st
  else
    let batch := slice words i (i + BATCH_SIZE) in
    let '(reply, w1) := process_batch batch batch_num w in
    let '(tried, w2) :=
      match reply ≫= (fun content => parse_reply content batch) with
      | Return entries => batch_succeeded i batch_num batch entries p w1
      | Raise e => (Raise e, w1)
      end in
    let '(p3, w3) :=
      match tried with
      | Return p' => (p', w2)
      | Raise e => batch_failed i batch_num batch e p w2
      end in
    (p3, sleep_1 w3).

(** [main], given the word list [load_wordlist] returned: the final world
    and whether the run ended normally. An exception of [aggregate_results]
    is not caught. *)
Definition main (words : list str) (w : world) : outcome unit * world :=
  let total := Z.of_nat (length words) in
  let progress0 := load_progress w in
  let start_index := last_index progress0 in
  let processed_batches : gset Z := list_to_set (batches progress0) in
  match range start_index total BATCH_SIZE with
  | Raise e => (Raise e, w)
  | Return offsets =>
      let '(p, w1) :=
        foldl (batch_turn words processed_batches) (progress0, w) offsets in
      if total <=? last_index p
      then ((fun _ : agg_result => ()) <$> (aggregate_results w1).1,
            (aggregate_results w1).2)
      else (Return (), w1)
  end.

End Runner.

(** ** The word list *)

(** What [pd.read_csv] finds at a path: no file, a file it cannot read (with
    the exception it raises), or a table, column by column; [V] is the type
    of the values pandas has made of the cells. *)
Inductive csv_read (V : Type) : Type :=
| NoFile
| Unreadable (e : exn)
| Frame (columns : gmap string (list V)).

Arguments NoFile {V}.
Arguments Unreadable {V} e.
Arguments Frame {V} columns.

(** How [load_wordlist] ends: the words, its own [FileNotFoundError], or an
    exception it lets through. *)
Inductive wordlist_result (V : Type) : Type :=
| Loaded (words : list V)
| FileNotFoundError (msg : str)
| Propagated (e : exn).

Arguments Loaded {V} words.
Arguments FileNotFoundError {V} msg.
Arguments Propagated {V} e.

Definition possible_paths : list str :=
  [lit "src/wordlist/sample_new_words.csv";
   lit "wordlist/sample_new_words.csv";
   lit "sample_new_words.csv"].

(** [for path in possible_paths: try: ... except FileNotFoundError: continue],
    then the [raise] after the loop. *)
Fixpoint try_paths {V} (read_csv : str -> csv_read V) (paths : list str)
  : wordlist_result V :=
  match paths with
  | [] =>
      FileNotFoundError
        (lit "未找到词表文件。请确保文件位于 src/wordlist/ 或项目根目录")
  | path :: rest =>
      match read_csv path with
      | NoFile => try_paths read_csv rest
      | Unreadable e => Propagated e
      | Frame df =>
          match df !! "word" with
          | Some column => Loaded column
          | None => Propagated (KeyError "word")
          end
      end
  end.

Definition load_wordlist {V} (read_csv : str -> csv_read V)
  : wordlist_result V :=
  try_paths read_csv possible_paths.

(** * Vocabulary of the properties *)

(** ** Patterns and lines *)

(** The texts a pattern matches in full. *)
Inductive lang : re -> str -> Prop :=
| lang_eps : lang Eps []
| lang_char r c : accepts r c = true -> lang r [c]
| lang_cat r1 r2 s1 s2 :
    lang r1 s1 -> lang r2 s2 -> lang (Cat r1 r2) (s1 ++ s2)
| lang_alt_l r1 r2 s : lang r1 s -> lang (Alt r1 r2) s
| lang_alt_r r1 r2 s : lang r2 s -> lang (Alt r1 r2) s
| lang_star_nil r : lang (Star r) []
| lang_star_app r s1 s2 :
    lang r s1 -> lang (Star r) s2 -> lang (Star r) (s1 ++ s2).

(** The patterns of one character. *)
Definition single (r : re) : bool :=
  match r with
  | Dot | Chr _ | Range _ _ | Digit => true
  | _ => false
  end.

(** No line feed occurs in [l]. *)
Definition nolf (l : str) : Prop := Forall (fun c => c <> LF) l.

(** ['\n'.join(ls)] *)
Fixpoint join_lines (ls : list str) : str :=
  match ls with
  | [] => []
  | [l] => l
  | l :: ls' => l ++ LF :: join_lines ls'
  end.

Definition nonempty (l : str) : bool :=
  match l with
  | [] => false
  | _ => true
  end.

(** The line is one of [A], [B], [C]. *)
Definition is_category (l : str) : bool :=
  match l with
  | [c] => ((65 <=? c) && (c <=? 67))%N
  | _ => false
  end.

(** The line is a non-empty run of decimal digits. *)
Definition is_digits (l : str) : bool := nonempty l && forallb isdecimal l.

(** The line begins with [是] or [否]. *)
Definition has_boundary_mark (l : str) : bool :=
  match l with
  | c :: _ => ((c =? 26159) || (c =? 21542))%N
  | [] => false
  end.

(** The lines of a block [valid_pattern] matches. *)
Definition shape_ok (lines : list str) : bool :=
  match lines with
  | l0 :: l1 :: l2 :: l3 :: l4 :: l5 :: _ =>
      nonempty l0 && nonempty l1 && nonempty l2 && is_category l3
      && is_digits l4 && has_boundary_mark l5
  | _ => false
  end.

(** Right-nest the appends of a text. *)
Ltac norm_app :=
  repeat progress (rewrite <- ?app_assoc, <- ?app_comm_cons, ?app_nil_l).

(** ** Records *)

(** The word a record at position [idx] carries. *)
Definition word_of (batch : list str) (idx : nat) : str :=
  default (lit "UNKNOWN_" ++ of_nat idx) (batch !! idx).

(** A success record. *)
Definition classification_record
    (word reason near_words category confidence is_boundary raw : str) : entry :=
  list_to_map
    [("word", word); ("reason", reason); ("near_words", near_words);
     ("category", category); ("confidence", confidence);
     ("is_boundary", is_boundary); ("raw_response", raw)].

(** An error record. *)
Definition error_record (word error raw : str) : entry :=
  list_to_map [("word", word); ("error", error); ("raw_response", raw)].

(** The text of the format error of a block. *)
Definition format_error : str := lit "解析错误: 响应格式不符合预期".

(** The record of the block at position [idx], as a total function. *)
Definition entry_of_block (batch : list str) (idx : nat) (raw : str) : entry :=
  let block := strip raw in
  if match_ valid_pattern block
  then
    let lines := split [LF] block in
    classification_record (word_of batch idx)
      (default [] (lines !! 1%nat)) (default [] (lines !! 2%nat))
      (default [] (lines !! 3%nat)) (default [] (lines !! 4%nat))
      (default [] (lines !! 5%nat)) block
  else error_record (word_of batch idx) format_error block.

(** The words the first [n] positions cover. *)
Definition covered_words (batch : list str) (n : nat) : gset str :=
  list_to_set (word_of batch <$> seq 0 n).

(** The text of the error of a word the reply does not cover. *)
Abbreviation missing_error := (lit "未在响应中找到对应结果").

(** A record has the fields of a success or those of an error. *)
Definition well_shaped (e : entry) : Prop :=
  is_Some (e !! "word")
  /\ ((is_Some (e !! "reason") /\ is_Some (e !! "near_words")
       /\ is_Some (e !! "category") /\ is_Some (e !! "confidence")
       /\ is_Some (e !! "is_boundary"))
      \/ is_Some (e !! "error")).

(** ** Sample replies *)

(** A reply block of six lines. *)
Definition block_of (word reason near category confidence boundary : string)
  : str :=
  lit word ++ [LF] ++ lit reason ++ [LF] ++ lit near ++ [LF]
  ++ lit category ++ [LF] ++ lit confidence ++ [LF] ++ lit boundary.

Definition sample_block : str := block_of "摸鱼" "旧词新义" "偷懒,划水" "B" "7" "否".

(** The [word] and [error] fields of a list of records. *)
Definition words_of (entries : list entry) : list (option str) :=
  (fun e : entry => e !! "word") <$> entries.

Definition errors_of (entries : list entry) : list (option str) :=
  (fun e : entry => e !! "error") <$> entries.

Definition raw_responses_of (entries : list entry) : list (option str) :=
  (fun e : entry => e !! "raw_response") <$> entries.

(** What a computation returned, seen through [f]. *)
Definition returned {A B} (f : A -> B) (m : outcome A) : option B :=
  match m with
  | Return a => Some (f a)
  | Raise _ => None
  end.

Definition sample_reply_2 : str := sample_block ++ [LF; LF] ++ lit "bad".

Definition sample_reply_3 : str := sample_reply_2 ++ [LF; LF] ++ lit "extra".

Definition sample_block_2 : str :=
  block_of "躺平" "新增消极抵抗义" "佛系,摆烂" "A" "9" "否".

Definition sample_reply_two_valid : str :=
  sample_block ++ [LF; LF] ++ sample_block_2.

(** The text holds no two line feeds in a row. *)
Definition no_blank (s : str) : Prop :=
  forall a b, s <> a ++ LF :: LF :: b.

(** The line is a decimal numeral of a positive integer. *)
Definition is_positive_integer (l : str) : bool :=
  is_digits l && existsb (fun c => negb (bool_decide (c ∈ decimal_zeros))) l.

(** The line is exactly [是] or [否]. *)
Definition is_boundary_mark (l : str) : bool :=
  bool_decide (l = [26159%N]) || bool_decide (l = [21542%N]).

(** The shape of a valid block in the words of the specification: at least
    six non-empty lines, the fourth exactly one of [A], [B], [C], the fifth a
    positive integer, the sixth exactly [是] or [否]. *)
Definition spec_shape (lines : list str) : bool :=
  match lines with
  | l0 :: l1 :: l2 :: l3 :: l4 :: l5 :: _ =>
      nonempty l0 && nonempty l1 && nonempty l2 && nonempty l3
      && nonempty l4 && nonempty l5
      && is_category l3 && is_positive_integer l4 && is_boundary_mark l5
  | _ => false
  end.

Definition block_zero_confidence : str :=
  block_of "摸鱼" "旧词新义" "偷懒,划水" "A" "0" "是".

Definition block_long_boundary : str :=
  block_of "摸鱼" "旧词新义" "偷懒,划水" "A" "9" "是的".

(** ** Runs *)

(** What a run may change outside the progress file: [w'] differs from [w]
    only in the artifacts of batch numbers in [S] and in calls made for
    them. *)
Definition touches_only (S : Z -> Prop) (w w' : world) : Prop :=
  (forall name, (forall n, S n -> name <> results_name n) ->
                results_dir w' !! name = results_dir w !! name)
  /\ (forall name, (forall n, S n -> name <> errors_name n) ->
                   errors_dir w' !! name = errors_dir w !! name)
  /\ final_results w' = final_results w
  /\ exists new, api_calls w' = api_calls w ++ new
                 /\ Forall (fun c : Z * str => S c.1) new.

(** The state of the loop after some turns of a run that started from the
    progress [p0] and the world [w0]: completed batch numbers were only
    appended, the progress file holds the current progress as soon as one
    batch was attempted, and only batches outside [processed_batches] were
    touched. *)
Definition run_inv (processed_batches : gset Z) (p0 : progress) (w0 : world)
    (st : progress * world) : Prop :=
  (exists more, batches st.1 = batches p0 ++ more
                /\ Forall (fun n => n ∉ processed_batches) more)
  /\ (progress_file st.2 = Some st.1
      \/ (st.1 = p0 /\ progress_file st.2 = progress_file w0))
  /\ touches_only (fun n => n ∉ processed_batches) w0 st.2.

(** A provider that answers every call with the same reply. *)
Definition api_fixed (reply : str) : nat -> str -> outcome (option str) :=
  fun _ _ => Return (Some reply).

(** A provider that is down: every call raises. *)
Definition api_down : nat -> str -> outcome (option str) :=
  fun _ _ => Raise (Exception (lit "Connection error.")).

(** A pandas for the sample runs: none of them writes a table that is not
    plain or a text that cannot be encoded. *)
Definition sample_pandas : pandas :=
  Pandas (fun _ => Raise (Exception (lit "not read")))
         (fun _ => Raise (Exception (lit "not read")))
         (fun _ => lit "surrogates not allowed").

Definition sample_future_repr : nat -> str :=
  fun _ => lit "<Future state=finished raised Exception>".

Definition six_words : list str :=
  [lit "摸鱼"; lit "躺平"; lit "内卷"; lit "打卡"; lit "种草"; lit "破防"].

(** A world with no artifact, no call made, and the given progress file. *)
Definition world_with (p : option progress) : world :=
  World p ∅ ∅ None [] 0.

(** The per-batch result artifacts a run writes, one after the other. *)
Fixpoint write_batches (env : pandas) (written : list (Z * list entry))
    (w : world) : world :=
  match written with
  | [] => w
  | (batch_num, entries) :: rest =>
      write_batches env rest (save_results env entries batch_num w).2
  end.

(** The rows [pd.read_csv] returns for a file, none if it raises. *)
Definition file_rows (file : csv_file) : list record :=
  match file with
  | Return table => table
  | Raise _ => []
  end.

(** The rows of the [.csv] files of a directory, file after file. *)
Definition csv_rows (dir : gmap str csv_file) : list record :=
  mjoin (file_rows <$>
           (snd <$> filter (fun f : str * csv_file =>
                              endswith (lit ".csv") f.1 = true)
                           (map_to_list dir))).

(** Every [.csv] file of the directory can be read. *)
Definition readable (dir : gmap str csv_file) : Prop :=
  forall name file,
    dir !! name = Some file -> endswith (lit ".csv") name = true ->
    exists table, file = Return table.

(** The records [save_results] writes as a table that comes back row for
    row: there is at least one, and their texts can be encoded and are
    plain. *)
Definition plain_entries (entries : list entry) : Prop :=
  entries <> [] /\ encodable_entries entries
  /\ plain (DataFrame ((fun e : entry => Val <$> e) <$> entries)).

(** ** More vocabulary *)

(** [s] occurs in [t] as a contiguous stretch. *)
Definition infix_of (s t : str) : Prop := exists a b, t = a ++ s ++ b.

(** The text neither begins nor ends with a whitespace character. *)
Definition trimmed (s : str) : Prop :=
  (forall c, head s = Some c -> isspace c = false)
  /\ (forall c, last s = Some c -> isspace c = false).

(** The world [w] after [calls] more calls were logged. *)
Definition with_calls (w : world) (calls : list (Z * str)) : world :=
  World (progress_file w) (results_dir w) (errors_dir w) (final_results w)
        (api_calls w ++ calls) (pacing_sleeps w).

(** A provider whose first [fails] calls raise and whose later calls answer
    [reply]. *)
Definition api_flaky (fails : nat) (reply : str)
  : nat -> str -> outcome (option str) :=
  fun n _ =>
    if (n <? fails)%nat then Raise (Exception (lit "Connection error."))
    else Return (Some reply).

(** The calls made for the offsets [todo], the batch at the [n]-th of them
    being tried [ks !! n] times. *)
Definition calls_for (BATCH_SIZE : Z) (words : list str)
    (todo : list Z) (ks : list nat) : list (Z * str) :=
  mjoin (zip_with
           (fun (i : Z) (k : nat) =>
              replicate k (i / BATCH_SIZE + 1,
                           build_prompt (slice words i (i + BATCH_SIZE))))
           todo ks).

(** The record carries an error text that [pd.read_csv] does not read back
    as a missing value. *)
Definition reported_error (e : entry) : bool :=
  match e !! "error" with
  | Some v => negb (bool_decide (v ∈ na_values))
  | None => false
  end.

(** What [load_wordlist] makes of the file found at a path. *)
Definition wordlist_of_file {V} (file : csv_read V) : wordlist_result V :=
  match file with
  | NoFile =>
      FileNotFoundError
        (lit "未找到词表文件。请确保文件位于 src/wordlist/ 或项目根目录")
  | Unreadable e => Propagated e
  | Frame df =>
      match df !! "word" with
      | Some column => Loaded column
      | None => Propagated (KeyError "word")
      end
  end.

(** The line of the prompt for the [i]-th word. *)
Definition prompt_line (i : nat) (word : str) : str :=
  [LF] ++ lit "词语 " ++ of_nat i ++ lit "：" ++ word.

(** Two result artifacts as a run writes them: an error record in the
    first, a success and an error record in the second. *)
Definition sample_written : list (Z * list entry) :=
  [(1, [error_record (lit "摸鱼") format_error (lit "bad")]);
   (2, [classification_record (lit "躺平") (lit "新增消极抵抗义")
          (lit "佛系,摆烂") (lit "A") (lit "9") (lit "否") sample_block_2;
        error_record (lit "内卷") format_error (lit "bad")])].

(** A character the codec can encode and a CSV cell gives back as
    written. *)
Definition clean_char (c : N) : bool :=
  negb (is_surrogate c) && negb ((c =? 0) || (c =? 13))%N.

(** A text of such characters only: no lone surrogate, no null character, no
    carriage return. *)
Definition clean (s : str) : Prop := Forall (fun c => clean_char c = true) s.

(** A record with at least two of the columns the program writes and with
    clean texts. *)
Definition good_entry (e : entry) : Prop :=
  dom e ⊆ known_fields /\ (2 <= size (dom e))%nat
  /\ map_Forall (fun (_ : string) (v : str) => clean v) e.

(** * Properties *)

(** ** The model on sample inputs *)

Example lit_decodes_utf8 : lit "是否" = [26159%N; 21542%N].
Proof. reflexivity. Qed.

Example split_samples :
  split (lit "--") (lit "a--b---c--") = [lit "a"; lit "b"; lit "-c"; []]
  /\ split [LF; LF] [] = [[]]
  /\ split [LF; LF] [LF; LF] = [[]; []]
  /\ split [LF; LF] [LF; LF; LF] = [[]; [LF]]
  /\ split [LF; LF] [97%N; LF; LF; LF; LF; 98%N] = [[97%N]; []; [98%N]].
Proof. repeat split; vm_compute; reflexivity. Qed.

Example strip_sample :
  strip ([32%N; LF; 12288%N] ++ lit "a b" ++ [9%N; LF]) = lit "a b".
Proof. vm_compute. reflexivity. Qed.

Example range_samples :
  range 4 9 2 = Return [4; 6; 8]
  /\ range 9 4 2 = Return []
  /\ range 9 4 (-2) = Return [9; 7; 5]
  /\ returned id (range 0 4 0) = None.
Proof. repeat split; vm_compute; reflexivity. Qed.

Example slice_samples :
  slice six_words 4 6 = [lit "种草"; lit "破防"]
  /\ slice six_words 4 9 = [lit "种草"; lit "破防"]
  /\ slice six_words (-2) 1 = []
  /\ slice six_words (-2) 5 = [lit "种草"].
Proof. repeat split; vm_compute; reflexivity. Qed.

(** A full run over six words in batches of two, every reply holding two
    valid blocks: three batches, six successes. *)
Example main_sample_run :
  progress_file
    (main 2 3 sample_pandas (api_fixed sample_reply_two_valid)
       sample_future_repr six_words (world_with None)).2
  = Some (Progress 6 6 [1; 2; 3])
  /\ (aggregate_results
        (main 2 3 sample_pandas (api_fixed sample_reply_two_valid)
           sample_future_repr six_words (world_with None)).2).1
     = Return (AggResult (lit "final_results.csv") 6 6 0).
Proof. split; vm_compute; reflexivity. Qed.

(** The same run when every reply holds one valid block only: the second
    word of each batch is reported missing. *)
Example main_sample_run_missing :
  (aggregate_results
     (main 2 3 sample_pandas (api_fixed sample_block) sample_future_repr
        six_words (world_with None)).2).1
  = Return (AggResult (lit "final_results.csv") 6 3 3).
Proof. vm_compute. reflexivity. Qed.

(** ** What a pattern matches *)

Lemma lang_void_inv s : lang Void s -> False.
Proof. inversion 1; subst; simpl in *; discriminate. Qed.

Lemma lang_eps_inv s : lang Eps s -> s = [].
Proof. inversion 1; subst; simpl in *; [reflexivity|discriminate]. Qed.

Lemma lang_cat_inv r1 r2 s :
  lang (Cat r1 r2) s -> exists s1 s2, s = s1 ++ s2 /\ lang r1 s1 /\ lang r2 s2.
Proof. inversion 1; subst; simpl in *; [discriminate|eauto]. Qed.

Lemma lang_alt_inv r1 r2 s : lang (Alt r1 r2) s -> lang r1 s \/ lang r2 s.
Proof. inversion 1; subst; simpl in *; try discriminate; auto. Qed.

Lemma lang_single_inv r s :
  single r = true -> lang r s -> exists c, s = [c] /\ accepts r c = true.
Proof.
  intros Hr H. inversion H; subst; simpl in *; try discriminate; eauto.
Qed.

Lemma lang_star_cons_inv r c s :
  lang (Star r) (c :: s) ->
  exists s1 s2, s = s1 ++ s2 /\ lang r (c :: s1) /\ lang (Star r) s2.
Proof.
  intros H. remember (Star r) as r' eqn:Er. remember (c :: s) as t eqn:Et.
  induction H as [|r0 c0 Ha| | | | |r0 s1 s2 H1 _ H2 IH2]; try discriminate.
  { subst r0. discriminate Ha. }
  injection Er as ->. destruct s1 as [|c1 s1]; simpl in Et.
  - apply IH2; auto.
  - injection Et as -> <-. eauto.
Qed.

Lemma nullable_spec r : nullable r = true <-> lang r [].
Proof.
  induction r; simpl.
  1,3-6: split; [discriminate|];
    intros H; inversion H; subst; simpl in *; discriminate.
  - split; [constructor|reflexivity].
  - rewrite andb_true_iff, IHr1, IHr2. split.
    + intros [H1 H2]. change (@nil N) with (@nil N ++ []). constructor; auto.
    + intros H. apply lang_cat_inv in H as (s1 & s2 & E & H1 & H2).
      symmetry in E. apply app_eq_nil in E as [-> ->]. auto.
  - rewrite orb_true_iff, IHr1, IHr2. split.
    + intros [H|H]; [apply lang_alt_l|apply lang_alt_r]; auto.
    + apply lang_alt_inv.
  - split; [constructor|reflexivity].
Qed.

Lemma deriv_single c r s :
  single r = true -> lang (deriv c r) s <-> lang r (c :: s).
Proof.
  intros Hr. assert (deriv c r = if accepts r c then Eps else Void) as ->
    by (destruct r; simpl in *; congruence).
  split; intros H.
  - destruct (accepts r c) eqn:Ea; [|destruct (lang_void_inv _ H)].
    apply lang_eps_inv in H as ->. constructor. exact Ea.
  - apply lang_single_inv in H as (c' & E & Ea); [|exact Hr].
    injection E as <- ->. rewrite Ea. constructor.
Qed.

Lemma deriv_spec c r s : lang (deriv c r) s <-> lang r (c :: s).
Proof.
  revert s. induction r; intros s;
    try (apply deriv_single; reflexivity); simpl.
  - split; intros H; [destruct (lang_void_inv _ H)|].
    inversion H; subst; simpl in *; discriminate.
  - split; intros H; [destruct (lang_void_inv _ H)|].
    apply lang_eps_inv in H. discriminate.
  - assert (lang (Cat (deriv c r1) r2) s <->
            exists s1 s2, s = s1 ++ s2 /\ lang r1 (c :: s1) /\ lang r2 s2) as Hc.
    { split.
      - intros H. apply lang_cat_inv in H as (s1 & s2 & -> & H1 & H2).
        exists s1, s2. rewrite <- IHr1. auto.
      - intros (s1 & s2 & -> & H1 & H2). constructor; [apply IHr1|]; auto. }
    assert (lang (Cat r1 r2) (c :: s) <->
            (exists s1 s2, s = s1 ++ s2 /\ lang r1 (c :: s1) /\ lang r2 s2)
            \/ (lang r1 [] /\ lang r2 (c :: s))) as Hd.
    { split.
      - intros H. apply lang_cat_inv in H as (s1 & s2 & E & H1 & H2).
        destruct s1 as [|c1 s1]; simpl in E.
        + subst. auto.
        + injection E as <- ->. left. eauto.
      - intros [(s1 & s2 & -> & H1 & H2)|[H1 H2]].
        + change (c :: s1 ++ s2) with ((c :: s1) ++ s2). constructor; auto.
        + change (c :: s) with ([] ++ c :: s). constructor; auto. }
    rewrite Hd, <- Hc, <- nullable_spec, <- IHr2.
    destruct (nullable r1).
    + split.
      * intros H. apply lang_alt_inv in H. tauto.
      * intros [H|[_ H]]; [apply lang_alt_l|apply lang_alt_r]; auto.
    + split; [auto|]. intros [H|[H _]]; [auto|discriminate].
  - split.
    + intros H. apply lang_alt_inv in H as [H|H];
        [apply lang_alt_l, IHr1|apply lang_alt_r, IHr2]; auto.
    + intros H. apply lang_alt_inv in H as [H|H];
        [apply lang_alt_l, IHr1|apply lang_alt_r, IHr2]; auto.
  - split; intros H.
    + apply lang_cat_inv in H as (s1 & s2 & -> & H1 & H2).
      change (c :: s1 ++ s2) with ((c :: s1) ++ s2).
      constructor; [apply IHr|]; assumption.
    + apply lang_star_cons_inv in H as (s1 & s2 & -> & H1 & H2).
      constructor; [apply IHr|]; assumption.
Qed.

(** [match_] finds a match exactly when a prefix of the text is in the
    language of the pattern. *)
Lemma match_spec r s :
  match_ r s = true <-> exists p q, s = p ++ q /\ lang r p.
Proof.
  revert r. induction s as [|c s IH]; intros r; simpl.
  - rewrite orb_false_r, nullable_spec. split.
    + intros H. exists [], []. auto.
    + intros (p & q & E & H). symmetry in E.
      apply app_eq_nil in E as [-> _]. exact H.
  - rewrite orb_true_iff, nullable_spec, IH. split.
    + intros [H|(p & q & -> & H)].
      * exists [], (c :: s). auto.
      * exists (c :: p), q. split; [reflexivity|]. apply deriv_spec, H.
    + intros (p & q & E & H). destruct p as [|c' p]; [left; exact H|].
      simpl in E. injection E as <- ->. right. exists p, q.
      split; [reflexivity|]. apply deriv_spec, H.
Qed.

(** ** Lines *)

Lemma split_lf_cons cur c s :
  split_go [LF] 0 cur (c :: s) =
  if (c =? LF)%N then reverse cur :: split_go [LF] 0 [] s
  else split_go [LF] 0 (c :: cur) s.
Proof.
  simpl. rewrite andb_true_r, N.eqb_sym. reflexivity.
Qed.

Lemma split_lf_line cur l :
  nolf l -> split_go [LF] 0 cur l = [reverse cur ++ l].
Proof.
  intros Hl. revert cur. induction Hl as [|c l Hc _ IH]; intros cur.
  - simpl. rewrite app_nil_r. reflexivity.
  - rewrite split_lf_cons. apply N.eqb_neq in Hc. rewrite Hc, IH.
    rewrite reverse_cons, <- app_assoc. reflexivity.
Qed.

Lemma split_lf_app cur l rest :
  nolf l ->
  split_go [LF] 0 cur (l ++ LF :: rest) =
  (reverse cur ++ l) :: split_go [LF] 0 [] rest.
Proof.
  intros Hl. revert cur. induction Hl as [|c l Hc _ IH]; intros cur.
  - simpl app at 1. rewrite split_lf_cons, N.eqb_refl, app_nil_r. reflexivity.
  - simpl app at 1. rewrite split_lf_cons. apply N.eqb_neq in Hc.
    rewrite Hc, IH, reverse_cons, <- app_assoc. reflexivity.
Qed.

Lemma split_lf_first cur s :
  exists t rest, split_go [LF] 0 cur s = (reverse cur ++ t) :: rest.
Proof.
  revert cur. induction s as [|c s IH]; intros cur.
  - exists [], []. simpl. rewrite app_nil_r. reflexivity.
  - rewrite split_lf_cons. destruct (c =? LF)%N.
    + exists [], (split_go [LF] 0 [] s). rewrite app_nil_r. reflexivity.
    + destruct (IH (c :: cur)) as (t & rest & ->). exists (c :: t), rest.
      rewrite reverse_cons, <- app_assoc. reflexivity.
Qed.

Lemma split_lf_nolf cur s :
  nolf cur -> Forall nolf (split_go [LF] 0 cur s).
Proof.
  revert cur. induction s as [|c s IH]; intros cur Hcur.
  - simpl. repeat constructor. apply Forall_reverse, Hcur.
  - rewrite split_lf_cons. destruct (c =? LF)%N eqn:Ec.
    + constructor; [apply Forall_reverse, Hcur|]. apply IH. constructor.
    + apply IH. constructor; [|exact Hcur]. apply N.eqb_neq, Ec.
Qed.

Lemma split_lf_join cur s :
  join_lines (split_go [LF] 0 cur s) = reverse cur ++ s.
Proof.
  revert cur. induction s as [|c s IH]; intros cur.
  - simpl. rewrite app_nil_r. reflexivity.
  - rewrite split_lf_cons. destruct (c =? LF)%N eqn:Ec.
    + apply N.eqb_eq in Ec as ->. specialize (IH []).
      destruct (split_lf_first [] s) as (t & rest & E).
      rewrite E in *. simpl in *. rewrite IH. reflexivity.
    + rewrite IH, reverse_cons, <- app_assoc. reflexivity.
Qed.

(** [split('\n')] yields the lines of a text: they hold no line feed and,
    joined again, give the text back. *)
Lemma split_lines s :
  Forall nolf (split [LF] s) /\ join_lines (split [LF] s) = s.
Proof.
  split; [apply split_lf_nolf; constructor|apply (split_lf_join [])].
Qed.

(** ** The shape [valid_pattern] accepts, line by line *)

Lemma lang_chr c s : lang (Chr c) s <-> s = [c].
Proof.
  split.
  - intros H. apply lang_single_inv in H as (c' & -> & Hc); [|reflexivity].
    simpl in Hc. apply N.eqb_eq in Hc as ->. reflexivity.
  - intros ->. constructor. simpl. apply N.eqb_refl.
Qed.

Lemma lang_star_single r s :
  single r = true ->
  lang (Star r) s <-> Forall (fun c => accepts r c = true) s.
Proof.
  intros Hr. split.
  - intros H. remember (Star r) as r' eqn:Er.
    induction H as [|r0 c0 Ha| | | | |r0 s1 s2 H1 _ H2 IH2]; try discriminate.
    + subst r0. discriminate Ha.
    + constructor.
    + injection Er as ->.
      apply lang_single_inv in H1 as (c & -> & Hc); [|exact Hr].
      constructor; auto.
  - induction 1 as [|c s Hc _ IH]; [constructor|].
    change (c :: s) with ([c] ++ s). constructor; [constructor|]; assumption.
Qed.

Lemma lang_plus_single r s :
  single r = true ->
  lang (Plus r) s <-> s <> [] /\ Forall (fun c => accepts r c = true) s.
Proof.
  intros Hr. unfold Plus. split.
  - intros H. apply lang_cat_inv in H as (s1 & s2 & -> & H1 & H2).
    apply lang_single_inv in H1 as (c & -> & Hc); [|exact Hr].
    apply lang_star_single in H2; [|exact Hr]. split; [discriminate|].
    constructor; assumption.
  - intros [Hne H]. destruct H as [|c s Hc H]; [congruence|].
    change (c :: s) with ([c] ++ s).
    constructor; [constructor; assumption|]. apply lang_star_single; assumption.
Qed.

Lemma accepts_dot_nolf s : Forall (fun c => accepts Dot c = true) s <-> nolf s.
Proof.
  unfold nolf. apply Forall_proper; [|reflexivity]. intros c. simpl.
  rewrite negb_true_iff, N.eqb_neq. reflexivity.
Qed.

Lemma isdecimal_nolf s : Forall (fun c => isdecimal c = true) s -> nolf s.
Proof.
  intros H. eapply Forall_impl; [exact H|].
  intros c Hc ->. vm_compute in Hc. discriminate.
Qed.

(** The texts [valid_pattern] matches in full. *)
Lemma lang_valid_pattern p :
  lang valid_pattern p <->
  exists l0 l1 l2 c d b,
    p = l0 ++ LF :: l1 ++ LF :: l2 ++ LF :: c :: LF :: d ++ LF :: [b]
    /\ (l0 <> [] /\ nolf l0) /\ (l1 <> [] /\ nolf l1) /\ (l2 <> [] /\ nolf l2)
    /\ is_category [c] = true
    /\ (d <> [] /\ Forall (fun x => isdecimal x = true) d)
    /\ has_boundary_mark [b] = true.
Proof.
  unfold valid_pattern, cat_list. simpl foldr. split.
  - intros H.
    apply lang_cat_inv in H as (l0 & ? & -> & Hl0 & H).
    apply lang_cat_inv in H as (? & ? & -> & ? & H).
    apply lang_cat_inv in H as (l1 & ? & -> & Hl1 & H).
    apply lang_cat_inv in H as (? & ? & -> & ? & H).
    apply lang_cat_inv in H as (l2 & ? & -> & Hl2 & H).
    apply lang_cat_inv in H as (? & ? & -> & ? & H).
    apply lang_cat_inv in H as (? & ? & -> & Hc & H).
    apply lang_cat_inv in H as (? & ? & -> & ? & H).
    apply lang_cat_inv in H as (d & ? & -> & Hd & H).
    apply lang_cat_inv in H as (? & ? & -> & ? & H).
    apply lang_cat_inv in H as (? & ? & -> & Hb & H).
    apply lang_single_inv in Hc as (c & -> & Hc); [|reflexivity].
    repeat match goal with
    | H : lang (Chr _) _ |- _ => apply lang_chr in H as ->
    | H : lang (Plus Dot) _ |- _ =>
        apply lang_plus_single in H; [rewrite accepts_dot_nolf in H|reflexivity]
    | H : lang (Plus Digit) _ |- _ =>
        apply lang_plus_single in H; [|reflexivity]
    | H : lang Eps _ |- _ => apply lang_eps_inv in H as ->
    end.
    match type of Hb with
    | lang _ ?s =>
        assert (exists b, s = [b] /\ has_boundary_mark [b] = true)
          as (b & -> & Hb')
          by (apply lang_alt_inv in Hb as [Hb|Hb]; apply lang_chr in Hb as ->;
              eexists; split; reflexivity)
    end.
    exists l0, l1, l2, c, d, b. split; [reflexivity|tauto].
  - intros (l0 & l1 & l2 & c & d & b & -> & H0 & H1 & H2 & Hc & Hd & Hb).
    repeat match goal with
    | |- lang (Cat (Plus Dot) _) (?l ++ _) =>
        constructor; [apply lang_plus_single;
                      [reflexivity|rewrite accepts_dot_nolf; assumption]|]
    | |- lang (Cat (Chr _) _) (?c :: ?s) =>
        change (c :: s) with ([c] ++ s); constructor; [apply lang_chr; reflexivity|]
    | |- lang (Cat (Range _ _) _) (?c :: ?s) =>
        change (c :: s) with ([c] ++ s); constructor; [constructor; exact Hc|]
    | |- lang (Cat (Plus Digit) _) (?l ++ _) =>
        constructor; [apply lang_plus_single; [reflexivity|assumption]|]
    end.
    rewrite <- (app_nil_r [b]). constructor; [|constructor].
    simpl in Hb. apply orb_true_iff in Hb as [Hb|Hb]; apply N.eqb_eq in Hb as ->;
      [apply lang_alt_l|apply lang_alt_r]; apply lang_chr; reflexivity.
Qed.

Lemma join_lines_cons l ls :
  exists tail, join_lines (l :: ls) = l ++ tail
               /\ (ls <> [] -> tail = LF :: join_lines ls).
Proof.
  destruct ls as [|l' ls].
  - exists []. simpl. rewrite app_nil_r. split; [reflexivity|congruence].
  - exists (LF :: join_lines (l' :: ls)). split; reflexivity.
Qed.

Lemma nonempty_true l : nonempty l = true <-> l <> [].
Proof. destruct l; simpl; split; congruence. Qed.

Lemma is_digits_true l :
  is_digits l = true <-> l <> [] /\ Forall (fun x => isdecimal x = true) l.
Proof.
  unfold is_digits. rewrite andb_true_iff, nonempty_true, forallb_forall.
  rewrite Forall_forall. split; intros [H1 H2]; split; auto; intros x Hx;
    apply H2; apply list_elem_of_In; exact Hx.
Qed.

(** [valid_pattern] finds a match in a block exactly when the lines of the
    block have the shape [shape_ok]. *)
Lemma valid_pattern_lines block :
  match_ valid_pattern block = true <-> shape_ok (split [LF] block) = true.
Proof.
  rewrite match_spec. split.
  - intros (p & q & -> & Hp). apply lang_valid_pattern in Hp
      as (l0 & l1 & l2 & c & d & b & -> & [N0 H0] & [N1 H1] & [N2 H2]
          & Hc & [Nd Hd] & Hb).
    assert (nolf [c]) as Hc'.
    { repeat constructor. intros ->. discriminate Hc. }
    assert (b <> LF) as Hb' by (intros ->; discriminate Hb).
    apply isdecimal_nolf in Hd as Hd'.
    unfold split. norm_app.
    rewrite (split_lf_app _ l0), (split_lf_app _ l1), (split_lf_app _ l2)
      by assumption.
    change (c :: LF :: d ++ LF :: b :: q) with ([c] ++ LF :: d ++ LF :: b :: q).
    rewrite (split_lf_app _ [c]), (split_lf_app _ d) by assumption.
    rewrite split_lf_cons. apply N.eqb_neq in Hb'. rewrite Hb'.
    destruct (split_lf_first [b] q) as (t & rest & ->).
    simpl. apply nonempty_true in N0, N1, N2. rewrite N0, N1, N2.
    simpl in Hc. rewrite Hc. simpl in Hb. rewrite Hb.
    replace (is_digits d) with true; [reflexivity|].
    symmetry. apply is_digits_true. auto.
  - intros H. destruct (split_lines block) as [Hnolf Hjoin].
    destruct (split [LF] block) as [|l0 [|l1 [|l2 [|l3 [|l4 [|l5 rest]]]]]];
      try discriminate.
    simpl in H. repeat (apply andb_true_iff in H as [H ?]).
    destruct l3 as [|c [|? ?]]; try discriminate.
    destruct l5 as [|b t]; try discriminate.
    repeat match goal with
    | H : Forall _ (_ :: _) |- _ => apply Forall_cons in H as [? H]
    end.
    destruct (join_lines_cons (b :: t) rest) as (tail & Ej & _).
    exists (l0 ++ LF :: l1 ++ LF :: l2 ++ LF :: c :: LF :: l4 ++ LF :: [b]),
      (t ++ tail).
    split.
    + rewrite <- Hjoin.
      change (join_lines (l0 :: l1 :: l2 :: [c] :: l4 :: (b :: t) :: rest))
        with (l0 ++ LF :: l1 ++ LF :: l2 ++ LF :: [c] ++ LF :: l4 ++ LF ::
              join_lines ((b :: t) :: rest)).
      rewrite Ej. norm_app. reflexivity.
    + apply lang_valid_pattern. exists l0, l1, l2, c, l4, b.
      repeat match goal with
      | H : nonempty _ = true |- _ => apply nonempty_true in H
      | H : is_digits _ = true |- _ => apply is_digits_true in H
      end.
      tauto.
Qed.

(** ** The records of the parser *)

Lemma word_at_spec batch idx : word_at batch idx = Return (word_of batch idx).
Proof.
  unfold word_at, word_of, index.
  destruct (idx <? length batch)%nat eqn:E.
  - apply Nat.ltb_lt, lookup_lt_is_Some in E as [w ->]. reflexivity.
  - apply Nat.ltb_ge, lookup_ge_None in E as ->. reflexivity.
Qed.

Lemma format_error_eq :
  lit "解析错误: " ++ str_exn (ValueError (lit "响应格式不符合预期")) = format_error.
Proof. vm_compute. reflexivity. Qed.

(** The loop body never raises: one record per block. *)
Lemma parse_block_spec batch idx raw :
  parse_block batch idx raw = Return (entry_of_block batch idx raw).
Proof.
  unfold parse_block, entry_of_block, try_block, except_block. cbv zeta.
  destruct (match_ valid_pattern (strip raw)) eqn:Em; simpl negb; cbv iota.
  - apply valid_pattern_lines in Em.
    destruct (split [LF] (strip raw))
      as [|l0 [|l1 [|l2 [|l3 [|l4 [|l5 rest]]]]]]; try discriminate.
    rewrite word_at_spec. reflexivity.
  - unfold try_except. rewrite word_at_spec.
    cbn [mbind outcome_bind mret outcome_ret]. rewrite format_error_eq.
    reflexivity.
Qed.

Lemma entry_of_block_word batch idx raw :
  entry_of_block batch idx raw !! "word" = Some (word_of batch idx).
Proof.
  unfold entry_of_block. destruct (match_ _ _); reflexivity.
Qed.

Lemma parse_blocks_spec batch idx raws acc :
  parse_blocks batch idx raws acc =
  Return (acc ++ imap (fun k => entry_of_block batch (idx + k)) raws).
Proof.
  revert idx acc. induction raws as [|raw raws IH]; intros idx acc; simpl.
  - rewrite app_nil_r. reflexivity.
  - rewrite parse_block_spec. simpl. rewrite IH, <- app_assoc. simpl.
    rewrite Nat.add_0_r. do 3 f_equal. apply imap_ext. intros k x _. simpl.
    f_equal. lia.
Qed.

Lemma processed_words_spec batch idx raws :
  processed_words_of (imap (fun k => entry_of_block batch (idx + k)) raws) =
  Return (list_to_set (word_of batch <$> seq idx (length raws))).
Proof.
  revert idx. induction raws as [|raw raws IH]; intros idx; simpl.
  - reflexivity.
  - unfold item. rewrite entry_of_block_word. simpl.
    rewrite Nat.add_0_r.
    rewrite (imap_ext _ (fun k => entry_of_block batch (S idx + k)))
      by (intros; simpl; f_equal; lia).
    rewrite IH. reflexivity.
Qed.

Lemma append_missing_spec text pw batch acc :
  append_missing text pw batch acc =
  acc ++ (missing_entry text <$> filter (fun w => w ∉ pw) batch).
Proof.
  revert acc. induction batch as [|w batch IH]; intros acc; simpl.
  - rewrite app_nil_r. reflexivity.
  - rewrite IH, filter_cons. destruct (decide (w ∈ pw)) as [Hw|Hw].
    + rewrite decide_False by auto. reflexivity.
    + rewrite decide_True by auto. rewrite <- app_assoc. reflexivity.
Qed.

(** [parse_response] always returns: the records of the blocks, in order,
    then one record for each word of the batch no block position covers. *)
Lemma parse_response_spec text batch :
  let raws := split [LF; LF] (strip text) in
  parse_response text batch =
  Return (imap (entry_of_block batch) raws
          ++ (missing_entry text <$>
              filter (fun w => w ∉ covered_words batch (length raws)) batch)).
Proof.
  intros raws. unfold parse_response. fold raws.
  rewrite parse_blocks_spec. cbn [mbind outcome_bind app].
  rewrite processed_words_spec. cbn [mbind outcome_bind mret outcome_ret].
  rewrite append_missing_spec. reflexivity.
Qed.

(** ** Fields of the records *)

Lemma missing_entry_eq text w :
  missing_entry text w =
  error_record w missing_error (take 200 text ++ lit "...").
Proof.
  unfold missing_entry, error_record, prefix_slice. reflexivity.
Qed.

Lemma error_record_fields w err raw :
  error_record w err raw !! "word" = Some w
  /\ error_record w err raw !! "error" = Some err
  /\ error_record w err raw !! "raw_response" = Some raw.
Proof. repeat split; reflexivity. Qed.

Lemma classification_record_fields w r n c f b raw :
  let e := classification_record w r n c f b raw in
  e !! "word" = Some w /\ e !! "reason" = Some r
  /\ e !! "near_words" = Some n /\ e !! "category" = Some c
  /\ e !! "confidence" = Some f /\ e !! "is_boundary" = Some b
  /\ e !! "raw_response" = Some raw /\ e !! "error" = None.
Proof. repeat split; reflexivity. Qed.

Lemma error_record_well_shaped w err raw : well_shaped (error_record w err raw).
Proof.
  destruct (error_record_fields w err raw) as (Hw & He & _).
  split; [rewrite Hw|right; rewrite He]; eauto.
Qed.

Lemma entry_of_block_well_shaped batch idx raw :
  well_shaped (entry_of_block batch idx raw).
Proof.
  unfold entry_of_block. destruct (match_ _ _).
  - match goal with |- well_shaped (classification_record ?w ?r ?n ?c ?f ?b ?x) =>
      destruct (classification_record_fields w r n c f b x)
        as (Hw & Hr & Hn & Hc & Hf & Hb & _) end.
    split; [rewrite Hw; eauto|left].
    rewrite Hr, Hn, Hc, Hf, Hb. repeat split; eauto.
  - apply error_record_well_shaped.
Qed.

Lemma entry_of_block_error batch idx raw :
  entry_of_block batch idx raw !! "error" =
  if match_ valid_pattern (strip raw) then None else Some format_error.
Proof. unfold entry_of_block. destruct (match_ _ _); reflexivity. Qed.

Lemma elem_of_imap_entries batch raws e :
  e ∈ imap (entry_of_block batch) raws <->
  exists i raw, raws !! i = Some raw /\ e = entry_of_block batch i raw.
Proof.
  rewrite list_elem_of_lookup. split.
  - intros [i Hi]. rewrite list_lookup_imap in Hi.
    destruct (raws !! i) as [raw|] eqn:E; [|discriminate].
    injection Hi as <-. eauto.
  - intros (i & raw & E & ->). exists i. rewrite list_lookup_imap, E. reflexivity.
Qed.

Lemma elem_of_covered_words batch n w :
  w ∈ covered_words batch n <-> exists i, (i < n)%nat /\ w = word_of batch i.
Proof.
  unfold covered_words. rewrite elem_of_list_to_set, list_elem_of_fmap.
  split.
  - intros (i & -> & Hi). apply elem_of_seq in Hi. exists i. split; [lia|auto].
  - intros (i & Hi & ->). exists i. split; [auto|]. apply elem_of_seq. lia.
Qed.

(** ** Decimal renderings are injective *)

Lemma bytes_of_inj s1 s2 : bytes_of s1 = bytes_of s2 -> s1 = s2.
Proof.
  unfold bytes_of. intros H.
  apply (f_equal (fmap Ascii.ascii_of_N)) in H.
  rewrite <- !list_fmap_compose in H.
  rewrite !(list_fmap_ext (Ascii.ascii_of_N ∘ Ascii.N_of_ascii) id) in H
    by (intros; apply Ascii.ascii_N_embedding).
  rewrite !list_fmap_id in H.
  rewrite <- (String.string_of_list_ascii_of_string s1),
          <- (String.string_of_list_ascii_of_string s2), H.
  reflexivity.
Qed.

Lemma of_nat_inj i j : of_nat i = of_nat j -> i = j.
Proof. intros H. apply bytes_of_inj in H. apply (inj pretty) in H. exact H. Qed.

Lemma of_Z_inj a b : of_Z a = of_Z b -> a = b.
Proof. intros H. apply bytes_of_inj in H. apply (inj pretty) in H. exact H. Qed.

Lemma results_name_inj a b : results_name a = results_name b -> a = b.
Proof.
  unfold results_name. intros H. apply app_inv_head in H.
  apply app_inv_tail in H. apply of_Z_inj, H.
Qed.

Lemma errors_name_inj a b : errors_name a = errors_name b -> a = b.
Proof.
  unfold errors_name. intros H. apply app_inv_head in H.
  apply app_inv_tail in H. apply of_Z_inj, H.
Qed.

(** The word at a position: the batch's word there, or the placeholder. *)
Lemma word_of_cases batch idx :
  ((idx < length batch)%nat /\ batch !! idx = Some (word_of batch idx))
  \/ ((length batch <= idx)%nat
      /\ word_of batch idx = lit "UNKNOWN_" ++ of_nat idx).
Proof.
  unfold word_of. destruct (batch !! idx) as [w|] eqn:E.
  - left. split; [|reflexivity]. apply lookup_lt_is_Some. eauto.
  - right. split; [|reflexivity]. apply lookup_ge_None, E.
Qed.

(** Every word of the batch gets a record. *)
Lemma parse_response_covers text batch entries w :
  parse_response text batch = Return entries ->
  w ∈ batch -> exists e, e ∈ entries /\ e !! "word" = Some w.
Proof.
  rewrite parse_response_spec. intros [= <-] Hw.
  set (raws := split [LF; LF] (strip text)).
  destruct (decide (w ∈ covered_words batch (length raws))) as [Hc|Hc].
  - apply elem_of_covered_words in Hc as (i & Hi & ->).
    apply lookup_lt_is_Some in Hi as [raw Hraw].
    exists (entry_of_block batch i raw). split; [|apply entry_of_block_word].
    apply elem_of_app. left. apply elem_of_imap_entries. eauto.
  - exists (missing_entry text w). split.
    + apply elem_of_app. right. apply list_elem_of_fmap. exists w.
      split; [reflexivity|]. apply list_elem_of_filter. auto.
    + rewrite missing_entry_eq. apply error_record_fields.
Qed.

(** The words of the records: words of the batch and placeholders of the
    positions past its end. *)
Lemma parse_response_words text batch entries e w :
  parse_response text batch = Return entries ->
  e ∈ entries -> e !! "word" = Some w ->
  w ∈ batch
  \/ exists i, (length batch <= i < length (split [LF; LF] (strip text)))%nat
               /\ w = lit "UNKNOWN_" ++ of_nat i.
Proof.
  rewrite parse_response_spec. intros [= <-] He Hw.
  apply elem_of_app in He as [He|He].
  - apply elem_of_imap_entries in He as (i & raw & Hraw & ->).
    rewrite entry_of_block_word in Hw. injection Hw as <-.
    apply lookup_lt_Some in Hraw.
    destruct (word_of_cases batch i) as [[_ Hi]|[Hi ->]].
    + left. eapply list_elem_of_lookup_2, Hi.
    + right. exists i. split; [lia|reflexivity].
  - apply list_elem_of_fmap in He as (w' & -> & Hw').
    rewrite missing_entry_eq in Hw.
    destruct (error_record_fields w' missing_error (take 200 text ++ lit "..."))
      as (E & _). rewrite E in Hw. injection Hw as <-.
    left. apply list_elem_of_filter in Hw'. tauto.
Qed.

(** ** The parser: coverage of the batch (C1) *)

(** C1, as stated, fails: a batch that repeats a word can get fewer records
    than it has words (here one record for two words), and a reply with more
    blocks than the batch has words yields a record for a placeholder that is
    no word of the batch (here [UNKNOWN_0] for the empty batch). *)
Lemma parse_response_coverage_counterexample :
  returned words_of (parse_response sample_block [lit "摸鱼"; lit "摸鱼"])
    = Some [Some (lit "摸鱼")]
  /\ returned words_of (parse_response (lit "x") [])
     = Some [Some (lit "UNKNOWN_0")].
Proof. split; vm_compute; reflexivity. Qed.

(** C1 (amended): [parse_response] returns; every word of the batch is the
    word of some record; the word of a record is a word of the batch or the
    placeholder of a block position past the end of the batch (so the words
    covered are exactly those of the batch when the reply has no more blocks
    than the batch has words); and there are at least as many records as the
    batch has distinct words, hence at least [|B|] for a batch without
    repeated words. *)
Theorem parse_response_coverage (text : str) (batch : list str) :
  exists entries,
    parse_response text batch = Return entries
    /\ (forall w, w ∈ batch -> exists e, e ∈ entries /\ e !! "word" = Some w)
    /\ (forall e w, e ∈ entries -> e !! "word" = Some w ->
          w ∈ batch
          \/ exists i,
               (length batch <= i < length (split [LF; LF] (strip text)))%nat
               /\ w = lit "UNKNOWN_" ++ of_nat i)
    /\ (length (remove_dups batch) <= length entries)%nat
    /\ (NoDup batch -> (length batch <= length entries)%nat).
Proof.
  destruct (parse_response text batch) as [entries|e] eqn:E;
    [|rewrite parse_response_spec in E; discriminate].
  exists entries. split; [reflexivity|].
  assert (forall l : list str, NoDup l -> (forall w, w ∈ l -> w ∈ batch) ->
                               (length l <= length entries)%nat) as Hcount.
  { intros l Hnd Hl.
    rewrite <- (length_fmap (fun e : entry => default [] (e !! "word")) entries).
    apply submseteq_length, NoDup_submseteq; [exact Hnd|].
    intros w Hw. apply Hl in Hw.
    destruct (parse_response_covers _ _ _ _ E Hw) as (e & He & Ew).
    apply list_elem_of_fmap. exists e. rewrite Ew. auto. }
  repeat split.
  - intros w. apply (parse_response_covers text), E.
  - intros e w. apply parse_response_words, E.
  - apply Hcount; [apply NoDup_remove_dups|].
    intros w. rewrite elem_of_remove_dups. auto.
  - intros Hnd. apply Hcount; auto.
Qed.

(** ** The parser: totality (C10) *)

(** C10: [parse_response] returns a list of records for every reply text and
    every word list, without raising; every record has a [word] field and
    either the five fields of a classification or an [error] field. *)
Theorem parse_response_total (response_text : str) (batch : list str) :
  exists entries,
    parse_response response_text batch = Return entries
    /\ Forall
         (fun e : entry =>
            is_Some (e !! "word")
            /\ ((is_Some (e !! "reason") /\ is_Some (e !! "near_words")
                 /\ is_Some (e !! "category") /\ is_Some (e !! "confidence")
                 /\ is_Some (e !! "is_boundary"))
                \/ is_Some (e !! "error")))
         entries.
Proof.
  rewrite parse_response_spec. eexists. split; [reflexivity|].
  apply Forall_app. split; apply Forall_forall; intros e He.
  - apply elem_of_imap_entries in He as (i & raw & _ & ->).
    apply entry_of_block_well_shaped.
  - apply list_elem_of_fmap in He as (w & -> & _).
    rewrite missing_entry_eq. apply error_record_well_shaped.
Qed.

(** ** The parser: a word is a success or an error (C6) *)

(** C6, as stated, fails: when the batch repeats a word, or holds a word
    that reads like the placeholder of a surplus block, that word gets a
    success record from one block and an error record from another. *)
Lemma success_error_counterexample :
  returned (fun es => (words_of es, errors_of es))
    (parse_response sample_reply_2 [lit "摸鱼"; lit "摸鱼"])
  = Some ([Some (lit "摸鱼"); Some (lit "摸鱼")], [None; Some format_error])
  /\ returned (fun es => (words_of es, errors_of es))
       (parse_response sample_reply_2 [lit "UNKNOWN_1"])
     = Some ([Some (lit "UNKNOWN_1"); Some (lit "UNKNOWN_1")],
             [None; Some format_error]).
Proof. split; vm_compute; reflexivity. Qed.

(** Without repeated words or placeholder look-alikes, positions carry
    distinct words. *)
Lemma word_of_inj batch n i j :
  NoDup batch ->
  (forall k, (length batch <= k < n)%nat -> lit "UNKNOWN_" ++ of_nat k ∉ batch) ->
  (i < n)%nat -> (j < n)%nat -> word_of batch i = word_of batch j -> i = j.
Proof.
  intros Hnd Hph Hi Hj E.
  destruct (word_of_cases batch i) as [[Li Ei]|[Li Ei]],
           (word_of_cases batch j) as [[Lj Ej]|[Lj Ej]].
  - rewrite E in Ei. eapply NoDup_lookup; eauto.
  - exfalso. apply (Hph j); [lia|]. rewrite <- Ej, <- E.
    eapply list_elem_of_lookup_2, Ei.
  - exfalso. apply (Hph i); [lia|]. rewrite <- Ei, E.
    eapply list_elem_of_lookup_2, Ej.
  - rewrite Ei, Ej in E. apply app_inv_head in E. apply of_nat_inj, E.
Qed.

(** C6 (amended): for a batch without repeated words, none of which is the
    placeholder of a surplus block position, the records of one word are all
    successes or all errors: no word is both. *)
Theorem success_error_exclusive (text : str) (batch : list str) :
  NoDup batch ->
  (forall k, (length batch <= k < length (split [LF; LF] (strip text)))%nat ->
             lit "UNKNOWN_" ++ of_nat k ∉ batch) ->
  exists entries,
    parse_response text batch = Return entries
    /\ forall e1 e2 : entry,
         e1 ∈ entries -> e2 ∈ entries -> e1 !! "word" = e2 !! "word" ->
         (e1 !! "error" = None <-> e2 !! "error" = None).
Proof.
  intros Hnd Hph. rewrite parse_response_spec. eexists. split; [reflexivity|].
  set (raws := split [LF; LF] (strip text)) in *.
  assert (forall e1 e2 : entry,
            e1 ∈ imap (entry_of_block batch) raws ->
            e2 ∈ missing_entry text <$>
                 filter (fun w => w ∉ covered_words batch (length raws)) batch ->
            e1 !! "word" = e2 !! "word" -> False) as Hmix.
  { intros e1 e2 H1 H2 Ew.
    apply elem_of_imap_entries in H1 as (i & raw & Hraw & ->).
    apply list_elem_of_fmap in H2 as (w & -> & Hw).
    apply list_elem_of_filter in Hw as [Hw _]. apply Hw.
    rewrite entry_of_block_word, missing_entry_eq in Ew.
    destruct (error_record_fields w missing_error (take 200 text ++ lit "..."))
      as (E & _). rewrite E in Ew. injection Ew as <-.
    apply elem_of_covered_words. exists i. split; [|reflexivity].
    eapply lookup_lt_Some, Hraw. }
  intros e1 e2 H1 H2 Ew.
  apply elem_of_app in H1 as [H1|H1], H2 as [H2|H2].
  - apply elem_of_imap_entries in H1 as (i & raw1 & Hraw1 & ->).
    apply elem_of_imap_entries in H2 as (j & raw2 & Hraw2 & ->).
    rewrite !entry_of_block_word in Ew. injection Ew as Ew.
    apply (word_of_inj batch (length raws)) in Ew; auto;
      try (eapply lookup_lt_Some; eassumption).
    subst j. rewrite Hraw1 in Hraw2. injection Hraw2 as <-. reflexivity.
  - destruct (Hmix e1 e2); auto.
  - destruct (Hmix e2 e1); auto.
  - apply list_elem_of_fmap in H1 as (w1 & -> & _).
    apply list_elem_of_fmap in H2 as (w2 & -> & _).
    rewrite !missing_entry_eq.
    destruct (error_record_fields w1 missing_error (take 200 text ++ lit "..."))
      as (_ & E1 & _).
    destruct (error_record_fields w2 missing_error (take 200 text ++ lit "..."))
      as (_ & E2 & _).
    rewrite E1, E2. split; discriminate.
Qed.

(** An instance of [success_error_exclusive]: two distinct words, three
    blocks. *)
Lemma success_error_exclusive_witness :
  exists entries,
    parse_response sample_reply_3 [lit "摸鱼"; lit "躺平"] = Return entries
    /\ forall e1 e2 : entry,
         e1 ∈ entries -> e2 ∈ entries -> e1 !! "word" = e2 !! "word" ->
         (e1 !! "error" = None <-> e2 !! "error" = None).
Proof.
  apply (success_error_exclusive sample_reply_3 [lit "摸鱼"; lit "躺平"]).
  - refine (bool_decide_unpack _ _); vm_compute; exact I.
  - assert (length (split [LF; LF] (strip sample_reply_3)) = 3%nat) as ->
      by (vm_compute; reflexivity).
    intros k Hk. assert (k = 2%nat) as -> by (cbn [length] in Hk; lia).
    refine (bool_decide_unpack _ _); vm_compute; exact I.
Defined.

(** ** The parser: words the reply does not cover (C4) *)

(** C4: a word of the batch that no block-derived record carries gets an
    error record whose error is [未在响应中找到对应结果] (not found in the
    response) and whose [raw_response] is the first 200 characters of the
    reply followed by [...]; for a batch of three distinct words and a reply
    of two valid blocks, the parser yields exactly three records, the third
    being that error for the third word. *)
Theorem missing_words_reported (response_text : str) (batch : list str) :
  exists entries,
    parse_response response_text batch = Return entries
    /\ (forall w,
          w ∈ batch ->
          (forall e : entry,
             e ∈ take (length (split [LF; LF] (strip response_text))) entries ->
             e !! "word" <> Some w) ->
          error_record w (lit "未在响应中找到对应结果")
                       (take 200 response_text ++ lit "...")
          ∈ drop (length (split [LF; LF] (strip response_text))) entries)
    /\ (forall w0 w1 w2 raw0 raw1,
          batch = [w0; w1; w2] -> NoDup batch ->
          split [LF; LF] (strip response_text) = [raw0; raw1] ->
          match_ valid_pattern (strip raw0) = true ->
          match_ valid_pattern (strip raw1) = true ->
          exists e0 e1 : entry,
            entries = [e0; e1;
                       error_record w2 (lit "未在响应中找到对应结果")
                                    (take 200 response_text ++ lit "...")]
            /\ e0 !! "word" = Some w0 /\ e0 !! "error" = None
            /\ e1 !! "word" = Some w1 /\ e1 !! "error" = None).
Proof.
  rewrite parse_response_spec. eexists. split; [reflexivity|].
  set (raws := split [LF; LF] (strip response_text)).
  assert (length (imap (entry_of_block batch) raws) = length raws) as Hlen
    by apply length_imap.
  split.
  - intros w Hw Hnot.
    rewrite <- Hlen, take_app_length in Hnot. rewrite <- Hlen, drop_app_length.
    rewrite <- missing_entry_eq. apply list_elem_of_fmap. exists w.
    split; [reflexivity|]. apply list_elem_of_filter. split; [|exact Hw].
    intros Hc. apply elem_of_covered_words in Hc as (i & Hi & ->).
    rewrite Hlen in Hi. destruct (lookup_lt_is_Some_2 raws i Hi) as [raw Hraw].
    apply (Hnot (entry_of_block batch i raw)); [|apply entry_of_block_word].
    apply elem_of_imap_entries. eauto.
  - intros w0 w1 w2 raw0 raw1 -> Hnd Hraws V0 V1. subst raws. rewrite Hraws.
    apply NoDup_cons in Hnd as [N0 Hnd]. apply NoDup_cons in Hnd as [N1 _].
    exists (entry_of_block [w0; w1; w2] 0 raw0),
           (entry_of_block [w0; w1; w2] 1 raw1).
    rewrite !entry_of_block_word, !entry_of_block_error, V0, V1.
    split; [|repeat split; reflexivity].
    cbn [imap length app]. do 2 f_equal.
    rewrite !filter_cons, filter_nil.
    rewrite decide_False
      by (intros H; apply H, elem_of_covered_words; exists 0%nat;
          split; [lia|reflexivity]).
    rewrite decide_False
      by (intros H; apply H, elem_of_covered_words; exists 1%nat;
          split; [lia|reflexivity]).
    rewrite decide_True.
    2:{ intros H. apply elem_of_covered_words in H as (k & Hk & E).
        destruct k as [|[|k]]; [| |lia].
        - change (word_of [w0; w1; w2] 0) with w0 in E. subst w2.
          apply N0. apply list_elem_of_further, list_elem_of_here.
        - change (word_of [w0; w1; w2] 1) with w1 in E. subst w2.
          apply N1. apply list_elem_of_here. }
    rewrite <- missing_entry_eq. reflexivity.
Qed.

(** An instance of [missing_words_reported]: three words, two valid blocks. *)
Lemma missing_words_reported_witness :
  exists (entries : list entry) (e0 e1 : entry),
    parse_response sample_reply_two_valid [lit "摸鱼"; lit "躺平"; lit "内卷"]
      = Return entries
    /\ entries = [e0; e1;
                  error_record (lit "内卷") (lit "未在响应中找到对应结果")
                    (take 200 sample_reply_two_valid ++ lit "...")].
Proof.
  destruct (missing_words_reported sample_reply_two_valid
              [lit "摸鱼"; lit "躺平"; lit "内卷"]) as (entries & E & _ & H).
  destruct (H (lit "摸鱼") (lit "躺平") (lit "内卷") sample_block sample_block_2)
    as (e0 & e1 & He & _).
  - reflexivity.
  - refine (bool_decide_unpack _ _); vm_compute; exact I.
  - vm_compute; reflexivity.
  - vm_compute; reflexivity.
  - vm_compute; reflexivity.
  - exists entries, e0, e1. split; [exact E|exact He].
Defined.

(** ** The parser: malformed blocks (C5) *)

(** The malformed blocks the specification lists are refused by
    [shape_ok]: fewer than six lines, a fourth line that is no category, a
    fifth that is no run of digits, a sixth that does not begin with a
    boundary mark. *)
Lemma shape_ok_false lines :
  (length lines < 6)%nat
  \/ is_category (default [] (lines !! 3%nat)) = false
  \/ is_digits (default [] (lines !! 4%nat)) = false
  \/ has_boundary_mark (default [] (lines !! 5%nat)) = false ->
  shape_ok lines = false.
Proof.
  destruct lines as [|l0 [|l1 [|l2 [|l3 [|l4 [|l5 rest]]]]]];
    try reflexivity.
  cbn [length lookup list_lookup default from_option id shape_ok].
  intros [H|[H|[H|H]]]; [lia|rewrite H..];
    rewrite ?andb_false_r; reflexivity.
Qed.

(** An error record with another [raw_response]. *)
Lemma error_record_raw (w err raw raw' : str) :
  <["raw_response" := raw']> (error_record w err raw) = error_record w err raw'.
Proof.
  unfold error_record. cbn [list_to_map foldr fst snd].
  rewrite (insert_insert_ne _ "raw_response" "word") by discriminate.
  rewrite (insert_insert_ne _ "raw_response" "error") by discriminate.
  rewrite insert_insert_eq. reflexivity.
Qed.

(** C5, as stated, fails in two respects. A block that is malformed in the
    words of the specification, its fifth line [0] being no positive
    integer, is accepted by the pattern and gets a success record, not an
    error record. And a malformed block does show in the record of a sibling
    word: the missing-word record of the second word quotes the beginning of
    the reply, [bad1...] for one malformed block and [bad2...] for
    another. *)
Lemma malformed_block_counterexample :
  (spec_shape (split [LF] (strip block_zero_confidence)) = false
   /\ returned errors_of (parse_response block_zero_confidence [lit "摸鱼"])
      = Some [None])
  /\ returned raw_responses_of
       (parse_response (lit "bad1") [lit "摸鱼"; lit "躺平"])
     = Some [Some (lit "bad1"); Some (lit "bad1...")]
  /\ returned raw_responses_of
       (parse_response (lit "bad2") [lit "摸鱼"; lit "躺平"])
     = Some [Some (lit "bad2"); Some (lit "bad2...")].
Proof. repeat split; vm_compute; reflexivity. Qed.

(** C5: a block at position [i] that the pattern refuses yields, at position
    [i], an error record with the format-error text
    [解析错误: 响应格式不符合预期] and the block as [raw_response]; the parser
    still returns. For every reply that has the same number of blocks and
    the same blocks at the other positions, the records at the other block
    positions are the same, the words of all the records are the same, and
    a missing-word record differs at most in its [raw_response], the
    beginning of the reply. *)
Theorem malformed_block_isolated
    (text : str) (batch : list str) (i : nat) (raw : str) :
  split [LF; LF] (strip text) !! i = Some raw ->
  shape_ok (split [LF] (strip raw)) = false ->
  exists entries,
    parse_response text batch = Return entries
    /\ entries !! i
       = Some (error_record (word_of batch i)
                 (lit "解析错误: 响应格式不符合预期") (strip raw))
    /\ forall text' entries',
         parse_response text' batch = Return entries' ->
         length (split [LF; LF] (strip text'))
         = length (split [LF; LF] (strip text)) ->
         (forall j, j <> i ->
                    split [LF; LF] (strip text') !! j
                    = split [LF; LF] (strip text) !! j) ->
         words_of entries' = words_of entries
         /\ (forall j, j <> i ->
                       (j < length (split [LF; LF] (strip text)))%nat ->
                       entries' !! j = entries !! j)
         /\ (forall j (e : entry),
               (length (split [LF; LF] (strip text)) <= j)%nat ->
               entries !! j = Some e ->
               e !! "error" = Some (lit "未在响应中找到对应结果")
               /\ entries' !! j
                  = Some (<["raw_response" := take 200 text' ++ lit "..."]> e)).
Proof.
  intros Hraw Hbad. rewrite parse_response_spec. eexists.
  split; [reflexivity|].
  set (raws := split [LF; LF] (strip text)) in *.
  assert (forall (rs : list str) (l : list entry) (j : nat) (r : str),
            rs !! j = Some r ->
            (imap (entry_of_block batch) rs ++ l) !! j
            = Some (entry_of_block batch j r)) as Hat.
  { intros rs l j r Hr. rewrite lookup_app_l
      by (rewrite length_imap; eapply lookup_lt_Some, Hr).
    rewrite list_lookup_imap, Hr. reflexivity. }
  split.
  - rewrite (Hat _ _ _ _ Hraw). unfold entry_of_block.
    destruct (match_ valid_pattern (strip raw)) eqn:Em.
    + apply valid_pattern_lines in Em. congruence.
    + reflexivity.
  - intros text' entries'. rewrite parse_response_spec. intros [= <-] Hlen Hsame.
    set (raws' := split [LF; LF] (strip text')) in *. split; [|split].
    + unfold words_of. rewrite !fmap_app, Hlen. f_equal.
      * apply list_eq. intros j. rewrite !list_lookup_fmap, !list_lookup_imap.
        destruct (raws' !! j) as [r'|] eqn:E', (raws !! j) as [r|] eqn:E;
          cbn [fmap option_fmap option_map].
        -- rewrite !entry_of_block_word. reflexivity.
        -- apply lookup_lt_Some in E'. apply lookup_ge_None in E. lia.
        -- apply lookup_lt_Some in E. apply lookup_ge_None in E'. lia.
        -- reflexivity.
      * rewrite <- !list_fmap_compose. apply list_fmap_ext. intros _ w _.
        cbn [compose]. rewrite !missing_entry_eq.
        destruct (error_record_fields w missing_error (take 200 text ++ lit "..."))
          as (-> & _).
        destruct (error_record_fields w missing_error (take 200 text' ++ lit "..."))
          as (-> & _).
        reflexivity.
    + intros j Hj Hlt. destruct (lookup_lt_is_Some_2 raws j Hlt) as [r Hr].
      rewrite (Hat _ _ _ _ Hr). apply Hat. rewrite Hsame; auto.
    + intros j e Hj He.
      rewrite lookup_app_r in He by (rewrite length_imap; exact Hj).
      rewrite lookup_app_r by (rewrite length_imap, Hlen; exact Hj).
      rewrite length_imap in *. rewrite Hlen.
      rewrite list_lookup_fmap in He. rewrite list_lookup_fmap.
      destruct (filter _ batch !! (j - length raws)%nat) as [w|];
        [|discriminate].
      cbn [fmap option_fmap option_map] in *. injection He as <-.
      rewrite !missing_entry_eq. split.
      * exact (proj1 (proj2 (error_record_fields w missing_error
                               (take 200 text ++ lit "...")))).
      * rewrite error_record_raw. reflexivity.
Qed.

(** An instance of [malformed_block_isolated]: the second block is [bad]. *)
Lemma malformed_block_isolated_witness :
  exists entries,
    parse_response sample_reply_2 [lit "摸鱼"; lit "躺平"] = Return entries
    /\ entries !! 1%nat
       = Some (error_record (word_of [lit "摸鱼"; lit "躺平"] 1)
                 (lit "解析错误: 响应格式不符合预期") (strip (lit "bad"))).
Proof.
  destruct (malformed_block_isolated sample_reply_2 [lit "摸鱼"; lit "躺平"]
              1 (lit "bad")) as (entries & E & H & _).
  - vm_compute; reflexivity.
  - vm_compute; reflexivity.
  - exists entries. split; [exact E|exact H].
Defined.

(** ** Blocks of a reply hold no blank line *)

Lemma no_blank_nil : no_blank [].
Proof. intros a b E. destruct a; discriminate. Qed.

Lemma no_blank_infix a x b : no_blank (a ++ x ++ b) -> no_blank x.
Proof.
  intros H a' b' ->. apply (H (a ++ a') (b' ++ b)).
  rewrite <- !app_assoc. reflexivity.
Qed.

Lemma no_blank_snoc p c :
  no_blank p -> (last p = Some LF -> c <> LF) -> no_blank (p ++ [c]).
Proof.
  intros Hp Hc a b E.
  destruct (decide (b = [])) as [->|Hb].
  - change (a ++ [LF; LF]) with (a ++ [LF] ++ [LF]) in E.
    rewrite app_assoc in E. apply app_inj_tail in E as [-> ->].
    apply Hc; [apply last_snoc|reflexivity].
  - destruct (exists_last Hb) as (b' & c' & ->).
    change (a ++ LF :: LF :: b' ++ [c']) with (a ++ (LF :: LF :: b') ++ [c']) in E.
    rewrite app_assoc in E. apply app_inj_tail in E as [-> _].
    exact (Hp a b' eq_refl).
Qed.

Lemma startswith_lflf s :
  startswith [LF; LF] s = true <-> exists rest, s = LF :: LF :: rest.
Proof.
  destruct s as [|c [|d rest]]; cbn [startswith].
  - split; [discriminate|intros [? ?]; discriminate].
  - rewrite andb_false_r. split; [discriminate|intros [? ?]; discriminate].
  - rewrite andb_true_r, andb_true_iff, !N.eqb_eq. split.
    + intros [<- <-]. eauto.
    + intros [? [= -> ->]]. auto.
Qed.

(** The pieces [split('\n\n')] cuts hold no blank line. *)
Lemma split_blank_go s : forall skip cur,
  (skip = 0%nat ->
   no_blank (reverse cur) /\ (head cur = Some LF -> head s <> Some LF)) ->
  (skip <> 0%nat -> cur = []) ->
  Forall no_blank (split_go [LF; LF] skip cur s).
Proof.
  induction s as [|c s IH]; intros skip cur H0 H1.
  - cbn [split_go]. repeat constructor. destruct skip as [|k].
    + apply H0. reflexivity.
    + rewrite H1 by discriminate. apply no_blank_nil.
  - cbn [split_go]. destruct skip as [|k].
    + destruct (H0 eq_refl) as [Hcur Hhead].
      destruct (startswith [LF; LF] (c :: s)) eqn:Es.
      * constructor; [exact Hcur|]. apply IH; [discriminate|reflexivity].
      * apply IH; [|congruence]. intros _. split.
        -- rewrite reverse_cons. apply no_blank_snoc; [exact Hcur|].
           rewrite last_reverse. intros Hl ->. apply (Hhead Hl). reflexivity.
        -- cbn [head]. intros [= ->] Hs. destruct s as [|d s]; [discriminate|].
           cbn [head] in Hs. injection Hs as ->.
           assert (startswith [LF; LF] (LF :: LF :: s) = true) as E
             by (apply startswith_lflf; eauto).
           congruence.
    + rewrite (H1 ltac:(discriminate)). apply IH.
      * intros _. split; [apply no_blank_nil|discriminate].
      * reflexivity.
Qed.

Lemma split_no_blank s : Forall no_blank (split [LF; LF] s).
Proof.
  apply split_blank_go; [|congruence].
  intros _. split; [apply no_blank_nil|discriminate].
Qed.

Lemma lstrip_suffix s : exists a, s = a ++ lstrip s.
Proof.
  induction s as [|c s [a IH]]; [exists []; reflexivity|].
  cbn [lstrip]. destruct (isspace c).
  - exists (c :: a). cbn [app]. f_equal. exact IH.
  - exists []. reflexivity.
Qed.

Lemma lstrip_head s c : head (lstrip s) = Some c -> isspace c = false.
Proof.
  induction s as [|d s IH]; cbn [lstrip]; [discriminate|].
  destruct (isspace d) eqn:Ed; [exact IH|].
  cbn [head]. intros [= <-]. exact Ed.
Qed.

Lemma rstrip_prefix s : exists b, s = rstrip s ++ b.
Proof.
  unfold rstrip. destruct (lstrip_suffix (reverse s)) as [a E].
  exists (reverse a). rewrite <- reverse_app, <- E. symmetry. apply reverse_involutive.
Qed.

(** [strip] keeps a stretch of the text that does not begin with a line
    feed. *)
Lemma strip_infix s :
  (exists a b, s = a ++ strip s ++ b) /\ head (strip s) <> Some LF.
Proof.
  unfold strip. destruct (lstrip_suffix s) as [a Ea].
  destruct (rstrip_prefix (lstrip s)) as [b Eb]. split.
  - exists a, b. rewrite <- Eb. exact Ea.
  - intros Hh. assert (head (lstrip s) = Some LF) as Hl.
    { rewrite Eb. destruct (rstrip (lstrip s)); [discriminate|exact Hh]. }
    apply lstrip_head in Hl. discriminate Hl.
Qed.

(** The first three of at least four lines of a stripped block of a reply
    are not empty. *)
Lemma block_lines_nonempty text raw l0 l1 l2 l3 rest :
  raw ∈ split [LF; LF] text ->
  split [LF] (strip raw) = l0 :: l1 :: l2 :: l3 :: rest ->
  l0 <> [] /\ l1 <> [] /\ l2 <> [].
Proof.
  intros Hraw Hlines.
  pose proof (split_no_blank text) as Hnb. rewrite Forall_forall in Hnb.
  apply Hnb in Hraw. destruct (strip_infix raw) as [(a & b & Ea) Hhead].
  rewrite Ea in Hraw. apply no_blank_infix in Hraw.
  destruct (split_lines (strip raw)) as [_ Hjoin]. rewrite Hlines in Hjoin.
  change (join_lines (l0 :: l1 :: l2 :: l3 :: rest))
    with (l0 ++ LF :: l1 ++ LF :: l2 ++ LF :: join_lines (l3 :: rest)) in Hjoin.
  repeat split; intros ->.
  - rewrite <- Hjoin in Hhead. apply Hhead. reflexivity.
  - apply (Hraw l0 (l2 ++ LF :: join_lines (l3 :: rest))).
    rewrite <- Hjoin. reflexivity.
  - apply (Hraw (l0 ++ LF :: l1) (join_lines (l3 :: rest))).
    rewrite <- Hjoin, <- app_assoc. reflexivity.
Qed.

(** ** The parser: what counts as a valid block (C2) *)

(** C2, as stated, fails: a block whose fifth line is [0], no positive
    integer, and a block whose sixth line is [是的], not exactly [是], are
    both classified as successes. *)
Lemma block_classification_counterexample :
  (returned errors_of (parse_response block_zero_confidence [lit "摸鱼"])
   = Some [None]
   /\ spec_shape (split [LF] (strip block_zero_confidence)) = false)
  /\ (returned errors_of (parse_response block_long_boundary [lit "摸鱼"])
      = Some [None]
      /\ spec_shape (split [LF] (strip block_long_boundary)) = false).
Proof. repeat split; vm_compute; reflexivity. Qed.

Lemma spec_shape_shape_ok lines : spec_shape lines = true -> shape_ok lines = true.
Proof.
  destruct lines as [|l0 [|l1 [|l2 [|l3 [|l4 [|l5 rest]]]]]]; try discriminate.
  unfold spec_shape, shape_ok, is_positive_integer, is_boundary_mark.
  intros H.
  repeat match goal with
  | H : _ && _ = true |- _ => apply andb_true_iff in H as [? ?]
  end.
  repeat match goal with
  | H : ?b = true |- context [?b] => rewrite H
  end.
  match goal with H : _ || _ = true |- _ =>
    apply orb_true_iff in H as [H|H]; apply bool_decide_eq_true in H as ->;
    reflexivity end.
Qed.

(** C2 (amended): the block at position [i] is classified as a success
    exactly when its stripped text has at least six lines of which the first
    three are non-empty, the fourth is exactly one of [A], [B], [C], the fifth
    is a non-empty run of decimal digits ([0] included) and the sixth begins
    with [是] or [否] (the shape of the specification is one such shape); the
    record then has word [batch[i]], or [UNKNOWN_i] when [i] is not below the
    length of the batch, the second to sixth lines as reason, near_words,
    category, confidence and is_boundary, and the stripped block as
    raw_response; a block of exactly six lines with category [B],
    confidence [7], boundary [否] gives a success with category [B]. *)
Theorem block_classification
    (text : str) (batch : list str) (i : nat) (raw : str) :
  split [LF; LF] (strip text) !! i = Some raw ->
  exists (entries : list entry) (e : entry),
    parse_response text batch = Return entries
    /\ entries !! i = Some e
    /\ (e !! "error" = None <-> shape_ok (split [LF] (strip raw)) = true)
    /\ (spec_shape (split [LF] (strip raw)) = true -> e !! "error" = None)
    /\ (e !! "error" = None ->
        exists l0 l1 l2 l3 l4 l5 rest,
          split [LF] (strip raw) = l0 :: l1 :: l2 :: l3 :: l4 :: l5 :: rest
          /\ e = classification_record (word_of batch i) l1 l2 l3 l4 l5
                   (strip raw))
    /\ ((i < length batch)%nat -> batch !! i = Some (word_of batch i))
    /\ ((length batch <= i)%nat ->
        word_of batch i = lit "UNKNOWN_" ++ of_nat i)
    /\ (forall l0 l1 l2,
          split [LF] (strip raw) = [l0; l1; l2; lit "B"; lit "7"; lit "否"] ->
          e !! "error" = None /\ e !! "category" = Some (lit "B")).
Proof.
  intros Hraw. rewrite parse_response_spec.
  exists (imap (entry_of_block batch) (split [LF; LF] (strip text))
          ++ (missing_entry text <$>
              filter (fun w => w ∉ covered_words batch
                                     (length (split [LF; LF] (strip text))))
                     batch)),
         (entry_of_block batch i raw).
  split; [reflexivity|]. split.
  { rewrite lookup_app_l
      by (rewrite length_imap; eapply lookup_lt_Some, Hraw).
    rewrite list_lookup_imap, Hraw. reflexivity. }
  assert (entry_of_block batch i raw !! "error" = None
          <-> shape_ok (split [LF] (strip raw)) = true) as Hiff.
  { rewrite entry_of_block_error, <- valid_pattern_lines.
    destruct (match_ valid_pattern (strip raw)); split; congruence. }
  split; [exact Hiff|]. split.
  { intros H. apply Hiff, spec_shape_shape_ok, H. }
  split.
  { intros H. apply Hiff in H as Hs. apply valid_pattern_lines in Hs as Hm.
    unfold entry_of_block. rewrite Hm.
    destruct (split [LF] (strip raw))
      as [|l0 [|l1 [|l2 [|l3 [|l4 [|l5 rest]]]]]]; try discriminate.
    exists l0, l1, l2, l3, l4, l5, rest. split; reflexivity. }
  split.
  { intros H. destruct (word_of_cases batch i) as [[_ E]|[E _]]; [exact E|lia]. }
  split.
  { intros H. destruct (word_of_cases batch i) as [[E _]|[_ E]]; [lia|exact E]. }
  intros l0 l1 l2 Hl.
  destruct (block_lines_nonempty (strip text) raw l0 l1 l2 (lit "B")
              [lit "7"; lit "否"]) as (N0 & N1 & N2);
    [eapply list_elem_of_lookup_2, Hraw|exact Hl|].
  assert (shape_ok (split [LF] (strip raw)) = true) as Hs.
  { rewrite Hl. unfold shape_ok. apply nonempty_true in N0, N1, N2.
    rewrite N0, N1, N2. vm_compute. reflexivity. }
  split; [apply Hiff, Hs|].
  apply valid_pattern_lines in Hs. unfold entry_of_block. rewrite Hs, Hl.
  reflexivity.
Qed.

(** An instance of [block_classification]: the first block of a two-block
    reply. *)
Lemma block_classification_witness :
  exists (entries : list entry) (e : entry),
    parse_response sample_reply_2 [lit "摸鱼"; lit "躺平"] = Return entries
    /\ entries !! 0%nat = Some e
    /\ e !! "error" = None /\ e !! "category" = Some (lit "B").
Proof.
  destruct (block_classification sample_reply_2 [lit "摸鱼"; lit "躺平"]
              0 sample_block)
    as (entries & e & E & He & _ & _ & _ & _ & _ & H).
  - vm_compute; reflexivity.
  - exists entries, e. split; [exact E|]. split; [exact He|].
    apply (H (lit "摸鱼") (lit "旧词新义") (lit "偷懒,划水")).
    vm_compute; reflexivity.
Defined.

(** ** The batch runner *)

Lemma touches_only_refl S w : touches_only S w w.
Proof.
  repeat split; auto. exists []. rewrite app_nil_r. split; [reflexivity|constructor].
Qed.

Lemma touches_only_trans S w1 w2 w3 :
  touches_only S w1 w2 -> touches_only S w2 w3 -> touches_only S w1 w3.
Proof.
  intros (R1 & E1 & F1 & new1 & A1 & N1) (R2 & E2 & F2 & new2 & A2 & N2).
  repeat split.
  - intros name H. rewrite R2, R1; auto.
  - intros name H. rewrite E2, E1; auto.
  - congruence.
  - exists (new1 ++ new2). rewrite A2, A1, app_assoc. split; [reflexivity|].
    apply Forall_app; auto.
Qed.

Section RunnerFacts.

Variable BATCH_SIZE : Z.
Variable MAX_RETRIES : Z.
Variable env : pandas.
Variable api : nat -> str -> outcome (option str).
Variable future_repr : nat -> str.

Local Abbreviation process_batch' := (process_batch MAX_RETRIES api future_repr).
Local Abbreviation batch_turn' :=
  (batch_turn BATCH_SIZE MAX_RETRIES env api future_repr).
Local Abbreviation main' :=
  (main BATCH_SIZE MAX_RETRIES env api future_repr).

(** An attempt changes the call log only. *)
Lemma attempt_frame batch batch_num w r w' :
  attempt api batch batch_num w = (r, w') ->
  w' = log_call batch_num (build_prompt batch) w.
Proof.
  unfold attempt. destruct (api _ _); intros [= _ <-]; reflexivity.
Qed.

Lemma retry_frame more batch batch_num w r w' :
  retry api future_repr more batch batch_num w = (r, w') ->
  progress_file w' = progress_file w /\ results_dir w' = results_dir w
  /\ errors_dir w' = errors_dir w /\ final_results w' = final_results w
  /\ pacing_sleeps w' = pacing_sleeps w
  /\ exists new, api_calls w' = api_calls w ++ new
                 /\ Forall (fun c : Z * str => c.1 = batch_num) new
                 /\ (1 <= length new <= S more)%nat.
Proof.
  revert w. induction more as [|more IH]; intros w; cbn [retry];
    destruct (attempt api batch batch_num w) as [[content|e] w1] eqn:Ea;
    apply attempt_frame in Ea as ->.
  1,2,3: intros [= _ <-]; repeat split;
    exists [(batch_num, build_prompt batch)];
    (split; [reflexivity|]); (split; [repeat constructor|cbn [length]; lia]).
  intros H. apply IH in H as (-> & -> & -> & -> & -> & new & -> & Hn & Hl).
  repeat split. exists ((batch_num, build_prompt batch) :: new).
  split; [cbn [api_calls log_call]; rewrite <- app_assoc; reflexivity|].
  split; [constructor; [reflexivity|exact Hn]|cbn [length]; lia].
Qed.

Lemma process_batch_frame S batch batch_num w r w' :
  S batch_num ->
  process_batch' batch batch_num w = (r, w') ->
  progress_file w' = progress_file w /\ touches_only S w w'.
Proof.
  intros HS H. apply retry_frame in H as (Hp & Hr & He & Hf & _ & new & Ha & Hn & _).
  split; [exact Hp|]. repeat split.
  - intros; rewrite Hr; reflexivity.
  - intros; rewrite He; reflexivity.
  - exact Hf.
  - exists new. split; [exact Ha|]. eapply Forall_impl; [exact Hn|].
    intros c ->. exact HS.
Qed.

(** A turn for a batch whose number is in [processed_batches] changes
    nothing. *)
Lemma batch_turn_skip words (processed_batches : gset Z) st i :
  i / BATCH_SIZE + 1 ∈ processed_batches ->
  batch_turn' words processed_batches st i = st.
Proof.
  intros H. destruct st as [p w]. unfold batch_turn.
  rewrite decide_True by exact H. reflexivity.
Qed.

Lemma save_results_frame S entries batch_num w :
  S batch_num ->
  let w1 := (save_results env entries batch_num w).2 in
  progress_file w1 = progress_file w
  /\ errors_dir w1 = errors_dir w
  /\ api_calls w1 = api_calls w
  /\ pacing_sleeps w1 = pacing_sleeps w
  /\ touches_only S w w1.
Proof.
  intros HS. unfold save_results. cbv zeta.
  destruct (bool_decide _); cbn [snd with_result_file progress_file errors_dir
                                  api_calls pacing_sleeps];
    repeat split; try (exists []; rewrite app_nil_r; split;
                       [reflexivity|constructor]);
    intros name Hn; specialize (Hn _ HS); cbn [results_dir];
    apply lookup_insert_ne; congruence.
Qed.

(** The [try] branch either ends with the progress moved past the batch and
    saved, or raises with the progress as it was; either way only the
    artifacts of the batch are touched. *)
Lemma batch_succeeded_spec S i batch_num batch entries p w :
  S batch_num ->
  let r := batch_succeeded BATCH_SIZE env i batch_num batch entries p w in
  touches_only S w r.2
  /\ api_calls r.2 = api_calls w
  /\ pacing_sleeps r.2 = pacing_sleeps w
  /\ match r.1 with
     | Return p' =>
         last_index p' = i + BATCH_SIZE
         /\ processed p' = processed p + Z.of_nat (length batch)
         /\ batches p' = batches p ++ [batch_num]
         /\ progress_file r.2 = Some p'
     | Raise _ =>
         progress_file r.2 = progress_file w /\ errors_dir r.2 = errors_dir w
     end.
Proof.
  intros HS. unfold batch_succeeded. cbv zeta.
  destruct (save_results_frame S entries batch_num w HS)
    as (Hp & He & Ha & Hs & Ht).
  destruct (save_results env entries batch_num w) as [[result_file|e] w1];
    cbn [fst snd] in *.
  - split; [|split; [|split]].
    + eapply touches_only_trans; [exact Ht|]. repeat split.
      * destruct (0 <? _)%nat; reflexivity.
      * intros name Hn. specialize (Hn _ HS).
        destruct (0 <? _)%nat;
          cbn [save_progress save_errors errors_dir];
          [apply lookup_insert_ne; congruence|reflexivity].
      * destruct (0 <? _)%nat; reflexivity.
      * exists []. rewrite app_nil_r. split; [|constructor].
        destruct (0 <? _)%nat; reflexivity.
    + destruct (0 <? _)%nat; exact Ha.
    + destruct (0 <? _)%nat; exact Hs.
    + repeat split.
  - split; [exact Ht|]. repeat split; assumption.
Qed.

Lemma batch_failed_spec S i batch_num batch e p w :
  S batch_num ->
  let st := batch_failed BATCH_SIZE i batch_num batch e p w in
  last_index st.1 = i + BATCH_SIZE
  /\ processed st.1 = processed p
  /\ batches st.1 = batches p ++ [batch_num]
  /\ progress_file st.2 = Some st.1
  /\ results_dir st.2 = results_dir w
  /\ errors_dir st.2 !! errors_name batch_num
     = Some ((fun w0 : str =>
                (list_to_map [("word", w0); ("error", str_exn e)] : entry))
             <$> batch)
  /\ api_calls st.2 = api_calls w
  /\ touches_only S w st.2.
Proof.
  intros HS. unfold batch_failed. cbv zeta. cbn [fst snd].
  repeat split.
  - cbn [save_progress save_errors errors_dir]. apply lookup_insert_eq.
  - intros name Hn. specialize (Hn _ HS).
    cbn [save_progress save_errors errors_dir]. apply lookup_insert_ne. congruence.
  - exists []. rewrite app_nil_r. split; [reflexivity|constructor].
Qed.

Lemma sleep_1_frame S w : touches_only S w (sleep_1 w).
Proof.
  repeat split; auto. exists []. rewrite app_nil_r. split; [reflexivity|constructor].
Qed.

(** A turn for a batch whose number is not in [processed_batches] is an
    attempt: the pointer is set past the batch, the batch number is appended,
    the progress is saved, and only that batch's artifacts are touched. *)
Lemma batch_turn_attempt (S : Z -> Prop) words (processed_batches : gset Z) p w i :
  i / BATCH_SIZE + 1 ∉ processed_batches ->
  S (i / BATCH_SIZE + 1) ->
  let st := batch_turn' words processed_batches (p, w) i in
  last_index st.1 = i + BATCH_SIZE
  /\ batches st.1 = batches p ++ [i / BATCH_SIZE + 1]
  /\ progress_file st.2 = Some st.1
  /\ touches_only S w st.2.
Proof.
  intros Hn HS. unfold batch_turn. rewrite decide_False by exact Hn.
  destruct (process_batch' _ _ w) as [r w1] eqn:Ep.
  apply (process_batch_frame S) in Ep as [_ Ht]; [|exact HS].
  assert (Hfail : forall e w2,
             touches_only S w w2 ->
             let st := batch_failed BATCH_SIZE i (i / BATCH_SIZE + 1)
                         (slice words i (i + BATCH_SIZE)) e p w2 in
             last_index st.1 = i + BATCH_SIZE
             /\ batches st.1 = batches p ++ [i / BATCH_SIZE + 1]
             /\ progress_file (sleep_1 st.2) = Some st.1
             /\ touches_only S w (sleep_1 st.2)).
  { intros e w2 Ht2.
    destruct (batch_failed_spec S i (i / BATCH_SIZE + 1)
                (slice words i (i + BATCH_SIZE)) e p w2 HS)
      as (H1 & _ & H2 & H3 & _ & _ & _ & H4).
    split; [exact H1|]. split; [exact H2|]. split; [exact H3|].
    eapply touches_only_trans; [exact Ht2|].
    eapply touches_only_trans; [exact H4|apply sleep_1_frame]. }
  destruct (r ≫= _) as [entries|e].
  - destruct (batch_succeeded_spec S i (i / BATCH_SIZE + 1)
                (slice words i (i + BATCH_SIZE)) entries p w1 HS)
      as (H4 & _ & _ & Hcase).
    destruct (batch_succeeded _ _ _ _ _ _ _ _) as [[p2|e] w2];
      cbn [fst snd] in *.
    + destruct Hcase as (H1 & _ & H2 & H3).
      split; [exact H1|]. split; [exact H2|]. split; [exact H3|].
      eapply touches_only_trans; [exact Ht|].
      eapply touches_only_trans; [exact H4|apply sleep_1_frame].
    + specialize (Hfail e w2 (touches_only_trans _ _ _ _ Ht H4)).
      destruct (batch_failed _ _ _ _ _ _ _) as [p3 w3]. exact Hfail.
  - specialize (Hfail e w1 Ht).
    destruct (batch_failed _ _ _ _ _ _ _) as [p3 w3]. exact Hfail.
Qed.

(** ** The loop of [main] *)

Lemma run_inv_start processed_batches p0 w0 :
  run_inv processed_batches p0 w0 (p0, w0).
Proof.
  split; [|split].
  - exists []. rewrite app_nil_r. split; [reflexivity|constructor].
  - right. split; reflexivity.
  - apply touches_only_refl.
Qed.

Lemma run_inv_turn words processed_batches p0 w0 st i :
  run_inv processed_batches p0 w0 st ->
  run_inv processed_batches p0 w0 (batch_turn' words processed_batches st i).
Proof.
  intros Hinv.
  destruct (decide (i / BATCH_SIZE + 1 ∈ processed_batches)) as [Hin|Hnot].
  - rewrite batch_turn_skip by exact Hin. exact Hinv.
  - destruct st as [p w]. destruct Hinv as ((more & Hb & Hm) & _ & Ht).
    destruct (batch_turn_attempt (fun n => n ∉ processed_batches)
                words processed_batches p w i Hnot Hnot) as (_ & H2 & H3 & H4).
    cbn [fst snd] in *. split; [|split].
    + exists (more ++ [i / BATCH_SIZE + 1]).
      rewrite H2, Hb, app_assoc. split; [reflexivity|].
      apply Forall_app. split; [exact Hm|]. repeat constructor. exact Hnot.
    + left. exact H3.
    + eapply touches_only_trans; [exact Ht|exact H4].
Qed.

Lemma run_inv_loop words processed_batches p0 w0 offsets st :
  run_inv processed_batches p0 w0 st ->
  run_inv processed_batches p0 w0
    (foldl (batch_turn' words processed_batches) st offsets).
Proof.
  revert st. induction offsets as [|i offsets IH]; intros st Hinv; cbn [foldl].
  - exact Hinv.
  - apply IH, run_inv_turn, Hinv.
Qed.

(** [range] with a positive step: the offsets [start], [start + step], ...
    below [stop]. *)
Lemma range_spec start stop step :
  0 < step ->
  exists n : nat,
    range start stop step
    = Return ((fun k : nat => start + Z.of_nat k * step) <$> seq 0 n)
    /\ forall j : nat, (j < n)%nat <-> start + Z.of_nat j * step < stop.
Proof.
  intros Hs. unfold range.
  destruct (step =? 0) eqn:E0; [apply Z.eqb_eq in E0; lia|].
  destruct (0 <? step) eqn:E1; [|apply Z.ltb_ge in E1; lia].
  eexists. split; [reflexivity|]. intros j.
  pose proof (Z.div_mod (stop - start + step - 1) step ltac:(lia)) as Hd.
  pose proof (Z.mod_pos_bound (stop - start + step - 1) step Hs) as Hr.
  set (q := (stop - start + step - 1) / step) in *.
  set (r := (stop - start + step - 1) mod step) in *.
  split; intros H.
  - assert (Z.of_nat j < q) by lia. nia.
  - assert (Z.of_nat j < q) by nia. lia.
Qed.

(** Returning or raising, the aggregator touches [final_results.csv]
    only. *)
Lemma aggregate_results_frame w :
  progress_file (aggregate_results w).2 = progress_file w
  /\ results_dir (aggregate_results w).2 = results_dir w
  /\ errors_dir (aggregate_results w).2 = errors_dir w
  /\ api_calls (aggregate_results w).2 = api_calls w
  /\ pacing_sleeps (aggregate_results w).2 = pacing_sleeps w.
Proof. unfold aggregate_results. destruct (csv_tables w); repeat split. Qed.

(** What a run of [main] leaves alone: the artifacts of the batches the
    progress file lists and the calls for them; the list of completed batches
    is only extended. *)
Lemma main_frame words w :
  let processed_batches : gset Z := list_to_set (batches (load_progress w)) in
  let w' := (main' words w).2 in
  (forall name, (forall n, n ∉ processed_batches -> name <> results_name n) ->
                results_dir w' !! name = results_dir w !! name)
  /\ (forall name, (forall n, n ∉ processed_batches -> name <> errors_name n) ->
                   errors_dir w' !! name = errors_dir w !! name)
  /\ (exists new, api_calls w' = api_calls w ++ new
                  /\ Forall (fun c : Z * str => c.1 ∉ processed_batches) new)
  /\ exists more, batches (load_progress w')
                  = batches (load_progress w) ++ more.
Proof.
  intros processed_batches w'. subst w'. unfold main. cbv zeta.
  fold processed_batches.
  destruct (range _ _ _) as [offsets|e]; cbn [snd].
  2:{ repeat split; auto; exists []; rewrite app_nil_r; auto. }
  pose proof (run_inv_loop words processed_batches (load_progress w) w offsets
                _ (run_inv_start _ _ _)) as Hinv.
  destruct (foldl _ _ offsets) as [p w1].
  destruct Hinv as ((more & Hb & _) & Hp & (Hr & He & _ & Ha)).
  cbn [fst snd] in *.
  assert (exists more', batches (load_progress w1)
                        = batches (load_progress w) ++ more') as Hb'.
  { unfold load_progress at 1. destruct Hp as [->|[-> ->]].
    - eauto.
    - exists []. rewrite app_nil_r. reflexivity. }
  destruct (aggregate_results_frame w1) as (Hp1 & Hr1 & He1 & Ha1 & _).
  destruct (_ <=? _); cbn [snd];
    rewrite ?Hr1, ?He1, ?Ha1; unfold load_progress at 1; rewrite ?Hp1;
    repeat split; auto.
Qed.

(** ** Resuming (C7) *)

(** C7: with a positive [BATCH_SIZE], the loop of [main] runs over the
    offsets [k], [k + BATCH_SIZE], ... below the length of the word list,
    where [k] is the [last_index] of the progress file; a turn whose batch
    number is listed in the progress file returns the state it was given (no
    call, no write, no change of the progress); and a run leaves the result
    and error artifacts of every listed batch as they were and makes no call
    for it. *)
Theorem resume_skips_completed (words : list str) (w : world) :
  let p0 := load_progress w in
  let k := last_index p0 in
  let total := Z.of_nat (length words) in
  let processed_batches : gset Z := list_to_set (batches p0) in
  (0 < BATCH_SIZE ->
   exists n : nat,
     (forall j : nat,
        (j < n)%nat <-> k + Z.of_nat j * BATCH_SIZE < total)
     /\ main' words w
        = let '(p, w1) :=
            foldl (batch_turn' words processed_batches) (p0, w)
                  ((fun j : nat => k + Z.of_nat j * BATCH_SIZE) <$> seq 0 n) in
          if total <=? last_index p
          then ((fun _ : agg_result => ()) <$> (aggregate_results w1).1,
                (aggregate_results w1).2)
          else (Return (), w1))
  /\ (forall (st : progress * world) (i : Z),
        i / BATCH_SIZE + 1 ∈ batches p0 ->
        batch_turn' words processed_batches st i = st)
  /\ (forall n : Z,
        n ∈ batches p0 ->
        let w' := (main' words w).2 in
        results_dir w' !! results_name n = results_dir w !! results_name n
        /\ errors_dir w' !! errors_name n = errors_dir w !! errors_name n
        /\ exists new, api_calls w' = api_calls w ++ new
                       /\ forall c : Z * str, c ∈ new -> c.1 <> n).
Proof.
  intros p0 k total processed_batches. split; [|split].
  - intros Hpos.
    destruct (range_spec k total BATCH_SIZE Hpos) as (n & Hr & Hn).
    exists n. split; [exact Hn|]. unfold main. cbv zeta.
    fold p0 k total. rewrite Hr. reflexivity.
  - intros st i Hi. apply batch_turn_skip.
    apply elem_of_list_to_set, Hi.
  - intros n Hn w'. subst w'.
    destruct (main_frame words w) as (Hr & He & (new & Ha & Hnew) & _).
    fold p0 processed_batches in Hr, He, Hnew.
    assert (n ∈ processed_batches) as Hin by (apply elem_of_list_to_set, Hn).
    split; [|split].
    + apply Hr. intros m Hm E. apply results_name_inj in E. congruence.
    + apply He. intros m Hm E. apply errors_name_inj in E. congruence.
    + exists new. split; [exact Ha|]. intros c Hc E.
      rewrite Forall_forall in Hnew. apply (Hnew c Hc). rewrite E. exact Hin.
Qed.

(** ** The progress pointer (C8) *)

Lemma batch_turn_cases words (processed_batches : gset Z) st i :
  let st' := batch_turn' words processed_batches st i in
  ((i / BATCH_SIZE + 1 ∈ processed_batches) /\ st' = st)
  \/ ((i / BATCH_SIZE + 1 ∉ processed_batches)
      /\ last_index st'.1 = i + BATCH_SIZE
      /\ batches st'.1 = batches st.1 ++ [i / BATCH_SIZE + 1]
      /\ progress_file st'.2 = Some st'.1).
Proof.
  intros st'. subst st'.
  destruct (decide (i / BATCH_SIZE + 1 ∈ processed_batches)) as [Hin|Hnot].
  - left. split; [exact Hin|apply batch_turn_skip, Hin].
  - right. destruct st as [p w].
    destruct (batch_turn_attempt (fun _ => True) words processed_batches p w i
                Hnot I) as (H1 & H2 & H3 & _).
    auto.
Qed.

Lemma loop_multiple words (processed_batches : gset Z) offsets st :
  (BATCH_SIZE | last_index st.1) ->
  Forall (fun i => (BATCH_SIZE | i)) offsets ->
  (BATCH_SIZE | last_index
                  (foldl (batch_turn' words processed_batches) st offsets).1).
Proof.
  intros Hst Hoff. revert st Hst.
  induction Hoff as [|i offsets Hi _ IH]; intros st Hst; cbn [foldl].
  - exact Hst.
  - apply IH.
    destruct (batch_turn_cases words processed_batches st i)
      as [[_ ->]|(_ & -> & _)]; [exact Hst|].
    apply Z.divide_add_r; [exact Hi|apply Z.divide_refl].
Qed.

(** When no turn is skipped, the pointer follows the offsets. *)
Lemma loop_clean words (processed_batches : gset Z) k m a st :
  last_index st.1 = k + Z.of_nat a * BATCH_SIZE ->
  (forall j : nat,
     (k + Z.of_nat j * BATCH_SIZE) / BATCH_SIZE + 1 ∉ processed_batches) ->
  last_index
    (foldl (batch_turn' words processed_batches) st
       ((fun j : nat => k + Z.of_nat j * BATCH_SIZE) <$> seq a m)).1
  = k + Z.of_nat (a + m) * BATCH_SIZE.
Proof.
  intros Hst Hclean. revert a st Hst.
  induction m as [|m IH]; intros a st Hst; cbn [seq fmap list_fmap foldl].
  - rewrite Nat.add_0_r. exact Hst.
  - rewrite (IH (S a)); [f_equal; lia|].
    destruct (batch_turn_cases words processed_batches st
                (k + Z.of_nat a * BATCH_SIZE)) as [[Hin _]|(_ & -> & _)].
    + destruct (Hclean a Hin).
    + lia.
Qed.

Lemma fmap_seq_split {A} (f : nat -> A) n pre x post :
  f <$> seq 0 n = pre ++ x :: post ->
  pre = f <$> seq 0 (length pre) /\ x = f (length pre).
Proof.
  intros E.
  assert (length pre < n)%nat as Hlt.
  { apply (f_equal length) in E.
    rewrite length_fmap, length_seq, length_app in E. cbn [length] in E. lia. }
  split.
  - apply (f_equal (take (length pre))) in E.
    rewrite take_app_length, <- fmap_take, take_seq in E.
    rewrite Nat.min_l in E by lia. symmetry. exact E.
  - apply (f_equal (fun l => l !! length pre)) in E.
    rewrite list_lookup_middle in E by reflexivity.
    rewrite list_lookup_fmap, lookup_seq_lt in E by exact Hlt.
    cbn in E. congruence.
Qed.

(** C8 (amended): in a run with a positive [BATCH_SIZE] that starts from a
    progress whose [last_index] is a multiple of [BATCH_SIZE], at every turn
    of the loop [last_index] is a multiple of [BATCH_SIZE] before and after;
    the list of completed batches is only appended to; a batch attempt
    (success or failure) at offset [i] sets [last_index] to
    [i + BATCH_SIZE], appends the batch number and saves that progress at
    once; and when no listed batch number exceeds
    [last_index / BATCH_SIZE], no turn is skipped and every attempt advances
    [last_index] by exactly [BATCH_SIZE]. *)
Theorem progress_advances
    (words : list str) (w : world) (pre post : list Z) (i : Z) :
  let p0 := load_progress w in
  let processed_batches : gset Z := list_to_set (batches p0) in
  0 < BATCH_SIZE ->
  (BATCH_SIZE | last_index p0) ->
  range (last_index p0) (Z.of_nat (length words)) BATCH_SIZE
  = Return (pre ++ i :: post) ->
  let st := foldl (batch_turn' words processed_batches) (p0, w) pre in
  let st' := batch_turn' words processed_batches st i in
  (BATCH_SIZE | last_index st.1)
  /\ (BATCH_SIZE | last_index st'.1)
  /\ (exists more, batches st'.1 = batches st.1 ++ more)
  /\ (i / BATCH_SIZE + 1 ∉ processed_batches ->
      last_index st'.1 = i + BATCH_SIZE
      /\ batches st'.1 = batches st.1 ++ [i / BATCH_SIZE + 1]
      /\ progress_file st'.2 = Some st'.1)
  /\ ((forall n, n ∈ batches p0 -> n <= last_index p0 / BATCH_SIZE) ->
      (i / BATCH_SIZE + 1 ∉ processed_batches)
      /\ last_index st.1 = i
      /\ last_index st'.1 = last_index st.1 + BATCH_SIZE).
Proof.
  intros p0 processed_batches Hpos Hdiv Hrange st st'.
  destruct (range_spec (last_index p0) (Z.of_nat (length words)) BATCH_SIZE Hpos)
    as (n & Hr & _).
  rewrite Hr in Hrange. injection Hrange as Hoffs.
  apply fmap_seq_split in Hoffs as Hsplit. destruct Hsplit as [Hpre Hi].
  assert (Forall (fun x => (BATCH_SIZE | x)) (pre ++ i :: post)) as Hall.
  { rewrite <- Hoffs. apply Forall_fmap, Forall_forall. intros j _. cbn.
    apply Z.divide_add_r; [exact Hdiv|apply Z.divide_factor_r]. }
  apply Forall_app in Hall as [Hallpre Halli].
  apply Forall_cons in Halli as [Halli _].
  assert (BATCH_SIZE | last_index st.1) as Hst
    by (apply loop_multiple; [exact Hdiv|exact Hallpre]).
  pose proof (batch_turn_cases words processed_batches st i) as Hcases.
  fold st' in Hcases.
  split; [exact Hst|]. split; [|split; [|split]].
  - destruct Hcases as [[_ ->]|(_ & -> & _)]; [exact Hst|].
    apply Z.divide_add_r; [exact Halli|apply Z.divide_refl].
  - destruct Hcases as [[_ ->]|(_ & _ & -> & _)];
      [exists []; rewrite app_nil_r; reflexivity|eauto].
  - intros Hnot. destruct Hcases as [[Hin _]|(_ & H1 & H2 & H3)];
      [destruct (Hnot Hin)|auto].
  - intros Hclean.
    assert (forall j : nat,
              (last_index p0 + Z.of_nat j * BATCH_SIZE) / BATCH_SIZE + 1
              ∉ processed_batches) as Hfree.
    { intros j Hin. apply elem_of_list_to_set, Hclean in Hin.
      rewrite Z.div_add in Hin by lia. lia. }
    assert (last_index st.1 = i) as Hsti.
    { subst st. rewrite Hpre, Hi.
      rewrite (loop_clean words processed_batches (last_index p0)
                 (length pre) 0 (p0, w)); [reflexivity|cbn; lia|exact Hfree]. }
    assert (i / BATCH_SIZE + 1 ∉ processed_batches) as Hnot
      by (rewrite Hi; apply Hfree).
    split; [exact Hnot|]. split; [exact Hsti|].
    destruct Hcases as [[Hin _]|(_ & -> & _)]; [destruct (Hnot Hin)|lia].
Qed.

(** ** A batch whose call fails for good (C3) *)

(** When every attempt raises, the retry policy gives up after its last
    attempt with a [RetryError]. *)
Lemma retry_exhausted more batch batch_num w :
  (forall n, (length (api_calls w) <= n < length (api_calls w) + S more)%nat ->
             exists e, api n (build_prompt batch) = Raise e) ->
  exists w',
    retry api future_repr more batch batch_num w
    = (Raise (RetryError (future_repr (length (api_calls w) + S more))), w')
    /\ length (api_calls w') = (length (api_calls w) + S more)%nat.
Proof.
  revert w. induction more as [|more IH]; intros w Hfail; cbn [retry];
    unfold attempt;
    (destruct (Hfail (length (api_calls w))) as [e ->]; [lia|]).
  - eexists. split.
    + cbn [log_call api_calls]. rewrite length_app. reflexivity.
    + cbn [log_call api_calls]. rewrite length_app. reflexivity.
  - destruct (IH (log_call batch_num (build_prompt batch) w)) as (w' & E & L).
    + intros n Hn. apply Hfail. cbn [log_call api_calls] in Hn.
      rewrite length_app in Hn. cbn [length] in Hn. lia.
    + cbn [log_call api_calls] in E, L. rewrite length_app in E, L.
      cbn [length] in E, L. exists w'. split.
      * rewrite E.
        replace (length (api_calls w) + 1 + S more)%nat
          with (length (api_calls w) + S (S more))%nat by lia.
        reflexivity.
      * lia.
Qed.

(** C3 (amended): when every attempt of the model call of a batch raises,
    the batch fails: the [max 1 MAX_RETRIES] attempts are made, the error
    artifact of the batch holds one record per word of the batch, each with
    the message of the exception [process_batch] raised, no result artifact
    is written, [last_index] is set to the offset of the batch plus
    [BATCH_SIZE] (an advance by exactly [BATCH_SIZE] when the batch starts at
    [last_index]), the batch number is appended to the completed batches and
    the progress is saved; in every later run that finds the batch number in
    the progress file, the number stays there, the artifacts of the batch are
    left as they are and no call is made for it. *)
Theorem exhausted_retries_fail_batch
    (words : list str) (processed_batches : gset Z)
    (p : progress) (w : world) (i : Z) :
  let batch_num := i / BATCH_SIZE + 1 in
  let batch := slice words i (i + BATCH_SIZE) in
  let attempts := Z.to_nat (Z.max 1 MAX_RETRIES) in
  batch_num ∉ processed_batches ->
  (forall n, (length (api_calls w) <= n < length (api_calls w) + attempts)%nat ->
             exists e, api n (build_prompt batch) = Raise e) ->
  let st' := batch_turn' words processed_batches (p, w) i in
  exists e : exn,
    (process_batch' batch batch_num w).1 = Raise e
    /\ length (api_calls st'.2) = (length (api_calls w) + attempts)%nat
    /\ errors_dir st'.2 !! errors_name batch_num
       = Some ((fun w0 : str =>
                  (list_to_map [("word", w0); ("error", str_exn e)] : entry))
               <$> batch)
    /\ results_dir st'.2 = results_dir w
    /\ last_index st'.1 = i + BATCH_SIZE
    /\ (last_index p = i -> last_index st'.1 = last_index p + BATCH_SIZE)
    /\ processed st'.1 = processed p
    /\ batches st'.1 = batches p ++ [batch_num]
    /\ progress_file st'.2 = Some st'.1
    /\ batch_num ∈ batches (load_progress st'.2)
    /\ forall (words2 : list str) (w2 : world),
         batch_num ∈ batches (load_progress w2) ->
         let w3 := (main' words2 w2).2 in
         batch_num ∈ batches (load_progress w3)
         /\ results_dir w3 !! results_name batch_num
            = results_dir w2 !! results_name batch_num
         /\ errors_dir w3 !! errors_name batch_num
            = errors_dir w2 !! errors_name batch_num
         /\ exists new, api_calls w3 = api_calls w2 ++ new
                        /\ forall c : Z * str, c ∈ new -> c.1 <> batch_num.
Proof.
  intros batch_num batch attempts Hnot Hfail st'.
  assert (attempts = S (Z.to_nat (MAX_RETRIES - 1))) as Hatt
    by (subst attempts; lia).
  rewrite Hatt in Hfail.
  destruct (retry_exhausted (Z.to_nat (MAX_RETRIES - 1)) batch batch_num w Hfail)
    as (w1 & Ep & Hlen).
  pose proof Ep as Hframe.
  apply retry_frame in Hframe as (_ & Hres & _ & _ & _ & _).
  eexists. split; [unfold process_batch; rewrite Ep; reflexivity|].
  subst st'. unfold batch_turn. rewrite decide_False by exact Hnot.
  fold batch_num batch. unfold process_batch. rewrite Ep.
  cbn [mbind outcome_bind].
  match goal with |- context [batch_failed ?b ?i ?n ?bt ?e ?p ?w] =>
    destruct (batch_failed_spec (fun _ => True) i n bt e p w I)
      as (H1 & H2 & H3 & H4 & H5 & H6 & H7 & _);
    destruct (batch_failed b i n bt e p w) as [p2 w2]
  end.
  cbn [fst snd sleep_1 api_calls errors_dir results_dir progress_file] in *.
  split; [rewrite H7, Hlen, Hatt; reflexivity|].
  split; [exact H6|]. split; [rewrite H5; exact Hres|].
  split; [exact H1|]. split; [intros ->; exact H1|].
  split; [exact H2|]. split; [exact H3|]. split; [exact H4|].
  split.
  { unfold load_progress, sleep_1. cbn [progress_file]. rewrite H4, H3.
    apply elem_of_app. right. apply list_elem_of_singleton. reflexivity. }
  intros words2 wl Hin.
  destruct (main_frame words2 wl) as (Hr & He & (new & Ha & Hnew) & (more & Hb)).
  assert (batch_num ∈ (list_to_set (batches (load_progress wl)) : gset Z))
    as Hin' by (apply elem_of_list_to_set, Hin).
  split; [rewrite Hb; apply elem_of_app; left; exact Hin|].
  split; [|split].
  - apply Hr. intros m Hm E. apply results_name_inj in E. congruence.
  - apply He. intros m Hm E. apply errors_name_inj in E. congruence.
  - exists new. split; [exact Ha|]. intros c Hc E.
    rewrite Forall_forall in Hnew. apply (Hnew c Hc). rewrite E. exact Hin'.
Qed.

End RunnerFacts.

(** ** Sample runs *)

(** C8, as stated, fails: with [BATCH_SIZE = 2] and a progress file
    [{last_index = 2, batches = [1; 2]}] (two batches of a run with
    [BATCH_SIZE = 1]), [last_index] is a multiple of [BATCH_SIZE]; the turn at
    offset 2 is skipped as batch 2, and the one attempt of the run, at offset
    4, moves [last_index] from 2 to 6, not to 4. *)
Lemma last_index_jump_counterexample :
  progress_file
    (main 2 1 sample_pandas api_down sample_future_repr six_words
       (world_with (Some (Progress 2 2 [1; 2])))).2
  = Some (Progress 6 2 [1; 2; 3])
  /\ fst <$> api_calls
       (main 2 1 sample_pandas api_down sample_future_repr six_words
          (world_with (Some (Progress 2 2 [1; 2])))).2
     = [3].
Proof. split; vm_compute; reflexivity. Qed.

(** C3, as stated, fails in one respect: in the same situation with three
    attempts allowed, the batch at offset 4 fails after three calls and gets
    its two error records, but [last_index] moves from 2 to 6, an advance of
    twice [BATCH_SIZE], because the skipped turn at offset 2 did not move
    it. *)
Lemma failed_batch_jump_counterexample :
  progress_file
    (main 2 3 sample_pandas api_down sample_future_repr six_words
       (world_with (Some (Progress 2 2 [1; 2])))).2
  = Some (Progress 6 2 [1; 2; 3])
  /\ fst <$> api_calls
       (main 2 3 sample_pandas api_down sample_future_repr six_words
          (world_with (Some (Progress 2 2 [1; 2])))).2
     = [3; 3; 3]
  /\ words_of <$>
       errors_dir
         (main 2 3 sample_pandas api_down sample_future_repr six_words
            (world_with (Some (Progress 2 2 [1; 2])))).2 !! errors_name 3
     = Some [Some (lit "种草"); Some (lit "破防")].
Proof. repeat split; vm_compute; reflexivity. Qed.

(** An instance of [progress_advances]: the second batch of a fresh run. *)
Lemma progress_advances_witness :
  last_index
    (batch_turn 2 1 sample_pandas api_down sample_future_repr six_words
       (list_to_set (batches (load_progress (world_with None))))
       (foldl (batch_turn 2 1 sample_pandas api_down sample_future_repr six_words
                 (list_to_set (batches (load_progress (world_with None)))))
              (load_progress (world_with None), world_with None) [0])
       2).1
  = 2 + 2.
Proof.
  destruct (progress_advances 2 1 sample_pandas api_down sample_future_repr six_words
              (world_with None) [0] [4] 2) as (_ & _ & _ & H & _).
  - lia.
  - apply Z.divide_0_r.
  - vm_compute; reflexivity.
  - destruct H as [H _]; [|exact H].
    refine (bool_decide_unpack _ _); vm_compute; exact I.
Defined.

(** An instance of [exhausted_retries_fail_batch]: the first batch of a fresh
    run against a provider that is down, three attempts allowed. *)
Lemma exhausted_retries_fail_batch_witness :
  last_index
    (batch_turn 2 3 sample_pandas api_down sample_future_repr six_words ∅
       (fresh_progress, world_with None) 0).1
  = 0 + 2
  /\ length
       (api_calls
          (batch_turn 2 3 sample_pandas api_down sample_future_repr six_words ∅
             (fresh_progress, world_with None) 0).2)
     = 3%nat.
Proof.
  destruct (exhausted_retries_fail_batch 2 3 sample_pandas api_down sample_future_repr
              six_words ∅ fresh_progress (world_with None) 0)
    as (e & _ & Hcalls & _ & _ & Hlast & _).
  - apply not_elem_of_empty.
  - intros n _. eexists. reflexivity.
  - split; [exact Hlast|exact Hcalls].
Defined.

(** An instance of [resume_skips_completed]: the turn of a listed batch. *)
Lemma resume_skips_completed_witness :
  batch_turn 2 1 sample_pandas api_down sample_future_repr six_words
    (list_to_set (batches (load_progress
                             (world_with (Some (Progress 2 2 [1]))))))
    (Progress 2 2 [1], world_with (Some (Progress 2 2 [1]))) 0
  = (Progress 2 2 [1], world_with (Some (Progress 2 2 [1]))).
Proof.
  destruct (resume_skips_completed 2 1 sample_pandas api_down sample_future_repr six_words
              (world_with (Some (Progress 2 2 [1])))) as (_ & H & _).
  apply H. refine (bool_decide_unpack _ _); vm_compute; exact I.
Defined.

(** ** The aggregator (C9) *)

Lemma startswith_app p x : startswith p (p ++ x) = true.
Proof.
  induction p as [|c p IH]; [destruct x; reflexivity|].
  cbn [app startswith]. rewrite N.eqb_refl, IH. reflexivity.
Qed.

Lemma endswith_app p x : endswith p (x ++ p) = true.
Proof. unfold endswith. rewrite reverse_app. apply startswith_app. Qed.

Lemma results_name_csv n : endswith (lit ".csv") (results_name n) = true.
Proof. unfold results_name. rewrite app_assoc. apply endswith_app. Qed.

Lemma filter_bool_split {A} (f : A -> bool) (l : list A) :
  (length (filter (fun x => f x = true) l)
   + length (filter (fun x => f x = false) l))%nat
  = length l.
Proof.
  induction l as [|x l IH]; [reflexivity|].
  rewrite !filter_cons. destruct (f x) eqn:E.
  - rewrite decide_True, decide_False by congruence. cbn [length]. lia.
  - rewrite decide_False, decide_True by congruence. cbn [length]. lia.
Qed.

Lemma length_filter_fmap {A B} (f : A -> B) (P : B -> Prop) (Q : A -> Prop)
    `{!forall b, Decision (P b)} `{!forall a, Decision (Q a)} (l : list A) :
  (forall a, P (f a) <-> Q a) ->
  length (filter P (f <$> l)) = length (filter Q l).
Proof.
  intros Hiff. induction l as [|a l IH]; [reflexivity|].
  cbn [fmap list_fmap]. rewrite !filter_cons.
  pose proof (Hiff a) as Ha.
  destruct (decide (P (f a))) as [HP|HP], (decide (Q a)) as [HQ|HQ];
    cbn [length]; rewrite ?IH; try reflexivity; tauto.
Qed.

(** *** Reading the files *)

Lemma read_all_readable (files : list csv_file) :
  Forall (fun file : csv_file => exists table, file = Return table) files ->
  read_all files = Return (file_rows <$> files).
Proof.
  induction 1 as [|file files [table ->] _ IH]; [reflexivity|].
  cbn [read_all mbind outcome_bind]. rewrite IH. reflexivity.
Qed.

Lemma read_all_Return (files : list csv_file) tables :
  read_all files = Return tables -> files = Return <$> tables.
Proof.
  revert tables. induction files as [|file files IH]; intros tables.
  - intros [= <-]. reflexivity.
  - cbn [read_all mbind outcome_bind]. destruct file as [table|e]; [|discriminate].
    destruct (read_all files) as [tables'|e]; [|discriminate].
    intros [= <-]. rewrite (IH tables' eq_refl). reflexivity.
Qed.

Lemma readable_csv_files w :
  readable (results_dir w) ->
  Forall (fun file : csv_file => exists table, file = Return table)
         (csv_files w).
Proof.
  intros H. unfold csv_files. apply Forall_fmap, Forall_forall.
  intros [name file] Hin. apply list_elem_of_filter in Hin as [Hcsv Hin].
  apply elem_of_map_to_list in Hin. exact (H name file Hin Hcsv).
Qed.

(** When every [.csv] file can be read, the aggregator returns the counts
    over their rows. *)
Lemma aggregate_results_readable w :
  readable (results_dir w) ->
  (aggregate_results w).1 = Return (count_entries (csv_rows (results_dir w))).
Proof.
  intros H. unfold aggregate_results, csv_tables.
  rewrite (read_all_readable _ (readable_csv_files w H)). reflexivity.
Qed.

Lemma csv_rows_insert dir name (file : csv_file) :
  dir !! name = None -> endswith (lit ".csv") name = true ->
  csv_rows (<[name := file]> dir) ≡ₚ file_rows file ++ csv_rows dir.
Proof.
  intros Hnone Hcsv. unfold csv_rows.
  rewrite (map_to_list_insert dir name file Hnone), filter_cons.
  rewrite decide_True by exact Hcsv. reflexivity.
Qed.

Lemma readable_insert dir name table :
  readable dir -> readable (<[name := Return table]> dir).
Proof.
  intros H name' file Hl Hcsv. destruct (decide (name' = name)) as [->|Hne].
  - rewrite lookup_insert_eq in Hl. injection Hl as <-. eauto.
  - rewrite lookup_insert_ne in Hl by congruence. exact (H name' file Hl Hcsv).
Qed.

(** *** Writing and reading back *)

Lemma DataFrame_length rows : length (DataFrame rows) = length rows.
Proof. unfold DataFrame. cbv zeta. apply length_fmap. Qed.

(** The table of plain records reads back row for row. *)
Lemma to_csv_plain env entries :
  plain_entries entries ->
  to_csv env (DataFrame ((fun e : entry => Val <$> e) <$> entries))
  = Return (read_rows (DataFrame ((fun e : entry => Val <$> e) <$> entries))).
Proof.
  intros (Hne & _ & Hplain). unfold to_csv.
  destruct (DataFrame _) as [|r df] eqn:E.
  - apply (f_equal length) in E. rewrite DataFrame_length, length_fmap in E.
    destruct entries; [contradiction|discriminate].
  - rewrite (bool_decide_eq_true_2 _ Hplain). reflexivity.
Qed.

(** Records that are plain are written in full. *)
Lemma save_results_plain env entries batch_num w :
  plain_entries entries ->
  save_results env entries batch_num w
  = (Return (lit "results/" ++ results_name batch_num),
     with_result_file (results_name batch_num)
       (Return (read_rows (DataFrame ((fun e : entry => Val <$> e) <$> entries))))
       w).
Proof.
  intros Hplain. unfold save_results. cbv zeta.
  rewrite (to_csv_plain env entries Hplain).
  destruct Hplain as (_ & Henc & _).
  rewrite (bool_decide_eq_true_2 _ Henc). reflexivity.
Qed.

(** A row of the table [save_results] writes counts as an error exactly when
    its record carries an error text that is not read back as missing. *)
Lemma saved_row_counts (columns : gset string) (e : entry) :
  counts_as_success
    (csv_cell <$> ((Val <$> e : record) ∪ gset_to_gmap NaN columns))
  = negb (reported_error e).
Proof.
  unfold counts_as_success, reported_error.
  rewrite lookup_fmap, lookup_union, lookup_fmap, lookup_gset_to_gmap.
  destruct (e !! "error") as [v|], (guard _) as [?|]; cbn -[na_values];
    try reflexivity; destruct (bool_decide (v ∈ na_values)); reflexivity.
Qed.

Lemma saved_errors (entries : list entry) :
  length (filter (fun r : record => counts_as_success r = false)
            (read_rows (DataFrame ((fun e : entry => Val <$> e) <$> entries))))
  = length (filter (fun e : entry => reported_error e = true) entries).
Proof.
  unfold read_rows, DataFrame. cbv zeta. rewrite <- !list_fmap_compose.
  apply length_filter_fmap. intros e. unfold compose.
  rewrite saved_row_counts. destruct (reported_error e); cbn [negb]; split;
    congruence.
Qed.

Lemma saved_rows (entries : list entry) :
  length (read_rows (DataFrame ((fun e : entry => Val <$> e) <$> entries)))
  = length entries.
Proof. unfold read_rows. rewrite length_fmap, DataFrame_length, length_fmap. reflexivity. Qed.

(** The artifacts written for distinct batch numbers, all of plain records:
    every file can be read, and the rows read are those written, up to the
    order of the files. *)
Lemma write_batches_plain env written : forall w,
  NoDup written.*1 ->
  (forall n, n ∈ written.*1 -> results_dir w !! results_name n = None) ->
  Forall (fun x : Z * list entry => plain_entries x.2) written ->
  readable (results_dir w) ->
  readable (results_dir (write_batches env written w))
  /\ csv_rows (results_dir (write_batches env written w))
     ≡ₚ csv_rows (results_dir w)
        ++ mjoin ((fun x : Z * list entry =>
                     read_rows (DataFrame ((fun e : entry => Val <$> e) <$> x.2)))
                  <$> written).
Proof.
  induction written as [|[n es] rest IH]; intros w Hnd Hfree Hplain Hread.
  - cbn [write_batches fmap list_fmap mjoin list_join]. rewrite app_nil_r.
    split; [exact Hread|reflexivity].
  - cbn [fmap list_fmap fst] in Hnd, Hfree. apply NoDup_cons in Hnd as [Hn Hnd].
    apply Forall_cons in Hplain as [Hes Hplain]. cbn [snd] in Hes.
    cbn [write_batches]. rewrite (save_results_plain env es n w Hes).
    cbn [snd].
    destruct (IH (with_result_file (results_name n)
                    (Return (read_rows
                               (DataFrame ((fun e : entry => Val <$> e) <$> es))))
                    w)) as [Hread' Hrows]; [exact Hnd| |exact Hplain| |].
    + intros m Hm. cbn [with_result_file results_dir].
      rewrite lookup_insert_ne.
      * apply Hfree. apply list_elem_of_further, Hm.
      * intros E. apply results_name_inj in E. subst m. exact (Hn Hm).
    + cbn [with_result_file results_dir]. apply readable_insert, Hread.
    + split; [exact Hread'|]. rewrite Hrows.
      cbn [with_result_file results_dir].
      rewrite csv_rows_insert
        by (try apply results_name_csv; apply Hfree; apply list_elem_of_here).
      cbn [file_rows fmap list_fmap mjoin list_join snd].
      rewrite !app_assoc. apply Permutation_app_tail, Permutation_app_comm.
Qed.

Lemma sum_written_rows (written : list (Z * list entry)) :
  length (mjoin ((fun x : Z * list entry =>
                    read_rows (DataFrame ((fun e : entry => Val <$> e) <$> x.2)))
                 <$> written))
  = sum_list ((length ∘ snd) <$> written).
Proof.
  induction written as [|[n es] rest IH]; [reflexivity|].
  rewrite !fmap_cons. cbn [mjoin list_join sum_list_with id snd compose].
  rewrite length_app, saved_rows. f_equal. exact IH.
Qed.

Lemma sum_written_errors (written : list (Z * list entry)) :
  length (filter (fun r : record => counts_as_success r = false)
            (mjoin ((fun x : Z * list entry =>
                       read_rows (DataFrame ((fun e : entry => Val <$> e) <$> x.2)))
                    <$> written)))
  = sum_list ((fun x : Z * list entry =>
                 length (filter (fun e : entry => reported_error e = true) x.2))
              <$> written).
Proof.
  induction written as [|[n es] rest IH]; [reflexivity|].
  rewrite !fmap_cons. cbn [mjoin list_join sum_list_with id snd].
  rewrite filter_app, length_app, saved_errors. f_equal. exact IH.
Qed.

(** What the aggregator returns over artifacts of plain records written for
    distinct batch numbers into an empty directory. *)
Lemma aggregate_written env (written : list (Z * list entry)) (w : world) :
  NoDup written.*1 -> results_dir w = ∅ ->
  Forall (fun x : Z * list entry => plain_entries x.2) written ->
  exists r,
    (aggregate_results (write_batches env written w)).1 = Return r
    /\ total_words r = Z.of_nat (sum_list ((length ∘ snd) <$> written))
    /\ error_words r
       = Z.of_nat
           (sum_list ((fun x : Z * list entry =>
                         length (filter (fun e : entry => reported_error e = true)
                                        x.2)) <$> written))
    /\ success_words r + error_words r = total_words r.
Proof.
  intros Hnd Hempty Hplain.
  destruct (write_batches_plain env written w Hnd) as [Hread Hrows];
    [intros n _; rewrite Hempty; apply lookup_empty|exact Hplain| |].
  { intros name file Hl. rewrite Hempty, lookup_empty in Hl. discriminate. }
  assert (csv_rows (results_dir w) = []) as Hnil
    by (rewrite Hempty; unfold csv_rows; rewrite map_to_list_empty; reflexivity).
  rewrite Hnil in Hrows. cbn [app] in Hrows.
  eexists. split; [apply aggregate_results_readable, Hread|].
  unfold count_entries. cbv zeta. cbn [total_words success_words error_words].
  pose proof (filter_bool_split counts_as_success
                (csv_rows (results_dir (write_batches env written w)))) as Hs.
  assert (length (filter (fun e => counts_as_success e = false)
                    (csv_rows (results_dir (write_batches env written w))))
          = sum_list ((fun x : Z * list entry =>
                         length (filter (fun e : entry => reported_error e = true)
                                        x.2)) <$> written)) as He
    by (rewrite Hrows; apply sum_written_errors).
  assert (length (csv_rows (results_dir (write_batches env written w)))
          = sum_list ((length ∘ snd) <$> written)) as Ht
    by (rewrite Hrows; apply sum_written_rows).
  split; [rewrite Ht; reflexivity|]. split; lia.
Qed.




(** * Further properties *)

(** ** The parser *)

Lemma line_count_error_distinct :
  format_error <> lit "解析错误: " ++ lit "响应行数不足"
  /\ lit "未在响应中找到对应结果" <> lit "解析错误: " ++ lit "响应行数不足".
Proof. split; refine (bool_decide_unpack _ _); vm_compute; exact I. Qed.

Lemma format_error_not_missing : format_error <> lit "未在响应中找到对应结果".
Proof. refine (bool_decide_unpack _ _); vm_compute; exact I. Qed.

(** X1: the error text of a record of [parse_response] is the format error
    of a block or the missing-word error; the line-count error
    [响应行数不足] of the source is never produced, the pattern having
    already refused every block of fewer than six lines. *)
Theorem parse_response_error_texts (text : str) (batch : list str) :
  exists entries,
    parse_response text batch = Return entries
    /\ forall (e : entry) (err : str),
         e ∈ entries -> e !! "error" = Some err ->
         (err = lit "解析错误: 响应格式不符合预期"
          \/ err = lit "未在响应中找到对应结果")
         /\ err <> lit "解析错误: " ++ lit "响应行数不足".
Proof.
  rewrite parse_response_spec. eexists. split; [reflexivity|].
  intros e err He Herr.
  destruct line_count_error_distinct as [D1 D2].
  apply elem_of_app in He as [He|He].
  - apply elem_of_imap_entries in He as (i & raw & _ & ->).
    rewrite entry_of_block_error in Herr.
    destruct (match_ _ _); [discriminate|]. injection Herr as <-.
    split; [left; reflexivity|exact D1].
  - apply list_elem_of_fmap in He as (w & -> & _).
    rewrite missing_entry_eq in Herr.
    destruct (error_record_fields w missing_error (take 200 text ++ lit "..."))
      as (_ & E & _).
    rewrite E in Herr. injection Herr as <-.
    split; [right; reflexivity|exact D2].
Qed.

(** X2: the records come in the order of the reply: the record at a block
    position below the length of the batch carries the batch word of that
    position; there are at least as many records as blocks and at most one
    more per batch word; and when the reply has at least as many blocks as
    the batch has words there is exactly one record per block, none of them
    a missing-word record. *)
Theorem parse_response_order_and_count (text : str) (batch : list str) :
  exists entries,
    parse_response text batch = Return entries
    /\ (forall (i : nat) (w : str),
          (i < length (split [LF; LF] (strip text)))%nat ->
          batch !! i = Some w ->
          exists e : entry, entries !! i = Some e /\ e !! "word" = Some w)
    /\ (length (split [LF; LF] (strip text)) <= length entries
        <= length (split [LF; LF] (strip text)) + length batch)%nat
    /\ ((length batch <= length (split [LF; LF] (strip text)))%nat ->
        length entries = length (split [LF; LF] (strip text))
        /\ forall e : entry,
             e ∈ entries ->
             e !! "error" <> Some (lit "未在响应中找到对应结果")).
Proof.
  rewrite parse_response_spec. eexists. split; [reflexivity|].
  set (raws := split [LF; LF] (strip text)).
  set (missing := filter (fun w => w ∉ covered_words batch (length raws)) batch).
  split; [|split].
  - intros i w Hi Hw. destruct (lookup_lt_is_Some_2 raws i Hi) as [raw Hraw].
    exists (entry_of_block batch i raw). split.
    + rewrite lookup_app_l by (rewrite length_imap; exact Hi).
      rewrite list_lookup_imap, Hraw. reflexivity.
    + rewrite entry_of_block_word. unfold word_of. rewrite Hw. reflexivity.
  - rewrite length_app, length_imap, length_fmap.
    pose proof (length_filter (fun w => w ∉ covered_words batch (length raws))
                  batch) as Hf.
    fold missing in Hf. lia.
  - intros Hlen.
    assert (missing = []) as ->.
    { subst missing. apply elem_of_nil_inv. intros w Hw.
      apply list_elem_of_filter in Hw as [Hnot Hw]. apply Hnot.
      apply list_elem_of_lookup in Hw as [i Hi].
      apply elem_of_covered_words. exists i. split.
      - apply lookup_lt_Some in Hi. lia.
      - unfold word_of. rewrite Hi. reflexivity. }
    rewrite fmap_nil, app_nil_r. split; [apply length_imap|].
    intros e He. apply elem_of_imap_entries in He as (i & raw & _ & ->).
    rewrite entry_of_block_error.
    destruct (match_ _ _); [discriminate|].
    intros E. apply (inj Some) in E. exact (format_error_not_missing E).
Qed.

(** Every piece [split] cuts is a stretch of the text. *)
Lemma split_go_infix sep s : forall skip cur piece,
  (skip <> 0%nat -> cur = []) ->
  piece ∈ split_go sep skip cur s ->
  infix_of piece (reverse cur ++ s).
Proof.
  induction s as [|c s IH]; intros skip cur piece Hskip Hin.
  - cbn [split_go] in Hin. apply list_elem_of_singleton in Hin as ->.
    exists [], []. rewrite !app_nil_r. reflexivity.
  - cbn [split_go] in Hin. destruct skip as [|k].
    + destruct (startswith sep (c :: s)).
      * apply elem_of_cons in Hin as [->|Hin].
        -- exists [], (c :: s). reflexivity.
        -- apply IH in Hin as (a & b & E); [|reflexivity].
           rewrite reverse_nil, app_nil_l in E.
           exists (reverse cur ++ c :: a), b. rewrite E, <- app_assoc. reflexivity.
      * apply IH in Hin as (a & b & E); [|congruence].
        exists a, b. rewrite <- E, reverse_cons, <- app_assoc. reflexivity.
    + rewrite (Hskip ltac:(discriminate)) in *.
      apply IH in Hin as (a & b & E); [|reflexivity].
      rewrite reverse_nil, app_nil_l in *.
      exists (c :: a), b. rewrite E. reflexivity.
Qed.

Lemma infix_of_trans r s t : infix_of r s -> infix_of s t -> infix_of r t.
Proof.
  intros (a & b & ->) (a' & b' & ->). exists (a' ++ a), (b ++ b').
  rewrite <- !app_assoc. reflexivity.
Qed.

Lemma strip_trimmed s : trimmed (strip s).
Proof.
  unfold strip. split; intros c Hc.
  - destruct (rstrip_prefix (lstrip s)) as [b Eb].
    apply (lstrip_head s). rewrite Eb.
    destruct (rstrip (lstrip s)); [discriminate|exact Hc].
  - unfold rstrip in Hc. rewrite last_reverse in Hc.
    eapply lstrip_head, Hc.
Qed.

(** X3: the [raw_response] of the record of a block quotes the reply: it is
    a contiguous stretch of the reply text, without whitespace at either
    end; the [raw_response] of a missing-word record is the first 200
    characters of the reply followed by three dots. *)
Theorem parse_response_raw_response (text : str) (batch : list str) :
  exists entries,
    parse_response text batch = Return entries
    /\ (forall (i : nat) (e : entry),
          (i < length (split [LF; LF] (strip text)))%nat ->
          entries !! i = Some e ->
          exists r, e !! "raw_response" = Some r
                    /\ infix_of r text /\ trimmed r)
    /\ (forall (i : nat) (e : entry),
          (length (split [LF; LF] (strip text)) <= i)%nat ->
          entries !! i = Some e ->
          e !! "raw_response" = Some (take 200 text ++ lit "...")).
Proof.
  rewrite parse_response_spec. eexists. split; [reflexivity|].
  set (raws := split [LF; LF] (strip text)). split.
  - intros i e Hi He.
    rewrite lookup_app_l in He by (rewrite length_imap; exact Hi).
    rewrite list_lookup_imap in He.
    destruct (raws !! i) as [raw|] eqn:Hraw; [|discriminate].
    injection He as <-. exists (strip raw). split; [|split].
    + unfold entry_of_block. destruct (match_ _ _); reflexivity.
    + apply (infix_of_trans _ raw); [apply strip_infix|].
      apply (infix_of_trans _ (strip text)); [|apply strip_infix].
      apply list_elem_of_lookup_2 in Hraw.
      apply (split_go_infix [LF; LF] (strip text) 0 []) in Hraw; [|congruence].
      exact Hraw.
    + apply strip_trimmed.
  - intros i e Hi He.
    rewrite lookup_app_r in He by (rewrite length_imap; exact Hi).
    apply list_elem_of_lookup_2, list_elem_of_fmap in He as (w & -> & _).
    rewrite missing_entry_eq.
    apply (error_record_fields w missing_error (take 200 text ++ lit "...")).
Qed.

(** ** The retrying model call *)

Section ProcessBatchFacts.

Variable MAX_RETRIES : Z.
Variable api : nat -> str -> outcome (option str).
Variable future_repr : nat -> str.

Local Abbreviation process_batch' := (process_batch MAX_RETRIES api future_repr).

Lemma with_calls_log_call w batch_num prompt calls :
  with_calls (log_call batch_num prompt w) calls
  = with_calls w ((batch_num, prompt) :: calls).
Proof.
  unfold with_calls, log_call. cbn [progress_file results_dir errors_dir
    final_results api_calls pacing_sleeps].
  rewrite <- app_assoc. reflexivity.
Qed.

(** How the retry loop ends: with the content of the first attempt that
    returns, or with a [RetryError] after the last attempt raised. *)
Lemma retry_inv batch batch_num more : forall w r w',
  retry api future_repr more batch batch_num w = (r, w') ->
  (exists (k : nat) (content : option str),
     (k <= more)%nat
     /\ (forall j, (j < k)%nat ->
                   exists e, api (length (api_calls w) + j)%nat
                                 (build_prompt batch) = Raise e)
     /\ api (length (api_calls w) + k)%nat (build_prompt batch) = Return content
     /\ r = Return content
     /\ w' = with_calls w (replicate (S k) (batch_num, build_prompt batch)))
  \/ ((forall j, (j <= more)%nat ->
                 exists e, api (length (api_calls w) + j)%nat
                               (build_prompt batch) = Raise e)
      /\ r = Raise (RetryError (future_repr (length (api_calls w) + S more)))
      /\ w' = with_calls w (replicate (S more) (batch_num, build_prompt batch))).
Proof.
  induction more as [|more IH]; intros w r w'; cbn [retry]; unfold attempt;
    destruct (api (length (api_calls w)) (build_prompt batch))
      as [content|e] eqn:Ea.
  - intros [= <- <-]. left. exists 0%nat, content. rewrite Nat.add_0_r.
    repeat split; [lia|intros j Hj; lia|exact Ea].
  - intros [= <- <-]. right. split; [|split].
    + intros j Hj. assert (j = 0%nat) as -> by lia. rewrite Nat.add_0_r. eauto.
    + cbn [log_call api_calls]. rewrite length_app. cbn [length].
      reflexivity.
    + reflexivity.
  - intros [= <- <-]. left. exists 0%nat, content. rewrite Nat.add_0_r.
    repeat split; [lia|intros j Hj; lia|exact Ea].
  - intros H. apply IH in H. clear IH.
    cbn [log_call api_calls] in H. rewrite length_app in H. cbn [length] in H.
    change (World (progress_file w) (results_dir w) (errors_dir w)
              (final_results w)
              (api_calls w ++ [(batch_num, build_prompt batch)])
              (pacing_sleeps w))
      with (log_call batch_num (build_prompt batch) w) in H.
    rewrite !with_calls_log_call in H.
    destruct H as [(k & content & Hk & Hfail & Hok & -> & ->)|(Hfail & -> & ->)].
    + left. exists (S k), content. repeat split.
      * lia.
      * intros j Hj. destruct j as [|j].
        -- rewrite Nat.add_0_r. eauto.
        -- destruct (Hfail j ltac:(lia)) as [e' He'].
           exists e'. rewrite <- He'. f_equal. lia.
      * rewrite <- Hok. f_equal. lia.
      * apply with_calls_log_call.
    + right. split; [|split].
      * intros j Hj. destruct j as [|j].
        -- rewrite Nat.add_0_r. eauto.
        -- destruct (Hfail j ltac:(lia)) as [e' He'].
           exists e'. rewrite <- He'. f_equal. lia.
      * do 3 f_equal. lia.
      * reflexivity.
Qed.

(** The same for [process_batch], with its [max 1 MAX_RETRIES] attempts. *)
Lemma process_batch_inv batch batch_num w r w' :
  process_batch' batch batch_num w = (r, w') ->
  (exists (k : nat) (content : option str),
     (k < Z.to_nat (Z.max 1 MAX_RETRIES))%nat
     /\ (forall j, (j < k)%nat ->
                   exists e, api (length (api_calls w) + j)%nat
                                 (build_prompt batch) = Raise e)
     /\ api (length (api_calls w) + k)%nat (build_prompt batch) = Return content
     /\ r = Return content
     /\ w' = with_calls w (replicate (S k) (batch_num, build_prompt batch)))
  \/ ((forall j, (j < Z.to_nat (Z.max 1 MAX_RETRIES))%nat ->
                 exists e, api (length (api_calls w) + j)%nat
                               (build_prompt batch) = Raise e)
      /\ r = Raise (RetryError
                      (future_repr (length (api_calls w)
                                    + Z.to_nat (Z.max 1 MAX_RETRIES))))
      /\ w' = with_calls w (replicate (Z.to_nat (Z.max 1 MAX_RETRIES))
                                      (batch_num, build_prompt batch))).
Proof.
  unfold process_batch. intros E.
  replace (Z.to_nat (Z.max 1 MAX_RETRIES))
    with (S (Z.to_nat (MAX_RETRIES - 1))) by lia.
  apply retry_inv in E
    as [(k & content & Hk & Hfail & Hok & -> & ->)|(Hall & -> & ->)].
  - left. exists k, content. repeat split; [lia|exact Hfail|exact Hok].
  - right. repeat split. intros j Hj. apply Hall. lia.
Qed.

(** X4: [process_batch] returns the content of the first attempt that
    returns: when the first [k] attempts raise and the next one, still
    within the [max 1 MAX_RETRIES] attempts allowed, returns, the result is
    that content after exactly [k + 1] calls, and no file has been
    written: of the world, only the call log has grown. *)
Theorem process_batch_first_success
    (batch : list str) (batch_num : Z) (w : world) (k : nat)
    (content : option str) :
  (k < Z.to_nat (Z.max 1 MAX_RETRIES))%nat ->
  (forall j, (j < k)%nat ->
             exists e, api (length (api_calls w) + j)%nat (build_prompt batch)
                       = Raise e) ->
  api (length (api_calls w) + k)%nat (build_prompt batch) = Return content ->
  process_batch' batch batch_num w
  = (Return content,
     with_calls w (replicate (S k) (batch_num, build_prompt batch))).
Proof.
  intros Hk Hfail Hok. unfold process_batch.
  destruct (retry api future_repr (Z.to_nat (MAX_RETRIES - 1)) batch batch_num w)
    as [r w'] eqn:E.
  apply retry_inv in E
    as [(k' & content' & Hk' & Hfail' & Hok' & -> & ->)|(Hall & _ & _)].
  - assert (k' = k) as ->.
    { destruct (Nat.lt_trichotomy k' k) as [Hlt|[Heq|Hgt]]; [|exact Heq|].
      - destruct (Hfail k' Hlt) as [e He]. congruence.
      - destruct (Hfail' k Hgt) as [e He]. congruence. }
    congruence.
  - destruct (Hall k ltac:(lia)) as [e He]. congruence.
Qed.

(** X5: whatever the provider does, [process_batch] makes at least one and
    at most [max 1 MAX_RETRIES] calls, each for the batch number and the
    prompt of the batch, and writes no file: of the world, only the call
    log grows. *)
Theorem process_batch_calls (batch : list str) (batch_num : Z) (w : world) :
  exists k : nat,
    (1 <= k <= Z.to_nat (Z.max 1 MAX_RETRIES))%nat
    /\ (process_batch' batch batch_num w).2
       = with_calls w (replicate k (batch_num, build_prompt batch)).
Proof.
  unfold process_batch.
  destruct (retry api future_repr (Z.to_nat (MAX_RETRIES - 1)) batch batch_num w)
    as [r w'] eqn:E.
  apply retry_inv in E as [(k & content & Hk & _ & _ & _ & ->)|(_ & _ & ->)].
  - exists (S k). split; [lia|reflexivity].
  - exists (S (Z.to_nat (MAX_RETRIES - 1))). split; [lia|reflexivity].
Qed.

(** X6: [process_batch] raises only when every one of the
    [max 1 MAX_RETRIES] attempts raised, and what it raises is then
    tenacity's [RetryError], never the exception of the provider nor the
    [DeepSeek API调用失败] exception of the attempt. *)
Theorem process_batch_raises_retry_error
    (batch : list str) (batch_num : Z) (w : world) (e : exn) :
  (process_batch' batch batch_num w).1 = Raise e ->
  e = RetryError
        (future_repr (length (api_calls w) + Z.to_nat (Z.max 1 MAX_RETRIES)))
  /\ (forall j, (j < Z.to_nat (Z.max 1 MAX_RETRIES))%nat ->
                exists e', api (length (api_calls w) + j)%nat
                               (build_prompt batch) = Raise e')
  /\ length (api_calls (process_batch' batch batch_num w).2)
     = (length (api_calls w) + Z.to_nat (Z.max 1 MAX_RETRIES))%nat.
Proof.
  unfold process_batch.
  destruct (retry api future_repr (Z.to_nat (MAX_RETRIES - 1)) batch batch_num w)
    as [r w'] eqn:E.
  apply retry_inv in E as [(k & content & _ & _ & _ & -> & _)|(Hall & -> & ->)];
    cbn [fst snd]; [discriminate|].
  intros [= <-].
  replace (Z.to_nat (Z.max 1 MAX_RETRIES))
    with (S (Z.to_nat (MAX_RETRIES - 1))) by lia.
  split; [reflexivity|]. split.
  - intros j Hj. apply Hall. lia.
  - unfold with_calls. cbn [api_calls]. rewrite length_app, length_replicate.
    reflexivity.
Qed.

End ProcessBatchFacts.

(** An instance of [process_batch_first_success]: two failed attempts, then
    a reply, three attempts allowed. *)
Lemma process_batch_first_success_witness :
  process_batch 3 (api_flaky 2 sample_block) sample_future_repr
    [lit "摸鱼"] 1 (world_with None)
  = (Return (Some sample_block),
     with_calls (world_with None)
       (replicate 3 (1, build_prompt [lit "摸鱼"]))).
Proof.
  apply (process_batch_first_success 3 (api_flaky 2 sample_block)
           sample_future_repr [lit "摸鱼"] 1 (world_with None) 2
           (Some sample_block)).
  - vm_compute. lia.
  - intros j Hj. unfold api_flaky. cbn [world_with api_calls length Nat.add].
    destruct (Nat.ltb_spec j 2) as [_|H]; [eauto|lia].
  - reflexivity.
Defined.

(** An instance of [process_batch_raises_retry_error]: a provider that is
    down, three attempts allowed. *)
Lemma process_batch_raises_retry_error_witness :
  length
    (api_calls
       (process_batch 3 api_down sample_future_repr [lit "摸鱼"] 1
          (world_with None)).2)
  = (length (api_calls (world_with None)) + Z.to_nat (Z.max 1 3))%nat.
Proof.
  destruct (process_batch_raises_retry_error 3 api_down sample_future_repr
              [lit "摸鱼"] 1 (world_with None)
              (RetryError (sample_future_repr 3))) as (_ & _ & H).
  - reflexivity.
  - exact H.
Defined.

(** ** A turn of the loop, by the result of the call *)

Section MainFacts.

Variable BATCH_SIZE : Z.
Variable MAX_RETRIES : Z.
Variable env : pandas.
Variable api : nat -> str -> outcome (option str).
Variable future_repr : nat -> str.

Local Abbreviation process_batch' := (process_batch MAX_RETRIES api future_repr).
Local Abbreviation batch_turn' :=
  (batch_turn BATCH_SIZE MAX_RETRIES env api future_repr).
Local Abbreviation main' :=
  (main BATCH_SIZE MAX_RETRIES env api future_repr).

(** [error_count > 0] says that some record has an error. *)
Lemma error_count_pos (entries : list entry) :
  (0 <? length entries
        - length (filter (fun e => has_error e = false) entries))%nat
  = bool_decide (Exists (fun e : entry => is_Some (e !! "error")) entries).
Proof.
  induction entries as [|e entries IH]; [reflexivity|].
  rewrite filter_cons.
  pose proof (length_filter (fun e => has_error e = false) entries) as Hle.
  destruct (decide (has_error e = false)) as [He|He].
  - unfold has_error in He. apply bool_decide_eq_false in He.
    cbn [length].
    replace (S (length entries) - S (length (filter _ entries)))%nat
      with (length entries
            - length (filter (fun e => has_error e = false) entries))%nat
      by lia.
    rewrite IH. apply bool_decide_ext. rewrite Exists_cons. tauto.
  - apply not_false_iff_true in He. unfold has_error in He.
    apply bool_decide_eq_true in He.
    rewrite (bool_decide_eq_true_2 (Exists _ _)) by (left; exact He).
    apply Nat.ltb_lt. cbn [length]. lia.
Qed.

Lemma filter_has_error (entries : list entry) :
  filter (fun e => has_error e = true) entries
  = filter (fun e : entry => is_Some (e !! "error")) entries.
Proof.
  apply list_filter_iff. intros e. unfold has_error.
  rewrite bool_decide_eq_true. reflexivity.
Qed.

(** What an attempted turn does, branch by branch, given what
    [process_batch] did: the call returned a reply whose records were saved;
    or [save_results] failed to encode them; or the call returned no
    content; or it raised. *)
Lemma batch_turn_outcome words (processed_batches : gset Z) p w i r w1 :
  let batch_num := i / BATCH_SIZE + 1 in
  let batch := slice words i (i + BATCH_SIZE) in
  batch_num ∉ processed_batches ->
  process_batch' batch batch_num w = (r, w1) ->
  let st := batch_turn' words processed_batches (p, w) i in
  let failed (e : exn) :=
    processed st.1 = processed p
    /\ errors_dir st.2
       = <[errors_name batch_num :=
             (fun w0 : str =>
                (list_to_map [("word", w0); ("error", str_exn e)] : entry))
             <$> batch]> (errors_dir w1) in
  (api_calls st.2 = api_calls w1
   /\ pacing_sleeps st.2 = S (pacing_sleeps w1)
   /\ final_results st.2 = final_results w1
   /\ progress_file st.2 = Some st.1
   /\ last_index st.1 = i + BATCH_SIZE
   /\ batches st.1 = batches p ++ [batch_num])
  /\ match r with
     | Return (Some response_text) =>
         forall entries,
           parse_response response_text batch = Return entries ->
           let df := DataFrame ((fun e : entry => Val <$> e) <$> entries) in
           (encodable_entries entries ->
            processed st.1 = processed p + Z.of_nat (length batch)
            /\ results_dir st.2
               = <[results_name batch_num := to_csv env df]> (results_dir w1)
            /\ errors_dir st.2
               = if bool_decide
                      (Exists (fun e : entry => is_Some (e !! "error")) entries)
                 then <[errors_name batch_num :=
                          filter (fun e : entry => is_Some (e !! "error"))
                                 entries]> (errors_dir w1)
                 else errors_dir w1)
           /\ (~ encodable_entries entries ->
               failed (UnicodeEncodeError (encode_error env df))
               /\ results_dir st.2
                  = <[results_name batch_num := read_partial env df]>
                      (results_dir w1))
     | Return None =>
         failed (AttributeError
                   (lit "'NoneType' object has no attribute 'strip'"))
         /\ results_dir st.2 = results_dir w1
     | Raise e => failed e /\ results_dir st.2 = results_dir w1
     end.
Proof.
  intros batch_num batch Hn Ep st failed. subst st failed.
  unfold batch_turn. rewrite decide_False by exact Hn.
  fold batch_num batch. rewrite Ep.
  destruct r as [[response_text|]|e]; cbn [mbind outcome_bind parse_reply].
  - destruct (parse_response response_text batch) as [entries|e] eqn:Eparse.
    2:{ rewrite parse_response_spec in Eparse. discriminate. }
    unfold batch_succeeded, save_results. cbv zeta.
    rewrite error_count_pos, filter_has_error.
    destruct (decide (encodable_entries entries)) as [Henc|Henc].
    + rewrite (bool_decide_eq_true_2 _ Henc).
      cbv beta zeta iota. cbn [fst snd].
      split.
      { destruct (bool_decide (Exists _ _)); repeat split. }
      intros entries' [= <-]. split; [|intros H; contradiction].
      intros _. destruct (bool_decide (Exists _ _)); repeat split.
    + rewrite (bool_decide_eq_false_2 _ Henc).
      unfold batch_failed. cbv beta zeta iota. cbn [fst snd].
      split; [repeat split|].
      intros entries' [= <-]. split; [intros H; contradiction|].
      intros _. repeat split.
  - unfold batch_failed. cbv beta zeta iota. cbn [fst snd]. repeat split.
  - unfold batch_failed. cbv beta zeta iota. cbn [fst snd]. repeat split.
Qed.

(** X7: a turn whose call returned a reply leaves the result artifacts of
    the other batches alone. When the texts of the parsed records can all be
    encoded, it writes the result artifact of the batch, which for plain
    records reads back with one row per record, error records included; it
    writes the error artifact, holding exactly the error records in order,
    only when some record has an error, and otherwise leaves the error
    directory as it is, an older error artifact of the batch included; and
    it adds the length of the batch to the [processed] counter. When some
    text cannot be encoded, [save_results] raises inside the [try]: the
    result artifact is what the failed write left, the error artifact gets
    one record per word of the batch with the text of the
    [UnicodeEncodeError], and [processed] stays as it was. *)
Theorem succeeded_batch_artifacts
    (words : list str) (processed_batches : gset Z)
    (p : progress) (w : world) (i : Z) (response_text : str) :
  let batch_num := i / BATCH_SIZE + 1 in
  let batch := slice words i (i + BATCH_SIZE) in
  batch_num ∉ processed_batches ->
  (process_batch' batch batch_num w).1 = Return (Some response_text) ->
  let st := batch_turn' words processed_batches (p, w) i in
  exists entries : list entry,
    let df := DataFrame ((fun e : entry => Val <$> e) <$> entries) in
    parse_response response_text batch = Return entries
    /\ (forall name, name <> results_name batch_num ->
                     results_dir st.2 !! name = results_dir w !! name)
    /\ (encodable_entries entries ->
        results_dir st.2 !! results_name batch_num = Some (to_csv env df)
        /\ (plain_entries entries ->
            exists rows : list record,
              to_csv env df = Return rows /\ length rows = length entries)
        /\ (Exists (fun e : entry => is_Some (e !! "error")) entries ->
            errors_dir st.2
            = <[errors_name batch_num :=
                  filter (fun e : entry => is_Some (e !! "error")) entries]>
                (errors_dir w))
        /\ (Forall (fun e : entry => e !! "error" = None) entries ->
            errors_dir st.2 = errors_dir w)
        /\ processed st.1 = processed p + Z.of_nat (length batch))
    /\ (~ encodable_entries entries ->
        results_dir st.2 !! results_name batch_num = Some (read_partial env df)
        /\ errors_dir st.2
           = <[errors_name batch_num :=
                 (fun w0 : str =>
                    (list_to_map
                       [("word", w0);
                        ("error",
                         str_exn (UnicodeEncodeError (encode_error env df)))]
                     : entry)) <$> batch]> (errors_dir w)
        /\ processed st.1 = processed p).
Proof.
  intros batch_num batch Hn Hr st.
  destruct (process_batch' batch batch_num w) as [r w1] eqn:Ep.
  cbn [fst] in Hr. subst r.
  pose proof Ep as Hframe.
  apply retry_frame in Hframe as (_ & Hres & Herr & _).
  destruct (batch_turn_outcome words processed_batches p w i _ w1 Hn Ep)
    as [_ Hcase].
  fold batch_num batch st in Hcase.
  eexists. cbv zeta. split; [apply parse_response_spec|].
  destruct (Hcase _ (parse_response_spec response_text batch)) as [Hok Hbad].
  set (entries := imap _ _ ++ _) in *.
  split; [|split].
  - intros name Hname.
    destruct (decide (encodable_entries entries)) as [Henc|Henc].
    + destruct (Hok Henc) as (_ & -> & _).
      rewrite lookup_insert_ne by congruence. rewrite Hres. reflexivity.
    + destruct (Hbad Henc) as (_ & ->).
      rewrite lookup_insert_ne by congruence. rewrite Hres. reflexivity.
  - intros Henc. destruct (Hok Henc) as (Hp & Hr & He).
    split; [rewrite Hr; apply lookup_insert_eq|].
    split.
    { intros Hplain. eexists.
      split; [apply to_csv_plain, Hplain|apply saved_rows]. }
    split; [|split; [|exact Hp]].
    + intros Hex. rewrite He, (bool_decide_eq_true_2 _ Hex), Herr. reflexivity.
    + intros Hall. rewrite He, bool_decide_eq_false_2; [exact Herr|].
      rewrite Exists_exists. intros (e & Hin & [v Hv]).
      rewrite Forall_forall in Hall. rewrite (Hall e Hin) in Hv. discriminate.
  - intros Henc. destruct (Hbad Henc) as ((Hp & He) & Hr).
    split; [rewrite Hr; apply lookup_insert_eq|].
    split; [rewrite He, Herr; reflexivity|exact Hp].
Qed.

(** ** The whole loop *)

Lemma load_progress_saved w p : progress_file w = Some p -> load_progress w = p.
Proof. unfold load_progress. intros ->. reflexivity. Qed.

(** Over any offsets, the loop sleeps once per attempted offset, appends the
    batch numbers of the attempted offsets in order, and calls the provider
    batch by batch, between one and [max 1 MAX_RETRIES] times each. *)
Lemma loop_accounting words (processed_batches : gset Z) offsets : forall st,
  load_progress st.2 = st.1 ->
  let todo := filter (fun i => i / BATCH_SIZE + 1 ∉ processed_batches) offsets in
  let st' := foldl (batch_turn' words processed_batches) st offsets in
  load_progress st'.2 = st'.1
  /\ pacing_sleeps st'.2 = (pacing_sleeps st.2 + length todo)%nat
  /\ final_results st'.2 = final_results st.2
  /\ batches st'.1 = batches st.1 ++ ((fun i => i / BATCH_SIZE + 1) <$> todo)
  /\ exists ks : list nat,
       length ks = length todo
       /\ Forall (fun k => (1 <= k <= Z.to_nat (Z.max 1 MAX_RETRIES))%nat) ks
       /\ api_calls st'.2
          = api_calls st.2 ++ calls_for BATCH_SIZE words todo ks.
Proof.
  induction offsets as [|i offsets IH]; intros st HJ; cbn [foldl].
  - rewrite filter_nil. cbn [length fmap list_fmap]. rewrite Nat.add_0_r, app_nil_r.
    repeat split; [exact HJ|]. exists []. repeat split; [constructor|].
    unfold calls_for. cbn [zip_with mjoin list_join]. rewrite app_nil_r.
    reflexivity.
  - rewrite filter_cons.
    destruct (decide (i / BATCH_SIZE + 1 ∉ processed_batches)) as [Hn|Hin].
    + destruct st as [p w].
      destruct (process_batch' (slice words i (i + BATCH_SIZE))
                  (i / BATCH_SIZE + 1) w) as [r w1] eqn:Ep.
      destruct (batch_turn_outcome words processed_batches p w i r w1 Hn Ep)
        as [(Hc & Hs & Hf & Hp & _ & Hb) _].
      assert (exists k : nat,
                 (1 <= k <= Z.to_nat (Z.max 1 MAX_RETRIES))%nat
                 /\ w1 = with_calls w
                           (replicate k (i / BATCH_SIZE + 1,
                                         build_prompt
                                           (slice words i (i + BATCH_SIZE)))))
        as (k & Hk & ->).
      { apply process_batch_inv in Ep
          as [(k & content & Hk & _ & _ & _ & ->)|(_ & _ & ->)].
        - exists (S k). split; [lia|reflexivity].
        - eexists. split; [|reflexivity]. lia. }
      destruct (IH (batch_turn' words processed_batches (p, w) i)
                  (load_progress_saved _ _ Hp))
        as (HJ' & Hs' & Hf' & Hb' & ks & Hlen & Hks & Hc').
      cbn [fst snd] in *. cbn [length fmap list_fmap].
      split; [exact HJ'|]. split; [rewrite Hs', Hs; cbn [with_calls pacing_sleeps]; lia|].
      split; [rewrite Hf', Hf; reflexivity|].
      split; [rewrite Hb', Hb, <- app_assoc; reflexivity|].
      exists (k :: ks). split; [cbn [length]; lia|].
      split; [constructor; [exact Hk|exact Hks]|].
      rewrite Hc', Hc. unfold calls_for, with_calls.
      cbn [api_calls zip_with mjoin list_join]. rewrite <- !app_assoc.
      reflexivity.
    + apply dec_stable in Hin.
      rewrite batch_turn_skip by exact Hin. apply IH, HJ.
Qed.

(** X8: over the offsets of the loop, a run sleeps once for each offset
    whose batch number was not recorded as done when the run started, adds
    exactly the batch numbers of those offsets, in order, to the recorded
    batches, and calls the provider for them batch by batch in that order,
    each batch between one and [max 1 MAX_RETRIES] times, with the batch
    number and the prompt of its slice of the word list. *)
Theorem main_accounting (words : list str) (w : world) (offsets : list Z) :
  range (last_index (load_progress w)) (Z.of_nat (length words)) BATCH_SIZE
  = Return offsets ->
  let processed_batches : gset Z := list_to_set (batches (load_progress w)) in
  let todo := filter (fun i => i / BATCH_SIZE + 1 ∉ processed_batches) offsets in
  let w' := (main' words w).2 in
  pacing_sleeps w' = (pacing_sleeps w + length todo)%nat
  /\ batches (load_progress w')
     = batches (load_progress w) ++ ((fun i => i / BATCH_SIZE + 1) <$> todo)
  /\ exists ks : list nat,
       length ks = length todo
       /\ Forall (fun k => (1 <= k <= Z.to_nat (Z.max 1 MAX_RETRIES))%nat) ks
       /\ api_calls w' = api_calls w ++ calls_for BATCH_SIZE words todo ks.
Proof.
  intros Hrange processed_batches todo w'. subst w'. unfold main.
  rewrite Hrange. fold processed_batches.
  destruct (loop_accounting words processed_batches offsets
              (load_progress w, w) eq_refl)
    as (HJ & Hs & _ & Hb & ks & Hlen & Hks & Hc).
  fold todo in Hs, Hb, Hlen, Hc.
  destruct (foldl _ _ offsets) as [p w1]. cbn [fst snd] in *.
  destruct (aggregate_results_frame w1) as (Hp1 & _ & _ & Ha1 & Hs1).
  assert (load_progress (aggregate_results w1).2 = p) as HJ1
    by (unfold load_progress in *; rewrite Hp1; exact HJ).
  destruct (Z.of_nat (length words) <=? last_index p); cbn [snd];
    rewrite ?HJ1, ?Ha1, ?Hs1, ?HJ;
    (split; [exact Hs|]); (split; [exact Hb|]);
    exists ks; repeat split; assumption.
Qed.

End MainFacts.

(** ** Slices and offsets *)

(** A slice with bounds in order and a lower bound that is not negative. *)
Lemma slice_take_drop {A} (l : list A) lo hi :
  0 <= lo <= hi ->
  slice l lo hi = take (Z.to_nat (hi - lo)) (drop (Z.to_nat lo) l).
Proof.
  intros H. unfold slice, slice_bound. cbv zeta.
  rewrite (proj2 (Z.ltb_ge lo 0)) by lia.
  rewrite (proj2 (Z.ltb_ge hi 0)) by lia.
  destruct (Z.le_gt_cases (Z.of_nat (length l)) lo) as [Hlo|Hlo].
  - rewrite !(drop_ge l) by lia. rewrite !take_nil. reflexivity.
  - rewrite (Z.min_l lo) by lia.
    destruct (Z.le_gt_cases hi (Z.of_nat (length l))) as [Hhi|Hhi].
    + rewrite (Z.min_l hi) by lia. reflexivity.
    + rewrite (Z.min_r hi) by lia.
      rewrite !take_ge by (rewrite length_drop; lia). reflexivity.
Qed.

Lemma slice_length {A} (l : list A) lo hi :
  0 <= lo <= hi ->
  Z.of_nat (length (slice l lo hi))
  = Z.max 0 (Z.min hi (Z.of_nat (length l)) - lo).
Proof.
  intros H. rewrite slice_take_drop by exact H.
  rewrite length_take, length_drop. lia.
Qed.

(** [range] over nothing: a positive step from at or past the stop, or a
    negative step from at or before it. *)
Lemma range_empty start stop step :
  (0 < step /\ stop <= start) \/ (step < 0 /\ start <= stop) ->
  range start stop step = Return [].
Proof.
  intros H. unfold range.
  rewrite (proj2 (Z.eqb_neq step 0)) by lia. cbv zeta.
  destruct H as [[Hs H]|[Hs H]].
  - rewrite (proj2 (Z.ltb_lt 0 step)) by exact Hs.
    assert ((stop - start + step - 1) / step < 1)
      by (apply Z.div_lt_upper_bound; lia).
    replace (Z.to_nat _) with 0%nat by lia. reflexivity.
  - rewrite (proj2 (Z.ltb_ge 0 step)) by lia.
    assert ((start - stop - step - 1) / (- step) < 1)
      by (apply Z.div_lt_upper_bound; lia).
    replace (Z.to_nat _) with 0%nat by lia. reflexivity.
Qed.

(** The slices at offsets [k], [k + step], ... of which [n] lie below the
    length put the list back together from position [k] on. *)
Lemma slices_join {A} (l : list A) step : forall (n : nat) (k : Z),
  0 < step -> 0 <= k ->
  (forall j : nat, (j < n)%nat <-> k + Z.of_nat j * step < Z.of_nat (length l)) ->
  mjoin ((fun i => slice l i (i + step))
           <$> ((fun j : nat => k + Z.of_nat j * step) <$> seq 0 n))
  = drop (Z.to_nat k) l.
Proof.
  induction n as [|n IH]; intros k Hstep Hk Hn.
  - cbn [seq fmap list_fmap mjoin list_join]. symmetry. apply drop_ge.
    pose proof (proj2 (Hn 0%nat)) as H0. lia.
  - cbn [seq fmap list_fmap mjoin list_join].
    assert ((fun j : nat => k + Z.of_nat j * step) <$> seq 1 n
            = (fun j : nat => (k + step) + Z.of_nat j * step) <$> seq 0 n)
      as ->.
    { rewrite <- fmap_S_seq, <- list_fmap_compose.
      apply list_fmap_ext. intros i x _. unfold compose. lia. }
    rewrite IH; [|lia|lia|].
    + replace (k + Z.of_nat 0 * step) with k by lia.
      rewrite slice_take_drop by lia.
      replace (Z.to_nat (k + step - k)) with (Z.to_nat step) by lia.
      replace (Z.to_nat (k + step)) with (Z.to_nat k + Z.to_nat step)%nat by lia.
      rewrite <- drop_drop. apply take_drop.
    + intros j. pose proof (Hn (S j)) as Hj.
      replace (k + Z.of_nat (S j) * step) with (k + step + Z.of_nat j * step)
        in Hj by lia.
      rewrite <- Hj. lia.
Qed.

(** X9: with a positive batch size and a start offset that is not negative,
    the batches the loop cuts out of the word list are, put together in
    order, the word list from the start offset on: no word at or after the
    start is left out or taken twice; and each batch has at least one and at
    most [BATCH_SIZE] words. *)
Theorem batches_partition_words
    (BATCH_SIZE : Z) (words : list str) (start_index : Z) :
  0 < BATCH_SIZE -> 0 <= start_index ->
  exists offsets : list Z,
    range start_index (Z.of_nat (length words)) BATCH_SIZE = Return offsets
    /\ mjoin ((fun i => slice words i (i + BATCH_SIZE)) <$> offsets)
       = drop (Z.to_nat start_index) words
    /\ Forall (fun i =>
                 1 <= Z.of_nat (length (slice words i (i + BATCH_SIZE)))
                   <= BATCH_SIZE) offsets.
Proof.
  intros Hbs Hk.
  destruct (range_spec start_index (Z.of_nat (length words)) BATCH_SIZE Hbs)
    as (n & Hr & Hn).
  eexists. split; [exact Hr|]. split.
  - apply slices_join; assumption.
  - apply Forall_fmap, Forall_forall. intros j Hj.
    apply elem_of_seq in Hj. cbn [compose].
    rewrite slice_length by lia.
    pose proof (proj1 (Hn j) ltac:(lia)). lia.
Qed.

(** ** Clean replies give plain records *)

Lemma clean_encodable s : clean s -> encodable s = true.
Proof.
  induction 1 as [|c s Hc _ IH]; [reflexivity|].
  cbn [encodable forallb]. unfold clean_char in Hc.
  apply andb_true_iff in Hc as [Hc _]. rewrite Hc. exact IH.
Qed.

Lemma clean_plain_text s : clean s -> plain_text s = true.
Proof.
  induction 1 as [|c s Hc _ IH]; [reflexivity|].
  cbn [plain_text forallb]. unfold clean_char in Hc.
  apply andb_true_iff in Hc as [_ Hc]. rewrite Hc. exact IH.
Qed.

Lemma clean_app a b : clean a -> clean b -> clean (a ++ b).
Proof. intros Ha Hb. apply Forall_app. split; assumption. Qed.

Lemma clean_infix r s : infix_of r s -> clean s -> clean r.
Proof.
  intros (a & b & ->) H. apply Forall_app in H as [_ H].
  apply Forall_app in H as [H _]. exact H.
Qed.

Lemma clean_take n s : clean s -> clean (take n s).
Proof.
  apply clean_infix. exists [], (drop n s).
  rewrite app_nil_l, take_drop. reflexivity.
Qed.

Lemma clean_literals :
  clean (lit "UNKNOWN_") /\ clean format_error /\ clean missing_error
  /\ clean (lit "...").
Proof.
  repeat split; refine (bool_decide_unpack _ _); vm_compute; exact I.
Qed.

Lemma pretty_N_go_clean (x : N) : forall s : string,
  clean (bytes_of s) -> clean (bytes_of (pretty_N_go x s)).
Proof.
  induction (N.lt_wf_0 x) as [x _ IH]; intros s Hs.
  destruct (decide (x = 0%N)) as [->|Hx]; [exact Hs|].
  rewrite pretty_N_go_step by lia. apply IH; [apply N.div_lt; lia|].
  unfold bytes_of. cbn [String.list_ascii_of_string fmap list_fmap].
  constructor; [|exact Hs].
  unfold pretty_N_char. repeat case_match; reflexivity.
Qed.

Lemma clean_of_nat n : clean (of_nat n).
Proof.
  unfold of_nat, pretty, pretty_nat, pretty, pretty_N.
  destruct (decide (N.of_nat n = 0%N)).
  - refine (bool_decide_unpack _ _); vm_compute; exact I.
  - apply pretty_N_go_clean. constructor.
Qed.

Lemma clean_split sep s piece : piece ∈ split sep s -> clean s -> clean piece.
Proof.
  intros Hin. apply clean_infix.
  apply (split_go_infix sep s 0 [] piece); [congruence|exact Hin].
Qed.

Lemma clean_strip s : clean s -> clean (strip s).
Proof. apply clean_infix. exact (proj1 (strip_infix s)). Qed.

Lemma clean_line (lines : list str) k :
  (forall piece, piece ∈ lines -> clean piece) ->
  clean (default [] (lines !! k)).
Proof.
  intros H. destruct (lines !! k) as [l|] eqn:E; [|constructor].
  apply H. eapply list_elem_of_lookup_2, E.
Qed.

Lemma clean_word_of batch idx : Forall clean batch -> clean (word_of batch idx).
Proof.
  intros Hb. unfold word_of. destruct (batch !! idx) as [w|] eqn:E.
  - exact (proj1 (Forall_lookup _ _) Hb idx w E).
  - cbn [default]. destruct clean_literals as (Hu & _).
    apply clean_app; [exact Hu|apply clean_of_nat].
Qed.

Lemma map_Forall_list_to_map (P : str -> Prop) (l : list (string * str)) :
  Forall (fun kv => P kv.2) l ->
  map_Forall (fun (_ : string) (v : str) => P v) (list_to_map l : entry).
Proof.
  intros H k v Hl. apply elem_of_list_to_map_2 in Hl.
  rewrite Forall_forall in H. exact (H (k, v) Hl).
Qed.

Lemma good_classification_record w r n c f b x :
  clean w -> clean r -> clean n -> clean c -> clean f -> clean b -> clean x ->
  good_entry (classification_record w r n c f b x).
Proof.
  intros. unfold good_entry, classification_record.
  rewrite dom_list_to_map_L. cbn [fmap list_fmap fst].
  split; [|split].
  - refine (bool_decide_unpack _ _); vm_compute; exact I.
  - refine (bool_decide_unpack _ _); vm_compute; exact I.
  - apply map_Forall_list_to_map. repeat constructor; assumption.
Qed.

Lemma good_error_record w err raw :
  clean w -> clean err -> clean raw -> good_entry (error_record w err raw).
Proof.
  intros. unfold good_entry, error_record.
  rewrite dom_list_to_map_L. cbn [fmap list_fmap fst].
  split; [|split].
  - refine (bool_decide_unpack _ _); vm_compute; exact I.
  - refine (bool_decide_unpack _ _); vm_compute; exact I.
  - apply map_Forall_list_to_map. repeat constructor; assumption.
Qed.

Lemma good_entry_of_block batch idx raw :
  Forall clean batch -> clean raw -> good_entry (entry_of_block batch idx raw).
Proof.
  intros Hb Hraw. unfold entry_of_block. cbv zeta.
  pose proof (clean_strip raw Hraw) as Hblock.
  pose proof (clean_word_of batch idx Hb) as Hw.
  assert (forall piece, piece ∈ split [LF] (strip raw) -> clean piece) as Hl
    by (intros piece Hin; exact (clean_split _ _ _ Hin Hblock)).
  destruct clean_literals as (_ & Hf & _).
  destruct (match_ valid_pattern (strip raw)).
  - apply good_classification_record; try assumption;
      apply clean_line; exact Hl.
  - apply good_error_record; [exact Hw|exact Hf|exact Hblock].
Qed.

Lemma split_go_not_nil sep s : forall skip cur, split_go sep skip cur s <> [].
Proof.
  induction s as [|c s IH]; intros skip cur; cbn [split_go]; [discriminate|].
  destruct skip; [|apply IH].
  destruct (startswith sep (c :: s)); [discriminate|apply IH].
Qed.

(** The records of a clean reply to a batch of clean words. *)
Lemma parse_response_good text batch entries :
  clean text -> Forall clean batch ->
  parse_response text batch = Return entries ->
  entries <> [] /\ Forall good_entry entries.
Proof.
  intros Ht Hb. rewrite parse_response_spec. cbv zeta. intros [= <-].
  destruct clean_literals as (_ & _ & Hm & Hdots).
  split.
  - pose proof (split_go_not_nil [LF; LF] (strip text) 0 []) as Hne.
    fold (split [LF; LF] (strip text)) in Hne.
    destruct (split [LF; LF] (strip text)); [contradiction|discriminate].
  - apply Forall_app. split.
    + apply Forall_forall. intros e He.
      apply elem_of_imap_entries in He as (i & raw & Hraw & ->).
      apply good_entry_of_block; [exact Hb|].
      apply (clean_split [LF; LF] (strip text)).
      * eapply list_elem_of_lookup_2, Hraw.
      * apply clean_strip, Ht.
    + apply Forall_fmap, Forall_forall. intros w Hw.
      apply list_elem_of_filter in Hw as [_ Hw].
      unfold compose. rewrite missing_entry_eq.
      apply good_error_record.
      * rewrite Forall_forall in Hb. exact (Hb w Hw).
      * exact Hm.
      * apply clean_app; [apply clean_take, Ht|exact Hdots].
Qed.

(** Records that are good make a plain table. *)
Lemma good_entries_plain entries :
  entries <> [] -> Forall good_entry entries -> plain_entries entries.
Proof.
  intros Hne Hgood. split; [exact Hne|]. split.
  - eapply Forall_impl; [exact Hgood|]. intros e (_ & _ & He) k v Hk.
    apply clean_encodable. exact (He k v Hk).
  - unfold plain, DataFrame. cbv zeta.
    set (rows := (fun e : entry => Val <$> e) <$> entries).
    assert (Hcols : ⋃ (dom <$> rows) ⊆ known_fields).
    { intros k Hk. apply elem_of_union_list in Hk as (X & HX & Hk).
      apply list_elem_of_fmap in HX as (r & -> & Hr).
      apply list_elem_of_fmap in Hr as (e & -> & He).
      rewrite Forall_forall in Hgood. destruct (Hgood e He) as (Hd & _).
      rewrite dom_fmap_L in Hk. exact (Hd k Hk). }
    apply Forall_fmap, Forall_fmap, Forall_forall. intros e He.
    rewrite Forall_forall in Hgood. destruct (Hgood e He) as (Hd & Hsize & Hclean).
    unfold compose, plain_row.
    rewrite dom_union_L, dom_fmap_L, dom_gset_to_gmap.
    split; [|split].
    + apply union_least; [exact Hd|exact Hcols].
    + etransitivity; [exact Hsize|]. apply subseteq_size, union_subseteq_l.
    + intros k c Hk. apply lookup_union_Some_raw in Hk as [Hk|[_ Hk]].
      * rewrite lookup_fmap in Hk.
        destruct (e !! k) as [v|] eqn:E; [|discriminate].
        injection Hk as <-. cbn [plain_cell].
        apply clean_plain_text. exact (Hclean k v E).
      * apply lookup_gset_to_gmap_Some in Hk as [_ <-]. reflexivity.
Qed.

(** A clean reply to a batch of clean words is parsed into records that
    [save_results] writes in full and that read back row for row. *)
Lemma parse_response_plain text batch entries :
  clean text -> Forall clean batch ->
  parse_response text batch = Return entries ->
  plain_entries entries.
Proof.
  intros Ht Hb Hp. destruct (parse_response_good text batch entries Ht Hb Hp).
  apply good_entries_plain; assumption.
Qed.

(** ** Whole runs *)

Section RunFacts.

Variable BATCH_SIZE : Z.
Variable MAX_RETRIES : Z.
Variable env : pandas.
Variable api : nat -> str -> outcome (option str).
Variable future_repr : nat -> str.

Local Abbreviation process_batch' := (process_batch MAX_RETRIES api future_repr).
Local Abbreviation batch_turn' :=
  (batch_turn BATCH_SIZE MAX_RETRIES env api future_repr).
Local Abbreviation main' :=
  (main BATCH_SIZE MAX_RETRIES env api future_repr).

(** X10: when no offset is left, that is for a positive batch size and a
    recorded pointer at or past the end of the word list, a run makes no
    call, writes no batch artifact and no progress, and only aggregates: it
    ends as [aggregate_results] ends, returning or raising as it does, in
    the world it leaves. *)
Theorem main_nothing_left (words : list str) (w : world) :
  0 < BATCH_SIZE ->
  Z.of_nat (length words) <= last_index (load_progress w) ->
  main' words w
  = ((fun _ : agg_result => ()) <$> (aggregate_results w).1,
     (aggregate_results w).2).
Proof.
  intros Hbs Hlast. unfold main. rewrite range_empty by lia.
  cbn [foldl]. rewrite (proj2 (Z.leb_le _ _)) by exact Hlast. reflexivity.
Qed.

(** X11: a batch size that is not positive makes the run idle when the
    recorded pointer is not past the end of the word list: no call, no
    sleep, no batch artifact, no progress written. With batch size 0 the
    run raises the [ValueError] of [range] and the world is as before; with
    a negative one it returns normally with the world as before when the
    pointer is before the end of the word list, and only aggregates when
    the pointer is at the end. *)
Theorem main_nonpositive_batch_size (words : list str) (w : world) :
  BATCH_SIZE <= 0 ->
  last_index (load_progress w) <= Z.of_nat (length words) ->
  let w' := (main' words w).2 in
  api_calls w' = api_calls w
  /\ pacing_sleeps w' = pacing_sleeps w
  /\ results_dir w' = results_dir w
  /\ errors_dir w' = errors_dir w
  /\ progress_file w' = progress_file w
  /\ (BATCH_SIZE = 0 ->
      main' words w
      = (Raise (ValueError (lit "range() arg 3 must not be zero")), w))
  /\ (BATCH_SIZE < 0 ->
      (last_index (load_progress w) < Z.of_nat (length words) ->
       main' words w = (Return (), w))
      /\ (last_index (load_progress w) = Z.of_nat (length words) ->
          main' words w
          = ((fun _ : agg_result => ()) <$> (aggregate_results w).1,
             (aggregate_results w).2))).
Proof.
  intros Hbs Hlast w'. subst w'. unfold main.
  destruct (aggregate_results_frame w) as (Hp & Hr & He & Ha & Hs).
  destruct (Z.eq_dec BATCH_SIZE 0) as [H0|H0].
  - unfold range. rewrite (proj2 (Z.eqb_eq _ _)) by exact H0.
    repeat split; intros; lia.
  - rewrite range_empty by lia. cbn [foldl].
    destruct (Z.leb_spec (Z.of_nat (length words)) (last_index (load_progress w)))
      as [Hle|Hlt]; cbn [snd]; repeat split; try assumption; intros; lia.
Qed.

(** A loop all of whose calls return a clean reply at the first attempt,
    from a state that [a] such turns have left. *)
Lemma loop_all_succeed words :
  0 < BATCH_SIZE ->
  Forall clean words ->
  (forall n prompt, exists text, api n prompt = Return (Some text) /\ clean text) ->
  forall (m a : nat) (st : progress * world),
  (forall j : nat, (j < a + m)%nat ->
                   Z.of_nat j * BATCH_SIZE < Z.of_nat (length words)) ->
  load_progress st.2 = st.1 ->
  last_index st.1 = Z.of_nat a * BATCH_SIZE ->
  processed st.1 = Z.min (Z.of_nat a * BATCH_SIZE) (Z.of_nat (length words)) ->
  batches st.1 = (fun j : nat => Z.of_nat j + 1) <$> seq 0 a ->
  readable (results_dir st.2) ->
  (forall j : nat, (j < a)%nat ->
                   is_Some (results_dir st.2 !! results_name (Z.of_nat j + 1))) ->
  let st' :=
    foldl (batch_turn' words ∅) st
      ((fun j : nat => 0 + Z.of_nat j * BATCH_SIZE) <$> seq a m) in
  load_progress st'.2 = st'.1
  /\ last_index st'.1 = Z.of_nat (a + m) * BATCH_SIZE
  /\ processed st'.1
     = Z.min (Z.of_nat (a + m) * BATCH_SIZE) (Z.of_nat (length words))
  /\ batches st'.1 = (fun j : nat => Z.of_nat j + 1) <$> seq 0 (a + m)
  /\ length (api_calls st'.2) = (length (api_calls st.2) + m)%nat
  /\ readable (results_dir st'.2)
  /\ forall j : nat, (j < a + m)%nat ->
                     is_Some (results_dir st'.2 !! results_name (Z.of_nat j + 1)).
Proof.
  intros Hbs Hwords Hapi. induction m as [|m IH];
    intros a st Hlt HJ Hl Hp Hb Hread Hr.
  - cbn [seq fmap list_fmap foldl]. rewrite !Nat.add_0_r.
    repeat split; assumption.
  - cbn [seq fmap list_fmap foldl]. destruct st as [p w]. cbn [fst snd] in *.
    set (i := 0 + Z.of_nat a * BATCH_SIZE).
    assert (Hbn : i / BATCH_SIZE + 1 = Z.of_nat a + 1).
    { subst i. rewrite Z.add_0_l, Z.div_mul by lia. reflexivity. }
    assert (Hn : i / BATCH_SIZE + 1 ∉ (∅ : gset Z)) by apply not_elem_of_empty.
    destruct (process_batch' (slice words i (i + BATCH_SIZE))
                (i / BATCH_SIZE + 1) w) as [r w1] eqn:Ep.
    destruct (batch_turn_outcome BATCH_SIZE MAX_RETRIES env api future_repr
                words ∅ p w i r w1 Hn Ep)
      as [(Hc1 & _ & _ & Hp1 & Hl1 & Hb1) Hcase].
    assert (Hone : exists text,
               r = Return (Some text) /\ clean text
               /\ w1 = with_calls w
                         [(i / BATCH_SIZE + 1,
                           build_prompt (slice words i (i + BATCH_SIZE)))]).
    { destruct (Hapi (length (api_calls w))
                  (build_prompt (slice words i (i + BATCH_SIZE))))
        as (text & Ht & Hclean).
      exists text.
      apply process_batch_inv in Ep
        as [(k & content & _ & Hfail & Hok & -> & ->)|(Hall & _ & _)].
      - destruct k as [|k].
        + rewrite Nat.add_0_r in Hok. rewrite Ht in Hok. injection Hok as <-.
          repeat split. exact Hclean.
        + destruct (Hfail 0%nat ltac:(lia)) as [e He].
          rewrite Nat.add_0_r in He. congruence.
      - destruct (Hall 0%nat ltac:(lia)) as [e He].
        rewrite Nat.add_0_r in He. congruence. }
    destruct Hone as (text & -> & Hclean & ->).
    assert (Hbatch : Forall clean (slice words i (i + BATCH_SIZE))).
    { rewrite slice_take_drop by (subst i; lia).
      apply Forall_take, Forall_drop, Hwords. }
    pose proof (parse_response_plain text _ _ Hclean Hbatch
                  (parse_response_spec text (slice words i (i + BATCH_SIZE))))
      as Hplain.
    destruct (Hcase _ (parse_response_spec text (slice words i (i + BATCH_SIZE))))
      as [Hok _].
    destruct (Hok (proj1 (proj2 Hplain))) as (Hpr1 & Hres1 & _).
    rewrite (to_csv_plain env _ Hplain) in Hres1.
    pose proof (Hlt a ltac:(lia)) as Ha.
    destruct (IH (S a) (batch_turn' words ∅ (p, w) i))
      as (H1 & H2 & H3 & H4 & H5 & H6 & H7).
    + intros j Hj. apply Hlt. lia.
    + apply load_progress_saved, Hp1.
    + rewrite Hl1. subst i. lia.
    + rewrite Hpr1, Hp. rewrite slice_length by (subst i; lia). subst i. lia.
    + rewrite Hb1, Hb, Hbn. rewrite seq_S, fmap_app. reflexivity.
    + rewrite Hres1. cbn [with_calls results_dir]. apply readable_insert, Hread.
    + intros j Hj. rewrite Hres1. cbn [with_calls results_dir].
      destruct (decide (j = a)) as [->|Hne].
      * rewrite Hbn, lookup_insert_eq. eauto.
      * rewrite lookup_insert_ne.
        -- apply Hr. lia.
        -- rewrite Hbn. intros Heq. apply results_name_inj in Heq. lia.
    + replace (a + S m)%nat with (S a + m)%nat by lia.
      split; [exact H1|]. split; [exact H2|]. split; [exact H3|].
      split; [exact H4|]. split; [|split; [exact H6|exact H7]].
      rewrite H5, Hc1. unfold with_calls. cbn [api_calls].
      rewrite length_app. cbn [length]. lia.
Qed.

(** X12: a fresh run with a positive batch size over clean words, against a
    provider whose every call returns a clean reply, in a world whose
    [.csv] files can be read, ends normally after exactly one call per
    batch, with [n = ceil (len words / BATCH_SIZE)] batches: the saved
    progress has the pointer [n * BATCH_SIZE], the [processed] counter equal
    to the length of the word list, and the batch numbers [1 .. n] in
    order; the result artifact of each of these batches exists; the results
    have been aggregated; and a second run in the world reached makes no
    call and changes nothing. *)
Theorem main_fresh_success_run (words : list str) (w : world) :
  0 < BATCH_SIZE ->
  progress_file w = None ->
  Forall clean words ->
  (forall n prompt, exists text, api n prompt = Return (Some text) /\ clean text) ->
  readable (results_dir w) ->
  let total := Z.of_nat (length words) in
  let n := Z.to_nat ((total + BATCH_SIZE - 1) / BATCH_SIZE) in
  let w' := (main' words w).2 in
  (main' words w).1 = Return ()
  /\ load_progress w'
     = Progress (Z.of_nat n * BATCH_SIZE) total
                ((fun j : nat => Z.of_nat j + 1) <$> seq 0 n)
  /\ length (api_calls w') = (length (api_calls w) + n)%nat
  /\ (forall j : nat, (j < n)%nat ->
                      is_Some (results_dir w' !! results_name (Z.of_nat j + 1)))
  /\ is_Some (final_results w')
  /\ main' words w' = (Return (), w').
Proof.
  intros Hbs Hfresh Hwords Hapi Hreadable total n w'. subst w'.
  assert (Hload : load_progress w = fresh_progress)
    by (unfold load_progress; rewrite Hfresh; reflexivity).
  destruct (range_spec 0 total BATCH_SIZE Hbs) as (n' & Hr & Hn').
  assert (n' = n) as ->.
  { pose proof Hr as Hr'. unfold range in Hr'.
    rewrite (proj2 (Z.eqb_neq _ _)) in Hr' by lia.
    rewrite (proj2 (Z.ltb_lt _ _)) in Hr' by lia.
    cbv zeta in Hr'. cbn [mret outcome_ret] in Hr'. injection Hr' as Hr'.
    apply (f_equal length) in Hr'. rewrite !length_fmap, !length_seq in Hr'.
    subst n. rewrite <- Hr'. f_equal. f_equal. lia. }
  assert (Hagg : forall w1,
             readable (results_dir w1) ->
             aggregate_results w1
             = (Return (count_entries (csv_rows (results_dir w1))),
                World (progress_file w1) (results_dir w1) (errors_dir w1)
                      (Some (DataFrame (csv_rows (results_dir w1))))
                      (api_calls w1) (pacing_sleeps w1))).
  { intros w1 H1. unfold aggregate_results, csv_tables.
    rewrite (read_all_readable _ (readable_csv_files w1 H1)). reflexivity. }
  assert (Hmain : exists p w1,
             main' words w = (Return (), (aggregate_results w1).2)
             /\ readable (results_dir w1)
             /\ load_progress w1 = p
             /\ last_index p = Z.of_nat n * BATCH_SIZE
             /\ processed p = total
             /\ batches p = (fun j : nat => Z.of_nat j + 1) <$> seq 0 n
             /\ length (api_calls w1) = (length (api_calls w) + n)%nat
             /\ (forall j : nat, (j < n)%nat ->
                  is_Some (results_dir w1 !! results_name (Z.of_nat j + 1)))
             /\ total <= last_index p).
  { unfold main. rewrite Hload.
    cbn [fresh_progress last_index batches list_to_set].
    fold total. rewrite Hr.
    destruct (loop_all_succeed words Hbs Hwords Hapi n 0%nat (fresh_progress, w))
      as (H1 & H2 & H3 & H4 & H5 & H6 & H7).
    - intros j Hj. pose proof (proj1 (Hn' j) ltac:(lia)). lia.
    - exact Hload.
    - reflexivity.
    - cbn [fresh_progress processed fst]. lia.
    - reflexivity.
    - exact Hreadable.
    - intros j Hj. lia.
    - cbn [Nat.add] in *.
      destruct (foldl _ _ _) as [p w1]. cbn [fst snd] in *.
      assert (Hge : total <= last_index p).
      { rewrite H2. pose proof (proj2 (Hn' n)). lia. }
      rewrite (proj2 (Z.leb_le _ _)) by exact Hge.
      exists p, w1. rewrite (Hagg w1 H6). cbn [fst snd fmap outcome_fmap].
      repeat split; try assumption.
      rewrite H3. fold total. lia. }
  destruct Hmain
    as (p & w1 & Hmain & Hread & H1 & H2 & H3 & H4 & H5 & H6 & Hge).
  rewrite Hmain. rewrite (Hagg w1 Hread). cbn [fst snd].
  cbn [results_dir api_calls final_results].
  split; [reflexivity|]. split; [|split; [exact H5|split; [exact H6|split]]].
  - unfold load_progress in *. cbn [progress_file]. rewrite H1.
    destruct p as [li pr bs].
    cbn [last_index processed batches] in *. subst li pr bs. reflexivity.
  - eauto.
  - unfold main.
    assert (Hp : load_progress
                   (World (progress_file w1) (results_dir w1) (errors_dir w1)
                      (Some (DataFrame (csv_rows (results_dir w1))))
                      (api_calls w1) (pacing_sleeps w1)) = p) by exact H1.
    rewrite Hp. fold total. rewrite range_empty by lia.
    cbn [foldl]. rewrite (proj2 (Z.leb_le _ _)) by exact Hge.
    rewrite Hagg by exact Hread. reflexivity.
Qed.

End RunFacts.

(** ** The aggregator over what the run saved *)

Lemma reported_error_some (e : entry) (v : str) :
  e !! "error" = Some v -> v ∉ na_values -> reported_error e = has_error e.
Proof.
  intros E Hv. unfold reported_error, has_error. rewrite E.
  rewrite (bool_decide_eq_false_2 _ Hv), bool_decide_eq_true_2 by eauto.
  reflexivity.
Qed.

Lemma reported_error_none (e : entry) :
  e !! "error" = None -> reported_error e = has_error e.
Proof.
  intros E. unfold reported_error, has_error. rewrite E.
  rewrite bool_decide_eq_false_2 by (intros [? ?]; discriminate).
  reflexivity.
Qed.

Lemma parser_errors_not_missing_values :
  (format_error ∉ na_values) /\ (missing_error ∉ na_values).
Proof.
  split; refine (bool_decide_unpack _ _); vm_compute; exact I.
Qed.

(** X13: when the result artifacts are those [save_results] wrote for
    distinct batch numbers into an empty directory, each for at least one
    record and all of plain texts, the aggregator returns, its [error_words]
    is the number of written records that carry an error text which is not
    one of the texts pandas reads back as a missing value, and
    [success_words] is the number of the other records. For the records
    [parse_response] returns every error text is of that kind, so there the
    aggregator counts exactly the records with an [error] field. *)
Theorem aggregate_error_words env (written : list (Z * list entry)) (w : world) :
  NoDup written.*1 ->
  results_dir w = ∅ ->
  Forall (fun x : Z * list entry => plain_entries x.2) written ->
  (exists r,
     (aggregate_results (write_batches env written w)).1 = Return r
     /\ error_words r
        = Z.of_nat
            (sum_list ((fun x : Z * list entry =>
                          length (filter (fun e : entry =>
                                            reported_error e = true) x.2))
                       <$> written))
     /\ success_words r
        = Z.of_nat
            (sum_list ((fun x : Z * list entry =>
                          length (filter (fun e : entry =>
                                            reported_error e = false) x.2))
                       <$> written)))
  /\ forall text batch entries (e : entry),
       parse_response text batch = Return entries ->
       e ∈ entries ->
       reported_error e = has_error e.
Proof.
  intros Hnd Hempty Hplain. split.
  - destruct (aggregate_written env written w Hnd Hempty Hplain)
      as (r & Hr & Ht & He & Hsum).
    exists r. split; [exact Hr|]. split; [exact He|].
    assert (success_words r = total_words r - error_words r) as -> by lia.
    rewrite Ht, He. clear.
    induction written as [|[n es] rest IH]; [reflexivity|].
    rewrite !fmap_cons. cbn [sum_list_with id snd compose] in *.
    pose proof (filter_bool_split reported_error es). lia.
  - intros text batch entries e Hp He.
    rewrite parse_response_spec in Hp. cbv zeta in Hp. injection Hp as <-.
    destruct parser_errors_not_missing_values as [Hf Hm].
    apply elem_of_app in He as [He|He].
    + apply elem_of_imap_entries in He as (i & raw & _ & ->).
      pose proof (entry_of_block_error batch i raw) as E.
      destruct (match_ _ _).
      * exact (reported_error_none _ E).
      * exact (reported_error_some _ _ E Hf).
    + apply list_elem_of_fmap in He as (w0 & -> & _).
      rewrite missing_entry_eq.
      destruct (error_record_fields w0 missing_error (take 200 text ++ lit "..."))
        as (_ & E & _).
      exact (reported_error_some _ _ E Hm).
Qed.

Lemma csv_files_insert_other dir name (file : csv_file) :
  endswith (lit ".csv") name = false ->
  filter (fun f : str * csv_file => endswith (lit ".csv") f.1 = true)
         (map_to_list (<[name := file]> dir))
  ≡ₚ filter (fun f : str * csv_file => endswith (lit ".csv") f.1 = true)
            (map_to_list (delete name dir)).
Proof.
  intros Hname. rewrite <- insert_delete_eq.
  rewrite map_to_list_insert by apply lookup_delete_eq.
  rewrite filter_cons, decide_False; [reflexivity|].
  cbn [fst]. rewrite Hname. discriminate.
Qed.

(** What the aggregator returns depends on the files only up to their
    order: the counts are the same, and it raises for one order exactly when
    it raises for the other. *)
Lemma read_all_perm (files files' : list csv_file) :
  files ≡ₚ files' ->
  returned (fun tables => count_entries (mjoin tables)) (read_all files)
  = returned (fun tables => count_entries (mjoin tables)) (read_all files').
Proof.
  intros Hperm.
  assert (Hdec : Decision (Forall (fun file : csv_file =>
                                     exists table, file = Return table) files)).
  { apply Forall_dec. intros [t|e]; [left; eauto|right; intros [t H]; discriminate]. }
  destruct Hdec as [Hall|Hnot].
  - assert (Hall' : Forall (fun file : csv_file =>
                              exists table, file = Return table) files')
      by (rewrite <- Hperm; exact Hall).
    rewrite (read_all_readable _ Hall), (read_all_readable _ Hall').
    cbn [returned]. f_equal. unfold count_entries. cbv zeta.
    assert (mjoin (file_rows <$> files) ≡ₚ mjoin (file_rows <$> files')) as Hrows
      by (rewrite Hperm; reflexivity).
    rewrite Hrows. reflexivity.
  - assert (Hnot' : ~ Forall (fun file : csv_file =>
                                exists table, file = Return table) files')
      by (rewrite <- Hperm; exact Hnot).
    destruct (read_all files) as [tables|e] eqn:E.
    { exfalso. apply Hnot. apply read_all_Return in E as ->.
      apply Forall_fmap, Forall_forall. intros t _. cbn. eauto. }
    destruct (read_all files') as [tables'|e'] eqn:E'.
    { exfalso. apply Hnot'. apply read_all_Return in E' as ->.
      apply Forall_fmap, Forall_forall. intros t _. cbn. eauto. }
    reflexivity.
Qed.

(** X14: the aggregator changes nothing but [final_results.csv], which is
    not among the files it reads: aggregating again gives the same outcome
    and the same world. And a file of [results/] whose name does not end in
    [.csv] is not read: adding or replacing one leaves the counts as they
    are (and the aggregator raises with it exactly when it raises without
    it; [os.listdir] promises no order, so which unreadable file raises
    first is not compared). *)
Theorem aggregate_results_stable (w : world) :
  aggregate_results (aggregate_results w).2 = aggregate_results w
  /\ forall (name : str) (file : csv_file),
       endswith (lit ".csv") name = false ->
       returned id (aggregate_results (with_result_file name file w)).1
       = returned id (aggregate_results w).1.
Proof.
  split.
  - unfold aggregate_results at 2 3.
    destruct (csv_tables w) as [tables|e] eqn:E; cbn [snd].
    + unfold aggregate_results, csv_tables, csv_files. cbn [results_dir].
      unfold csv_tables, csv_files in E. rewrite E. reflexivity.
    + unfold aggregate_results. rewrite E. reflexivity.
  - intros name file Hname.
    assert (Hperm : csv_files (with_result_file name file w) ≡ₚ csv_files w).
    { unfold csv_files, with_result_file. cbn [results_dir].
      rewrite csv_files_insert_other by exact Hname.
      destruct (results_dir w !! name) as [t0|] eqn:E.
      - rewrite <- (insert_id (results_dir w) name t0 E) at 2.
        rewrite csv_files_insert_other by exact Hname. reflexivity.
      - rewrite delete_id by exact E. reflexivity. }
    apply read_all_perm in Hperm.
    unfold aggregate_results, csv_tables.
    destruct (read_all (csv_files (with_result_file name file w))),
             (read_all (csv_files w)); cbn [returned fst id] in *;
      congruence.
Qed.

(** ** The word list *)

Lemma try_paths_first {V} (read_csv : str -> csv_read V) (paths : list str) :
  ((forall path, path ∈ paths -> read_csv path = NoFile)
   /\ try_paths read_csv paths = wordlist_of_file NoFile)
  \/ exists pre path post,
       paths = pre ++ path :: post
       /\ (forall p, p ∈ pre -> read_csv p = NoFile)
       /\ read_csv path <> NoFile
       /\ try_paths read_csv paths = wordlist_of_file (read_csv path).
Proof.
  induction paths as [|path paths IH].
  - left. split; [|reflexivity]. intros path H. inversion H.
  - cbn [try_paths]. destruct (read_csv path) as [|e|df] eqn:E.
    + destruct IH as [[Hall Ht]|(pre & path' & post & -> & Hpre & Hne & Ht)].
      * left. split; [|exact Ht].
        intros p [->|Hp]%elem_of_cons; [exact E|exact (Hall p Hp)].
      * right. exists (path :: pre), path', post.
        split; [reflexivity|]. split; [|split; [exact Hne|exact Ht]].
        intros p [->|Hp]%elem_of_cons; [exact E|exact (Hpre p Hp)].
    + right. exists [], path, paths. rewrite E.
      repeat split; [intros p H; inversion H|discriminate].
    + right. exists [], path, paths. rewrite E.
      repeat split; [intros p H; inversion H|discriminate].
Qed.

(** X15: [load_wordlist] is decided by the first of its three paths, in the
    order [src/wordlist/], [wordlist/], project root, at which a file
    exists: it returns the [word] column of that file, or lets through the
    [KeyError] of a missing [word] column or the exception of a file that
    cannot be read, without looking at the later paths; it raises its own
    [FileNotFoundError] exactly when no file exists at any of the three. *)
Theorem load_wordlist_first_file {V} (read_csv : str -> csv_read V) :
  (((forall path, path ∈ possible_paths -> read_csv path = NoFile)
    /\ load_wordlist read_csv
       = FileNotFoundError
           (lit "未找到词表文件。请确保文件位于 src/wordlist/ 或项目根目录"))
   \/ exists pre path post,
        possible_paths = pre ++ path :: post
        /\ (forall p, p ∈ pre -> read_csv p = NoFile)
        /\ read_csv path <> NoFile
        /\ load_wordlist read_csv = wordlist_of_file (read_csv path)
        /\ forall msg, load_wordlist read_csv <> FileNotFoundError msg)
  /\ (read_csv (lit "src/wordlist/sample_new_words.csv") <> NoFile ->
      load_wordlist read_csv
      = wordlist_of_file (read_csv (lit "src/wordlist/sample_new_words.csv"))).
Proof.
  split;
    [|unfold load_wordlist, possible_paths; cbn [try_paths];
      destruct (read_csv (lit "src/wordlist/sample_new_words.csv"));
      [contradiction|reflexivity|reflexivity]].
  unfold load_wordlist.
  destruct (try_paths_first read_csv possible_paths)
    as [[Hall Ht]|(pre & path & post & Hp & Hpre & Hne & Ht)].
  - left. split; [exact Hall|exact Ht].
  - right. exists pre, path, post. repeat split; try assumption.
    rewrite Ht. intros msg. destruct (read_csv path) as [|e|df];
      [contradiction|discriminate|].
    unfold wordlist_of_file. destruct (df !! "word"); discriminate.
Qed.

(** ** The prompt *)

Lemma number_words_spec word_batch : forall i prompt,
  number_words i word_batch prompt
  = prompt ++ mjoin (imap (fun k => prompt_line (i + k)) word_batch).
Proof.
  induction word_batch as [|word rest IH]; intros i prompt.
  - cbn [number_words imap mjoin list_join]. rewrite app_nil_r. reflexivity.
  - cbn [number_words]. rewrite IH, imap_cons.
    assert (imap ((fun k => prompt_line (i + k)) ∘ S) rest
            = imap (fun k => prompt_line (S i + k)) rest) as ->.
    { apply imap_ext. intros k w _. unfold compose. f_equal. lia. }
    cbn [mjoin list_join]. rewrite Nat.add_0_r. unfold prompt_line at 2.
    rewrite <- !app_assoc. reflexivity.
Qed.

(** X16: the prompt of a batch is the fixed template followed, for each word
    of the batch in order, by a line feed and [词语 i：word], the words being
    numbered from 1; so the prompt of an empty batch is the template alone,
    and a word added at the end of a batch adds its line at the end of the
    prompt. *)
Theorem build_prompt_closed_form (word_batch : list str) :
  build_prompt word_batch
  = prompt_template
    ++ mjoin (imap (fun k => prompt_line (S k)) word_batch)
  /\ build_prompt [] = prompt_template
  /\ forall word,
       build_prompt (word_batch ++ [word])
       = build_prompt word_batch ++ prompt_line (S (length word_batch)) word.
Proof.
  unfold build_prompt. split; [apply number_words_spec|].
  split; [reflexivity|]. intros word.
  rewrite !number_words_spec, imap_app, join_app, app_assoc.
  cbn [imap mjoin list_join]. rewrite app_nil_r, Nat.add_0_r. reflexivity.
Qed.

(** ** Instances *)

(** An instance of [succeeded_batch_artifacts]: the first batch of a fresh
    run, the reply holding one valid and one malformed block. *)
Lemma succeeded_batch_artifacts_witness :
  processed
    (batch_turn 2 3 sample_pandas (api_fixed sample_reply_2)
       sample_future_repr six_words ∅ (fresh_progress, world_with None) 0).1
  = processed fresh_progress + Z.of_nat (length (slice six_words 0 (0 + 2))).
Proof.
  destruct (succeeded_batch_artifacts 2 3 sample_pandas
              (api_fixed sample_reply_2) sample_future_repr six_words ∅
              fresh_progress (world_with None) 0 sample_reply_2)
    as (entries & Hparse & _ & Hok & _).
  - apply not_elem_of_empty.
  - reflexivity.
  - rewrite parse_response_spec in Hparse. cbv zeta in Hparse.
    injection Hparse as <-.
    destruct Hok as (_ & _ & _ & _ & H); [|exact H].
    refine (bool_decide_unpack _ _); vm_compute; exact I.
Defined.

(** An instance of [main_accounting]: a fresh run over six words in batches
    of two sleeps three times. *)
Lemma main_accounting_witness :
  pacing_sleeps
    (main 2 3 sample_pandas (api_fixed sample_reply_two_valid)
       sample_future_repr six_words (world_with None)).2
  = 3%nat.
Proof.
  destruct (main_accounting 2 3 sample_pandas
              (api_fixed sample_reply_two_valid) sample_future_repr six_words
              (world_with None) [0; 2; 4])
    as (H & _).
  - reflexivity.
  - rewrite H. vm_compute. reflexivity.
Defined.

(** An instance of [batches_partition_words]: six words from offset 2 on, in
    batches of two. *)
Lemma batches_partition_words_witness :
  exists offsets : list Z,
    range 2 (Z.of_nat (length six_words)) 2 = Return offsets
    /\ mjoin ((fun i => slice six_words i (i + 2)) <$> offsets)
       = drop (Z.to_nat 2) six_words
    /\ Forall (fun i =>
                 1 <= Z.of_nat (length (slice six_words i (i + 2))) <= 2)
              offsets.
Proof.
  apply (batches_partition_words 2 six_words 2); lia.
Defined.

(** An instance of [main_nothing_left]: all three batches of six words are
    recorded as done. *)
Lemma main_nothing_left_witness :
  main 2 3 sample_pandas api_down sample_future_repr six_words
    (world_with (Some (Progress 6 6 [1; 2; 3])))
  = ((fun _ : agg_result => ())
       <$> (aggregate_results (world_with (Some (Progress 6 6 [1; 2; 3])))).1,
     (aggregate_results (world_with (Some (Progress 6 6 [1; 2; 3])))).2).
Proof.
  apply (main_nothing_left 2 3 sample_pandas api_down sample_future_repr
           six_words (world_with (Some (Progress 6 6 [1; 2; 3])))).
  - lia.
  - vm_compute. discriminate.
Defined.

(** An instance of [main_nonpositive_batch_size]: batch size 0. *)
Lemma main_nonpositive_batch_size_witness :
  main 0 3 sample_pandas api_down sample_future_repr six_words
    (world_with None)
  = (Raise (ValueError (lit "range() arg 3 must not be zero")),
     world_with None).
Proof.
  destruct (main_nonpositive_batch_size 0 3 sample_pandas api_down
              sample_future_repr six_words (world_with None))
    as (_ & _ & _ & _ & _ & H & _).
  - lia.
  - vm_compute. discriminate.
  - exact (H eq_refl).
Defined.

(** An instance of [main_fresh_success_run]: six words in batches of two
    take three calls. *)
Lemma main_fresh_success_run_witness :
  length
    (api_calls
       (main 2 3 sample_pandas (api_fixed sample_reply_two_valid)
          sample_future_repr six_words (world_with None)).2)
  = 3%nat.
Proof.
  destruct (main_fresh_success_run 2 3 sample_pandas
              (api_fixed sample_reply_two_valid) sample_future_repr six_words
              (world_with None))
    as (_ & _ & H & _).
  - lia.
  - reflexivity.
  - refine (bool_decide_unpack _ _); vm_compute; exact I.
  - intros n prompt. exists sample_reply_two_valid.
    split; [reflexivity|].
    refine (bool_decide_unpack _ _); vm_compute; exact I.
  - intros name file Hl. cbn [world_with results_dir] in Hl.
    rewrite lookup_empty in Hl. discriminate.
  - rewrite H. reflexivity.
Defined.

(** An instance of [aggregate_error_words]: two error records among the
    three written. *)
Lemma aggregate_error_words_witness :
  exists r,
    (aggregate_results
       (write_batches sample_pandas sample_written (world_with None))).1
    = Return r
    /\ error_words r
       = Z.of_nat
           (sum_list
              ((fun x : Z * list entry =>
                  length (filter (fun e : entry => reported_error e = true) x.2))
               <$> sample_written)).
Proof.
  destruct (aggregate_error_words sample_pandas sample_written (world_with None))
    as [(r & Hr & He & _) _].
  - refine (bool_decide_unpack _ _); vm_compute; exact I.
  - reflexivity.
  - refine (bool_decide_unpack _ _); vm_compute; exact I.
  - exists r. split; [exact Hr|exact He].
Defined.
